(** * A division-method hash table with chaining: ht-divchn.c over dll.c

    The development embeds the C sources of the repository:
    - [ht-divchn.c]: the prime ladder ([C_PRIME_PARTS], [build_prime],
      [is_overflow], [incr_count]), the integer load factor bound
      ([mul_alpha_sz_max]), the key conversion ([convert_std_key], [hash])
      and the table operations ([ht_divchn_init], [ht_divchn_insert],
      [ht_divchn_search], [ht_divchn_remove], [ht_divchn_delete],
      [ht_grow]);
    - [dll.c]: the circular doubly linked list the table chains its keys
      with ([dll_prepend_new], [dll_prepend], [dll_search_key],
      [dll_remove], [dll_delete]).

    A [size_t] is a [Z] reduced modulo [2 ^ (CHAR_BIT * sizeof(size_t))];
    the size [sz] of [size_t] in bytes is a parameter of every definition,
    so that the 16, 32 and 64 bit hosts are covered by the same text.
    Nodes live in a heap (a finite map from addresses to node records) and
    are linked through their [next] and [prev] fields exactly like in the
    C code; the operations run in a state and failure monad whose failure
    stands for undefined behaviour (a null or dangling dereference, an out
    of bounds bucket) or for an exhausted loop bound. *)

From Stdlib Require Import ZArith Lia.
From Stdlib.Strings Require Import Byte.
From stdpp Require Import base option list gmap.

Local Open Scope Z_scope.

(** ** Machine words *)

Definition CHAR_BIT : Z := 8.

Section Words.
Variable sz : Z.                       (* sizeof(size_t) *)

Definition C_BYTE_BIT : Z := CHAR_BIT.
Definition C_FULL_BIT : Z := CHAR_BIT * sz.

(** Conversion to [size_t]: reduction modulo [2 ^ C_FULL_BIT]. *)
Definition wrap (x : Z) : Z := x mod 2 ^ C_FULL_BIT.

Definition C_SIZE_MAX : Z := wrap (-1).

(** [x << n] and [x >> n] on [size_t]. C leaves a shift by the width or
    more undefined; the model shifts the integer and reduces. *)
Definition shl (x n : Z) : Z := wrap (Z.shiftl x n).
Definition shr (x n : Z) : Z := Z.shiftr x n.
End Words.

(** Value of an [unsigned char]. *)
Definition byte_val (b : byte) : Z := Z.of_N (Byte.to_N b).

(** Read of a constant [size_t] array; an index outside the array, which C
    leaves undefined, reads [0]. *)
Definition arr (l : list Z) (i : Z) : Z := default 0 (l !! Z.to_nat i).

(** ** The prime ladder *)

Definition C_PRIME_PARTS : list Z :=
  [0x0607;                               (* 1543 *)
   0x0c2f;                               (* 3119 *)
   0x1843;                               (* 6211 *)
   0x3037;                               (* 12343 *)
   0x5dad;                               (* 23981 *)
   0xbe21;                               (* 48673 *)
   0x5b0b; 0x0001;                       (* 88843 *)
   0xd8d5; 0x0002;                       (* 186581 *)
   0xc219; 0x0005;                       (* 377369 *)
   0x0077; 0x000c;                       (* 786551 *)
   0xa243; 0x0016;                       (* 1483331 *)
   0x2029; 0x0031;                       (* 3219497 *)
   0xcc21; 0x005f;                       (* 6278177 *)
   0x5427; 0x00bf;                       (* 12538919 *)
   0x037f; 0x0180;                       (* 25166719 *)
   0x42bb; 0x030f;                       (* 51331771 *)
   0x1c75; 0x06b7;                       (* 112663669 *)
   0x96ad; 0x0c98;                       (* 211326637 *)
   0x96b7; 0x1898;                       (* 412653239 *)
   0xc10f; 0x2ecf;                       (* 785367311 *)
   0x425b; 0x600f;                       (* 1611612763 *)
   0x0007; 0xc000;                       (* 3221225479 *)
   0x016f; 0x8000; 0x0001;               (* 6442451311 *)
   0x9345; 0xffc8; 0x0002;               (* 12881269573 *)
   0x5523; 0xf272; 0x0005;               (* 25542415651 *)
   0x1575; 0x0a63; 0x000c;               (* 51713873269 *)
   0x22fb; 0xca07; 0x001b;               (* 119353582331 *)
   0xc513; 0x4d6b; 0x0031;               (* 211752305939 *)
   0xa6cd; 0x50f3; 0x0061;               (* 417969972941 *)
   0xa021; 0x5460; 0x00be;               (* 817459404833 *)
   0xea29; 0x7882; 0x0179;               (* 1621224516137 *)
   0xeaaf; 0x7c3d; 0x02f5;               (* 3253374675631 *)
   0xab5f; 0x5a69; 0x05ff;               (* 6594291673951 *)
   0x6b1f; 0x29ef; 0x0c24;               (* 13349461912351 *)
   0xc81b; 0x35a7; 0x17fe;               (* 26380589320219 *)
   0x57b7; 0xccbe; 0x2ffb;               (* 52758518323127 *)
   0xc8fb; 0x1da8; 0x6bf3;               (* 118691918825723 *)
   0x82c3; 0x2c9f; 0xc2cc;               (* 214182177768131 *)
   0x3233; 0x1c54; 0x7d40; 0x0001;       (* 419189283369523 *)
   0x60ad; 0x46a1; 0xf55e; 0x0002;       (* 832735214133421 *)
   0x6bab; 0x40c4; 0xf12a; 0x0005;       (* 1672538661088171 *)
   0xb24d; 0x6765; 0x38b5; 0x000b;       (* 3158576518771277 *)
   0x789f; 0xfd94; 0xc6b2; 0x0017;       (* 6692396525189279 *)
   0x0d35; 0x5443; 0xff54; 0x0030;       (* 13791536538127669 *)
   0x2465; 0x74f9; 0x42d1; 0x005e;       (* 26532115188884581 *)
   0xd017; 0x90c7; 0x37b3; 0x00c6;       (* 55793289756397591 *)
   0x5055; 0x5a82; 0x64df; 0x0193;       (* 113545326073368661 *)
   0x6f8f; 0x423b; 0x8949; 0x0304;       (* 217449629757435791 *)
   0xd627; 0x08e0; 0x0b2f; 0x05fe;       (* 431794910914467367 *)
   0xbbc1; 0x662c; 0x4d90; 0x0bad;       (* 841413987972987841 *)
   0xf7d3; 0x45a1; 0x8ccb; 0x185d;       (* 1755714234418853843 *)
   0xc647; 0x3c91; 0x46b2; 0x2e9b;       (* 3358355678469146183 *)
   0x58a1; 0xbd96; 0x2836; 0x5f8c;       (* 6884922145916737697 *)
   0x8969; 0x4c70; 0x6dbe; 0xdad8].      (* 15769474759331449193 *)

Definition C_PRIME_PARTS_COUNT : Z := 6 + 16 * (2 + 3 + 4).
Definition C_PARTS_PER_PRIME : list Z := [1; 2; 3; 4].
Definition C_PARTS_ACC_COUNTS : list Z :=
  [6; 6 + 16 * 2; 6 + 16 * (2 + 3); 6 + 16 * (2 + 3 + 4)].
Definition C_BUILD_SHIFT : Z := 16.

(** The values the comments of [C_PRIME_PARTS] document, in ladder order. *)
Definition documented_primes : list Z :=
  [1543; 3119; 6211; 12343; 23981; 48673;
   88843; 186581; 377369; 786551; 1483331; 3219497; 6278177; 12538919;
   25166719; 51331771; 112663669; 211326637; 412653239; 785367311;
   1611612763; 3221225479;
   6442451311; 12881269573; 25542415651; 51713873269; 119353582331;
   211752305939; 417969972941; 817459404833; 1621224516137;
   3253374675631; 6594291673951; 13349461912351; 26380589320219;
   52758518323127; 118691918825723; 214182177768131;
   419189283369523; 832735214133421; 1672538661088171; 3158576518771277;
   6692396525189279; 13791536538127669; 26532115188884581;
   55793289756397591; 113545326073368661; 217449629757435791;
   431794910914467367; 841413987972987841; 1755714234418853843;
   3358355678469146183; 6884922145916737697; 15769474759331449193].

Section Ladder.
Variable sz : Z.

(** [build_prime]: the loop [for (i = 0; i < count; i++)], with [n]
    iterations left. *)
Fixpoint build_prime_loop (n : nat) (start i p : Z) : Z :=
  match n with
  | O => p
  | S n' =>
      let n_shift := arr C_PRIME_PARTS (wrap sz (start + i)) in
      let n_shift := shl sz n_shift (wrap sz (i * C_BUILD_SHIFT)) in
      build_prime_loop n' start (i + 1) (Z.lor p n_shift)
  end.

Definition build_prime (start count : Z) : Z :=
  build_prime_loop (Z.to_nat count) start 0 0.

(** [is_overflow]: the loop [while (n_shift) { n_shift >>= 1; c++; }];
    a word is zero after [C_FULL_BIT] right shifts, which bounds it. *)
Fixpoint count_bits (fuel : nat) (n_shift c : Z) : Z :=
  match fuel with
  | O => c
  | S fuel' =>
      if decide (n_shift = 0) then c
      else count_bits fuel' (shr n_shift 1) (c + 1)
  end.

Definition is_overflow (start count : Z) : bool :=
  let n_shift := arr C_PRIME_PARTS (wrap sz (start + wrap sz (count - 1))) in
  let c := count_bits (Z.to_nat (C_FULL_BIT sz)) n_shift 0 in
  bool_decide (wrap sz (c + wrap sz (wrap sz (count - 1) * C_BUILD_SHIFT))
               > C_FULL_BIT sz).

(** ** Integer load factor arithmetic *)

(** Modelled from the spec: [mul_ext] of utilities-mod.c, of which only
    the declaration in utilities-mod.h is at hand: it "produces the full
    [2 * WORD_BITS]-bit product split into two words", high word first. *)
Definition mul_ext (a b : Z) : Z * Z :=
  (wrap sz (a * b / 2 ^ C_FULL_BIT sz), wrap sz (a * b)).

Definition mul_alpha_sz_max (n alpha_n log_alpha_d : Z) : Z :=
  let '(h, l) := mul_ext n alpha_n in
  if decide (shr h log_alpha_d = 0) then
    let l := shr l log_alpha_d in
    let h := shl sz h (C_FULL_BIT sz - log_alpha_d) in
    wrap sz (l + h)
  else C_SIZE_MAX sz.               (* overflow after division *)

(** ** Key conversion *)

(** [memcpy(dst, src, n)] on blocks given by their contents; [src] holds
    at least [n] bytes by the contract of every caller. *)
Definition memcpy (dst src : list byte) (n : Z) : list byte :=
  take (Z.to_nat n) src ++ drop (Z.to_nat n) dst.

(** [memset(buf, 0, n)] over a whole buffer of [n] bytes. *)
Definition zero_block (n : Z) : list byte := replicate (Z.to_nat n) x00.

Definition buf_at (buf : list byte) (i : Z) : Z :=
  byte_val (default x00 (buf !! Z.to_nat i)).

(** The loop [for (i = 0; i < n; i++) std_key += (size_t)buf[i] << (i *
    C_BYTE_BIT)], with [n] iterations left. *)
Fixpoint add_bytes (n : nat) (buf : list byte) (i std_key : Z) : Z :=
  match n with
  | O => std_key
  | S n' =>
      add_bytes n' buf (i + 1)
        (wrap sz (std_key + shl sz (buf_at buf i) (wrap sz (i * C_BYTE_BIT))))
  end.

(** The loop [for (k = k_start; k != k_end; k += buf_size)], with [n]
    iterations left; [k] is the rest of the key block from the current
    position on. *)
Fixpoint add_words (n : nat) (k buf : list byte) (std_key : Z) : Z :=
  match n with
  | O => std_key
  | S n' =>
      let buf := memcpy buf k sz in
      add_words n' (drop (Z.to_nat sz) k) buf
        (add_bytes (Z.to_nat sz) buf 0 std_key)
  end.

Definition convert_std_key
    (rdc_key : option (list byte → Z → Z)) (key_size : Z)
    (key : list byte) : Z :=
  match rdc_key with
  | Some rdc => wrap sz (rdc (take (Z.to_nat key_size) key) key_size)
  | None =>
      let buf_size := sz in
      let sz_count := key_size / buf_size in
      let rem_size := wrap sz (key_size - wrap sz (sz_count * buf_size)) in
      let buf := zero_block buf_size in
      let buf := memcpy buf key rem_size in
      let std_key := add_bytes (Z.to_nat rem_size) buf 0 0 in
      add_words (Z.to_nat sz_count) (drop (Z.to_nat rem_size) key) buf std_key
  end.
End Ladder.

(** ** Node memory *)

Definition addr : Type := positive.

(** A C pointer to a node: [None] is [NULL]. *)
Definition ptr : Type := option addr.

(** [dll_node_t] with the key and element regions allocated with it. *)
Record dll_node : Type := Node {
  key : list byte;
  elt : list byte;
  next : ptr;
  prev : ptr
}.

(** The memory the operations run on: the allocated nodes, the next fresh
    address of the allocator, and the element regions handed to the
    [free_elt] callback so far, oldest first. *)
Record mem : Type := Mem {
  heap : gmap addr dll_node;
  brk : addr;
  freed : list (list byte)
}.

(** State and failure monad; [None] is undefined behaviour or an exhausted
    loop bound. *)
Definition M (A : Type) : Type := mem → option (A * mem).

Definition ret {A} (a : A) : M A := λ m, Some (a, m).
Definition bind {A B} (c : M A) (k : A → M B) : M B :=
  λ m, match c m with
       | Some (a, m') => k a m'
       | None => None
       end.
Definition fail {A} : M A := λ _, None.
Definition lift {A} (o : option A) : M A :=
  λ m, match o with Some a => Some (a, m) | None => None end.
Definition get_mem : M mem := λ m, Some (m, m).

Notation "'let!' x ':=' c 'in' k" := (bind c (λ x, k))
  (at level 10, x pattern, c at level 100, k at level 200).

(** [*p] for a node pointer. *)
Definition load (p : ptr) : M dll_node :=
  λ m, match p with
       | Some a => match heap m !! a with
                   | Some n => Some (n, m)
                   | None => None
                   end
       | None => None
       end.

Definition store (p : ptr) (n : dll_node) : M unit :=
  λ m, match p with
       | Some a => match heap m !! a with
                   | Some _ => Some (tt, Mem (<[a := n]> (heap m)) (brk m) (freed m))
                   | None => None
                   end
       | None => None
       end.

(** [p->next = v], [p->prev = v] and the overwrite of the element region. *)
Definition set_next (p v : ptr) : M unit :=
  let! n := load p in store p (Node (key n) (elt n) v (prev n)).
Definition set_prev (p v : ptr) : M unit :=
  let! n := load p in store p (Node (key n) (elt n) (next n) v).
Definition set_elt (p : ptr) (e : list byte) : M unit :=
  let! n := load p in store p (Node (key n) e (next n) (prev n)).

(** [malloc_perror] of one node block with room for the key and the
    element: a fresh address; the block starts zeroed and unlinked. An
    allocation failure, which exits the program, is not modelled. *)
Definition malloc_node (key_size elt_size : Z) : M ptr :=
  λ m, Some (Some (brk m),
             Mem (<[brk m := Node (replicate (Z.to_nat key_size) x00)
                                  (replicate (Z.to_nat elt_size) x00)
                                  None None]> (heap m))
                 (Pos.succ (brk m)) (freed m)).

(** [free(p)]. *)
Definition free_node (p : ptr) : M unit :=
  λ m, match p with
       | Some a => match heap m !! a with
                   | Some _ => Some (tt, Mem (delete a (heap m)) (brk m) (freed m))
                   | None => None
                   end
       | None => None
       end.

(** [if (free_elt != NULL) free_elt(p->elt)]: the callback is opaque; the
    call is recorded with the bytes of the element region it receives. *)
Definition call_free_elt (free_elt : bool) (p : ptr) : M unit :=
  if free_elt then
    let! n := load p in
    λ m, Some (tt, Mem (heap m) (brk m) (freed m ++ [elt n]))
  else ret tt.

(** ** dll.c *)

(** [memcmp(a, b, n)]: the sign of the first difference among the first
    [n] bytes, compared as [unsigned char]. *)
Fixpoint memcmp_loop (n : nat) (a b : list byte) : Z :=
  match n with
  | O => 0
  | S n' =>
      let x := byte_val (default x00 (head a)) in
      let y := byte_val (default x00 (head b)) in
      if decide (x < y) then -1
      else if decide (y < x) then 1
      else memcmp_loop n' (tail a) (tail b)
  end.
Definition memcmp (a b : list byte) (n : Z) : Z := memcmp_loop (Z.to_nat n) a b.

(** The test [memcmp(node->key, key, key_size) == 0] of dll.c; ht-divchn.c
    hands its [cmp_key] to the search, which then tests [cmp_key(node->key,
    key) == 0] instead. *)
Definition key_equal (cmp_key : option (list byte → list byte → Z))
    (key_size : Z) (node_key k : list byte) : bool :=
  match cmp_key with
  | None => bool_decide (memcmp node_key k key_size = 0)
  | Some cmp => bool_decide (cmp node_key k = 0)
  end.

Definition dll_init : ptr := None.

Definition dll_prepend (head node : ptr) : M ptr :=
  let! _ :=
    match head with
    | None =>
        let! _ := set_next node node in
        set_prev node node
    | Some _ =>
        let! _ := set_next node head in
        let! h := load head in
        let! _ := set_prev node (prev h) in
        let! h := load head in
        let! _ := set_next (prev h) node in
        set_prev head node
    end in
  ret node.

Definition dll_prepend_new (head : ptr) (k e : list byte)
    (key_size elt_size : Z) : M ptr :=
  let! node := malloc_node key_size elt_size in
  let! n := load node in
  let! _ := store node (Node (memcpy (key n) k key_size)
                             (memcpy (elt n) e elt_size) (next n) (prev n)) in
  dll_prepend head node.

(** The loop [while (node != *head)] of [dll_search_key]; the second
    component lists the nodes whose key region was read, in order. *)
Fixpoint dll_search_loop (fuel : nat) (h : gmap addr dll_node)
    (cmp_key : option (list byte → list byte → Z)) (key_size : Z)
    (head node : ptr) (k : list byte) (visited : list addr)
    : option (ptr * list addr) :=
  if decide (node = head) then Some (None, visited)
  else
    match fuel, node with
    | S fuel', Some a =>
        match h !! a with
        | Some n =>
            if key_equal cmp_key key_size (key n) k
            then Some (node, visited ++ [a])
            else dll_search_loop fuel' h cmp_key key_size head (next n) k
                   (visited ++ [a])
        | None => None
        end
    | _, _ => None
    end.

(** [dll_search_key]; the key argument is a pointer and may be [NULL]. The
    ring holds at most as many nodes as the heap, which bounds the loop. *)
Definition dll_search_key_visit (h : gmap addr dll_node)
    (cmp_key : option (list byte → list byte → Z)) (key_size : Z)
    (head : ptr) (k : option (list byte)) : option (ptr * list addr) :=
  match head, k with
  | Some a, Some kb =>
      match h !! a with
      | Some n =>
          if key_equal cmp_key key_size (key n) kb then Some (head, [a])
          else dll_search_loop (size h) h cmp_key key_size head (next n) kb [a]
      | None => None
      end
  | _, _ => Some (None, [])
  end.

Definition dll_search_key (cmp_key : option (list byte → list byte → Z))
    (key_size : Z) (head : ptr) (k : option (list byte)) : M ptr :=
  λ m, match dll_search_key_visit (heap m) cmp_key key_size head k with
       | Some (r, _) => Some (r, m)
       | None => None
       end.

Definition dll_remove (head node : ptr) : M ptr :=
  match head, node with
  | Some _, Some _ =>
      let! n := load node in
      if decide (prev n = node ∧ next n = node) then ret None
      else
        (* at least two nodes *)
        let! n := load node in
        let! _ := set_prev (next n) (prev n) in
        let! n := load node in
        let! _ := set_next (prev n) (next n) in
        if decide (head = node) then
          let! n := load node in ret (next n)
        else ret head
  | _, _ => ret head
  end.

Definition dll_delete (head node : ptr) (free_elt : bool) : M ptr :=
  match head, node with
  | Some _, Some _ =>
      let! n := load node in
      if decide (prev n = node ∧ next n = node) then
        let! _ := call_free_elt free_elt node in
        let! _ := free_node node in
        ret None
      else
        (* at least two nodes *)
        let! _ := call_free_elt free_elt node in
        let! n := load node in
        let! _ := set_prev (next n) (prev n) in
        let! n := load node in
        let! _ := set_next (prev n) (next n) in
        let! n := load node in
        let head := if decide (head = node) then next n else head in
        let! _ := free_node node in
        ret head
  | _, _ => ret head
  end.

(** [dll_append] and [dll_append_new]: the node is prepended and the head
    pointer then moves on to the next node. *)
Definition dll_append (head node : ptr) : M ptr :=
  let! head := dll_prepend head node in
  let! h := load head in
  ret (next h).

Definition dll_append_new (head : ptr) (k e : list byte)
    (key_size elt_size : Z) : M ptr :=
  let! head := dll_prepend_new head k e key_size elt_size in
  let! h := load head in
  ret (next h).

(** The loop [while (node != *head)] of [dll_search_elt]. *)
Fixpoint dll_search_elt_loop (fuel : nat) (h : gmap addr dll_node)
    (cmp_elt : list byte → list byte → Z) (head node : ptr) (e : list byte)
    : option ptr :=
  if decide (node = head) then Some None
  else
    match fuel, node with
    | S fuel', Some a =>
        match h !! a with
        | Some n =>
            if decide (cmp_elt (elt n) e = 0) then Some node
            else dll_search_elt_loop fuel' h cmp_elt head (next n) e
        | None => None
        end
    | _, _ => None
    end.

(** [dll_search_elt]; the block [e] is only handed to [cmp_elt]. *)
Definition dll_search_elt (head : ptr) (e : list byte)
    (cmp_elt : list byte → list byte → Z) : M ptr :=
  λ m, match head with
       | None => Some (None, m)
       | Some a =>
           match heap m !! a with
           | Some n =>
               if decide (cmp_elt (elt n) e = 0) then Some (head, m)
               else
                 match dll_search_elt_loop (size (heap m)) (heap m) cmp_elt
                         head (next n) e with
                 | Some r => Some (r, m)
                 | None => None
                 end
           | None => None
           end
       end.

(** The loop [while (node != *head)] of [dll_free]; the head pointer is
    only compared, the node it points to has been freed. *)
Fixpoint dll_free_loop (fuel : nat) (head node : ptr) (free_elt : bool)
    : M unit :=
  if decide (node = head) then ret tt
  else
    match fuel with
    | O => fail
    | S fuel' =>
        let! n := load node in
        let next_node := next n in
        let! _ := call_free_elt free_elt node in
        let! _ := free_node node in
        dll_free_loop fuel' head next_node free_elt
    end.

Definition dll_free (head : ptr) (free_elt : bool) : M ptr :=
  match head with
  | Some _ =>
      let node := head in
      let! m := get_mem in
      let! n := load node in
      let next_node := next n in
      let! _ := call_free_elt free_elt node in
      let! _ := free_node node in
      let! _ := dll_free_loop (size (heap m)) head next_node free_elt in
      ret None
  | None => ret head
  end.

(** ** ht-divchn.c *)

(** [ht_divchn_t]. The bucket array [key_elts] is held by value; its
    entries are the head pointers of the chains. [free_elt] tells whether
    a callback was supplied. The [dll_t] block [ll], which only carries the
    element alignment, has no counterpart. *)
Record ht_divchn_t : Type := Ht {
  key_size : Z;
  elt_size : Z;
  elt_alignment : Z;
  group_ix : Z;
  count_ix : Z;
  count : Z;
  max_num_elts : Z;
  num_elts : Z;
  alpha_n : Z;
  log_alpha_d : Z;
  key_elts : list ptr;
  cmp_key : option (list byte → list byte → Z);
  rdc_key : option (list byte → Z → Z);
  free_elt : bool
}.

Definition set_ladder (ht : ht_divchn_t) (g c : Z) : ht_divchn_t :=
  Ht (key_size ht) (elt_size ht) (elt_alignment ht) g c (count ht)
     (max_num_elts ht) (num_elts ht) (alpha_n ht) (log_alpha_d ht)
     (key_elts ht) (cmp_key ht) (rdc_key ht) (free_elt ht).

Definition set_count (ht : ht_divchn_t) (c mx : Z) : ht_divchn_t :=
  Ht (key_size ht) (elt_size ht) (elt_alignment ht) (group_ix ht)
     (count_ix ht) c mx (num_elts ht) (alpha_n ht) (log_alpha_d ht)
     (key_elts ht) (cmp_key ht) (rdc_key ht) (free_elt ht).

Definition set_num_elts (ht : ht_divchn_t) (n : Z) : ht_divchn_t :=
  Ht (key_size ht) (elt_size ht) (elt_alignment ht) (group_ix ht)
     (count_ix ht) (count ht) (max_num_elts ht) n (alpha_n ht)
     (log_alpha_d ht) (key_elts ht) (cmp_key ht) (rdc_key ht) (free_elt ht).

Definition set_key_elts (ht : ht_divchn_t) (a : list ptr) : ht_divchn_t :=
  Ht (key_size ht) (elt_size ht) (elt_alignment ht) (group_ix ht)
     (count_ix ht) (count ht) (max_num_elts ht) (num_elts ht) (alpha_n ht)
     (log_alpha_d ht) a (cmp_key ht) (rdc_key ht) (free_elt ht).

Section Table.
Variable sz : Z.

Definition hash (ht : ht_divchn_t) (k : list byte) : Z :=
  convert_std_key sz (rdc_key ht) (key_size ht) k mod count ht.

Definition incr_count (ht : ht_divchn_t) : ht_divchn_t * bool :=
  let ht := set_ladder ht (group_ix ht)
              (wrap sz (count_ix ht + arr C_PARTS_PER_PRIME (group_ix ht))) in
  let ht := if decide (count_ix ht = arr C_PARTS_ACC_COUNTS (group_ix ht))
            then set_ladder ht (wrap sz (group_ix ht + 1)) (count_ix ht)
            else ht in
  if decide (count_ix ht = C_PRIME_PARTS_COUNT) then (ht, false)
  else if is_overflow sz (count_ix ht) (arr C_PARTS_PER_PRIME (group_ix ht))
  then (set_ladder ht (group_ix ht) (C_SIZE_MAX sz), false)
  else
    let c := build_prime sz (count_ix ht)
               (arr C_PARTS_PER_PRIME (group_ix ht)) in
    (* 0 <= max_num_elts <= C_SIZE_MAX *)
    (set_count ht c (mul_alpha_sz_max sz c (alpha_n ht) (log_alpha_d ht)),
     true).

(** The loop [while (cond && incr_count(ht));]. Every round that goes on
    consumes a prime of the ladder, which bounds the rounds. *)
Fixpoint incr_while (fuel : nat) (cond : ht_divchn_t → bool)
    (ht : ht_divchn_t) : option ht_divchn_t :=
  if cond ht then
    match fuel with
    | O => None
    | S fuel' =>
        let '(ht', r) := incr_count ht in
        if r then incr_while fuel' cond ht' else Some ht'
    end
  else Some ht.

Definition ladder_fuel : nat := S (Z.to_nat C_PRIME_PARTS_COUNT).

(** [ht_divchn_init]. The block [ht] is preallocated by the caller and
    comes with whatever it held before; the fields are assigned in the
    order of the source, so [incr_count] reads [alpha_n] and
    [log_alpha_d] of the block as it was handed in. *)
Definition ht_divchn_init (ht : ht_divchn_t) (key_size' elt_size' min_num
    alpha_n' log_alpha_d' : Z)
    (cmp_key' : option (list byte → list byte → Z))
    (rdc_key' : option (list byte → Z → Z)) (free_elt' : bool)
    : M ht_divchn_t :=
  let ht := Ht key_size' elt_size' 1 0 0 (count ht) (max_num_elts ht)
               (num_elts ht) (alpha_n ht) (log_alpha_d ht) (key_elts ht)
               (cmp_key ht) (rdc_key ht) (free_elt ht) in
  let c := build_prime sz (count_ix ht)
             (arr C_PARTS_PER_PRIME (group_ix ht)) in
  (* 0 <= max_num_elts *)
  let ht := set_count ht c (mul_alpha_sz_max sz c alpha_n' log_alpha_d') in
  let! ht := lift (incr_while ladder_fuel
                     (λ ht, bool_decide (min_num > max_num_elts ht)) ht) in
  let ht := set_num_elts ht 0 in
  ret (Ht (key_size ht) (elt_size ht) (elt_alignment ht) (group_ix ht)
          (count_ix ht) (count ht) (max_num_elts ht) (num_elts ht)
          alpha_n' log_alpha_d'
          (replicate (Z.to_nat (count ht)) dll_init)
          cmp_key' rdc_key' free_elt').

Definition ht_divchn_align_elt (ht : ht_divchn_t) (alignment : Z)
    : ht_divchn_t :=
  Ht (key_size ht) (elt_size ht) alignment (group_ix ht) (count_ix ht)
     (count ht) (max_num_elts ht) (num_elts ht) (alpha_n ht)
     (log_alpha_d ht) (key_elts ht) (cmp_key ht) (rdc_key ht) (free_elt ht).

(** [ht->key_elts[ix]] and its assignment; an index outside the array is
    undefined behaviour. *)
Definition bucket (ht : ht_divchn_t) (ix : Z) : M ptr :=
  lift (key_elts ht !! Z.to_nat ix).
Definition set_bucket (ht : ht_divchn_t) (ix : Z) (p : ptr) : ht_divchn_t :=
  set_key_elts ht (<[Z.to_nat ix := p]> (key_elts ht)).

(** The loop [while ( *head != NULL)] of [ht_grow] over one chain of the
    previous array. *)
Fixpoint rethread_chain (fuel : nat) (ht : ht_divchn_t) (head : ptr)
    : M ht_divchn_t :=
  match head with
  | None => ret ht
  | Some _ =>
      match fuel with
      | O => fail
      | S fuel' =>
          let node := head in
          let! head := dll_remove head node in
          let! n := load node in
          let ix := hash ht (key n) in
          let! h := bucket ht ix in
          let! h := dll_prepend h node in
          rethread_chain fuel' (set_bucket ht ix h) head
      end
  end.

(** The loop [for (i = 0; i < prev_count; i++)] of [ht_grow], with [n]
    iterations left. A chain holds at most as many nodes as the heap. *)
Fixpoint rethread (n : nat) (i : Z) (prev_key_elts : list ptr)
    (ht : ht_divchn_t) : M ht_divchn_t :=
  match n with
  | O => ret ht
  | S n' =>
      let! head := lift (prev_key_elts !! Z.to_nat i) in
      let! m := get_mem in
      let! ht := rethread_chain (size (heap m)) ht head in
      rethread n' (i + 1) prev_key_elts ht
  end.

Definition ht_grow (ht : ht_divchn_t) : M ht_divchn_t :=
  let prev_count := count ht in
  let prev_key_elts := key_elts ht in
  let! ht := lift (incr_while ladder_fuel
                     (λ ht, bool_decide (num_elts ht > max_num_elts ht))
                     ht) in
  if decide (prev_count = count ht) then ret ht (* load factor not lowered *)
  else
    let ht := set_key_elts ht (replicate (Z.to_nat (count ht)) dll_init) in
    rethread (Z.to_nat prev_count) 0 prev_key_elts ht.

Definition ht_divchn_insert (ht : ht_divchn_t) (k e : list byte)
    : M ht_divchn_t :=
  let ix := hash ht k in
  let! head := bucket ht ix in
  let! node := dll_search_key (cmp_key ht) (key_size ht) head (Some k) in
  let! ht :=
    match node with
    | None =>
        let! head := dll_prepend_new head k e (key_size ht) (elt_size ht) in
        ret (set_num_elts (set_bucket ht ix head) (wrap sz (num_elts ht + 1)))
    | Some _ =>
        let! _ := call_free_elt (free_elt ht) node in
        let! n := load node in
        let! _ := set_elt node (memcpy (elt n) e (elt_size ht)) in
        ret ht
    end in
  (* grow ht after ensuring it was insertion, not update *)
  if decide (num_elts ht > max_num_elts ht ∧
             count_ix ht ≠ C_SIZE_MAX sz ∧
             count_ix ht ≠ C_PRIME_PARTS_COUNT)
  then ht_grow ht
  else ret ht.

(** [ht_divchn_search] returns a pointer into the node; the model returns
    the bytes of the element region it points to. *)
Definition ht_divchn_search (ht : ht_divchn_t) (k : list byte)
    : M (option (list byte)) :=
  let! head := bucket ht (hash ht k) in
  let! node := dll_search_key (cmp_key ht) (key_size ht) head (Some k) in
  match node with
  | None => ret None
  | Some _ => let! n := load node in ret (Some (elt n))
  end.

(** [ht_divchn_remove]; the block [elt] of the caller is passed in and
    its contents after the call are returned with the table. *)
Definition ht_divchn_remove (ht : ht_divchn_t) (k : list byte)
    (out : list byte) : M (ht_divchn_t * list byte) :=
  let ix := hash ht k in
  let! head := bucket ht ix in
  let! node := dll_search_key (cmp_key ht) (key_size ht) head (Some k) in
  match node with
  | Some _ =>
      let! n := load node in
      let out := memcpy out (elt n) (elt_size ht) in
      (* if an element is noncontiguous, only the pointer to it is deleted *)
      let! head := dll_delete head node false in
      ret (set_num_elts (set_bucket ht ix head) (wrap sz (num_elts ht - 1)),
           out)
  | None => ret (ht, out)
  end.

Definition ht_divchn_delete (ht : ht_divchn_t) (k : list byte)
    : M ht_divchn_t :=
  let ix := hash ht k in
  let! head := bucket ht ix in
  let! node := dll_search_key (cmp_key ht) (key_size ht) head (Some k) in
  match node with
  | Some _ =>
      let! head := dll_delete head node (free_elt ht) in
      ret (set_num_elts (set_bucket ht ix head) (wrap sz (num_elts ht - 1)))
  | None => ret ht
  end.
End Table.

(** The loop [for (i = 0; i < ht->count; i++)] of [ht_divchn_free], with
    [n] iterations left. *)
Fixpoint free_chains (n : nat) (i : Z) (ht : ht_divchn_t) : M ht_divchn_t :=
  match n with
  | O => ret ht
  | S n' =>
      let! head := bucket ht i in
      let! head := dll_free head (free_elt ht) in
      free_chains n' (i + 1) (set_bucket ht i head)
  end.

(** [ht_divchn_free]; the bucket array is freed and [key_elts] set to
    [NULL]: no entry is left. *)
Definition ht_divchn_free (ht : ht_divchn_t) : M ht_divchn_t :=
  let! ht := free_chains (Z.to_nat (count ht)) 0 ht in
  ret (set_key_elts ht []).

(** ** Specification-side definitions *)

(** The positions [(count_ix, group_ix)] of the ladder, obtained with the
    index arithmetic of [incr_count] from the position [(0, 0)] that
    [ht_divchn_init] starts at. *)
Definition ladder_step (p : Z * Z) : Z * Z :=
  let c := p.1 + arr C_PARTS_PER_PRIME p.2 in
  (c, if decide (c = arr C_PARTS_ACC_COUNTS p.2) then p.2 + 1 else p.2).

Fixpoint ladder_from (n : nat) (p : Z * Z) : list (Z * Z) :=
  match n with
  | O => []
  | S n' => p :: ladder_from n' (ladder_step p)
  end.

Definition ladder : list (Z * Z) := ladder_from (length documented_primes) (0, 0).

(** The 16-bit parts of a prime OR-ed, respectively summed, at the shifts
    [0, 16, 32, 48], as unbounded integers. *)
Fixpoint or_parts (n : nat) (start i : Z) : Z :=
  match n with
  | O => 0
  | S n' => Z.lor (Z.shiftl (arr C_PRIME_PARTS (start + i)) (i * 16))
                  (or_parts n' start (i + 1))
  end.

Fixpoint sum_parts (n : nat) (start i : Z) : Z :=
  match n with
  | O => 0
  | S n' => arr C_PRIME_PARTS (start + i) * 2 ^ (i * 16)
            + sum_parts n' start (i + 1)
  end.

(** A block of bytes read as a little-endian integer. *)
Fixpoint le_int (l : list byte) : Z :=
  match l with
  | [] => 0
  | b :: l' => byte_val b + 256 * le_int l'
  end.

(** The sum of the bytes of a block, the byte at position [i] shifted left
    by [i * 8 mod C_FULL_BIT]; [i] is the position of the first byte. *)
Fixpoint shifted_sum (sz : Z) (i : Z) (l : list byte) : Z :=
  match l with
  | [] => 0
  | b :: l' => Z.shiftl (byte_val b) ((i * 8) mod C_FULL_BIT sz)
               + shifted_sum sz (i + 1) l'
  end.

(** The sum of [n] successive groups of [sz] bytes, each read as a
    little-endian integer. *)
Fixpoint word_sum (sz : Z) (n : nat) (k : list byte) : Z :=
  match n with
  | O => 0
  | S n' => le_int (take (Z.to_nat sz) k) + word_sum sz n' (drop (Z.to_nat sz) k)
  end.

(** ** Rings of nodes *)

(** The nodes [l] are linked in this order through [next] and back through
    [prev]; the [prev] of the first is [pv], the [next] of the last is
    [nx]. *)
Fixpoint dseg (h : gmap addr dll_node) (pv : addr) (l : list addr)
    (nx : addr) : Prop :=
  match l with
  | [] => True
  | a :: l' =>
      ∃ n, h !! a = Some n ∧ prev n = Some pv ∧
           next n = Some (default nx (head l')) ∧ dseg h a l' nx
  end.

(** [l] lists, from any of its nodes on and without repetition, a circular
    list: the last node links to the first and back. *)
Definition ring (h : gmap addr dll_node) (l : list addr) : Prop :=
  NoDup l ∧
  match l with
  | [] => True
  | a :: _ => dseg h (default a (last l)) l a
  end.

(** The head pointer [p] roots the ring [l]: null for the empty list. *)
Definition chain (h : gmap addr dll_node) (p : ptr) (l : list addr) : Prop :=
  p = head l ∧ ring h l.

(** The scan of the nodes [l] in order for the first one whose key equals
    [k]: that node, if any, and the nodes looked at. *)
Fixpoint scan (h : gmap addr dll_node)
    (cmp_key : option (list byte → list byte → Z)) (key_size : Z)
    (l : list addr) (k : list byte) : ptr * list addr :=
  match l with
  | [] => (None, [])
  | a :: l' =>
      match h !! a with
      | Some n =>
          if key_equal cmp_key key_size (key n) k then (Some a, [a])
          else let '(r, v) := scan h cmp_key key_size l' k in (r, a :: v)
      | None => (None, [])
      end
  end.

(** The key and element bytes of the node at [a]. *)
Definition node_data (h : gmap addr dll_node) (a : addr)
    : option (list byte * list byte) :=
  (λ n, (key n, elt n)) <$> h !! a.

(** Every allocated address is below the next fresh one. *)
Definition heap_bound (m : mem) : Prop :=
  ∀ a, is_Some (heap m !! a) → (a < brk m)%positive.

(** The element regions of the nodes [l], in order. *)
Definition elts_of (h : gmap addr dll_node) (l : list addr)
    : list (list byte) :=
  omap (λ a, elt <$> h !! a) l.

(** The scan of the nodes [l] in order for the first one whose element
    [cmp_elt] finds equal to [e]. *)
Fixpoint scan_elt (h : gmap addr dll_node)
    (cmp_elt : list byte → list byte → Z) (l : list addr) (e : list byte)
    : ptr :=
  match l with
  | [] => None
  | a :: l' =>
      match h !! a with
      | Some n =>
          if decide (cmp_elt (elt n) e = 0) then Some a
          else scan_elt h cmp_elt l' e
      | None => None
      end
  end.

(** ** Invariants of the table *)

(** The table stands on the [i]-th rung of the ladder: the rung is
    representable on the host and [count] is its prime. *)
Definition at_rung (sz : Z) (ht : ht_divchn_t) (i : nat) : Prop :=
  ladder !! i = Some (count_ix ht, group_ix ht) ∧
  is_overflow sz (count_ix ht) (arr C_PARTS_PER_PRIME (group_ix ht)) = false ∧
  count ht = build_prime sz (count_ix ht) (arr C_PARTS_PER_PRIME (group_ix ht)).

(** [c] is a prime of the ladder that is representable on the host. *)
Definition ladder_prime (sz : Z) (c : Z) : Prop :=
  ∃ i start g,
    ladder !! i = Some (start, g) ∧
    is_overflow sz start (arr C_PARTS_PER_PRIME g) = false ∧
    c = build_prime sz start (arr C_PARTS_PER_PRIME g).

(** The ladder cannot be advanced further: saturated on this host, or
    exhausted. *)
Definition ladder_end (sz : Z) (ht : ht_divchn_t) : Prop :=
  count_ix ht = C_SIZE_MAX sz ∨ count_ix ht = C_PRIME_PARTS_COUNT.

Definition ladder_ok (sz : Z) (ht : ht_divchn_t) : Prop :=
  (∃ i, at_rung sz ht i) ∨ (ladder_end sz ht ∧ ladder_prime sz (count ht)).

(** Invariant 5: a load above the bound is only met at the end of the
    ladder. *)
Definition load_inv (sz : Z) (ht : ht_divchn_t) : Prop :=
  num_elts ht > max_num_elts ht → ladder_end sz ht.

(** [ht'] is [ht] up to the fields [incr_count] assigns. *)
Definition ladder_moved (ht ht' : ht_divchn_t) : Prop :=
  ht' = set_count (set_ladder ht (group_ix ht') (count_ix ht'))
          (count ht') (max_num_elts ht').

(** ** The chains of a table *)

(** The table is described by the list [chs] of its chains, one per
    bucket, each the list of the nodes of the ring its head pointer roots. *)
Definition in_chains (chs : list (list addr)) (a : addr) : Prop :=
  ∃ i l, chs !! i = Some l ∧ a ∈ l.

Definition disjoint_chains (chs : list (list addr)) : Prop :=
  ∀ i j li lj b,
    chs !! i = Some li → chs !! j = Some lj → b ∈ li → b ∈ lj → i = j.

(** The number of nodes of the table. *)
Definition node_count (chs : list (list addr)) : nat := length (concat chs).

(** The bucket array has [count] entries, entry [i] roots the ring of the
    nodes [chs !! i], and no node is on two rings. *)
Definition tbl_repr (ht : ht_divchn_t) (m : mem) (chs : list (list addr))
    : Prop :=
  0 < count ht ∧
  length (key_elts ht) = Z.to_nat (count ht) ∧
  Forall2 (chain (heap m)) (key_elts ht) chs ∧
  disjoint_chains chs ∧
  heap_bound m.

(** Invariant 2: every node is on the chain of the bucket its key hashes
    to. *)
Definition hash_inv (sz : Z) (ht : ht_divchn_t) (m : mem)
    (chs : list (list addr)) : Prop :=
  ∀ i l a n, chs !! i = Some l → a ∈ l → heap m !! a = Some n →
             hash sz ht (key n) = Z.of_nat i.

(** Invariant 3: [num_elts] counts the nodes. *)
Definition card_inv (sz : Z) (ht : ht_divchn_t) (chs : list (list addr))
    : Prop :=
  num_elts ht = Z.of_nat (node_count chs) ∧
  num_elts ht < 2 ^ C_FULL_BIT sz.

(** The key and element regions of the nodes have the sizes of the table. *)
Definition data_sized (ht : ht_divchn_t) (m : mem) (chs : list (list addr))
    : Prop :=
  ∀ a n, in_chains chs a → heap m !! a = Some n →
         Z.of_nat (length (key n)) = key_size ht ∧
         Z.of_nat (length (elt n)) = elt_size ht.

(** What the table asks of its callbacks, on blocks of [key_size] bytes: a
    key equals itself, and equal keys are reduced to the same word. The
    default comparison and any reduction of the bytes meet it. *)
Definition key_contract (sz : Z) (ht : ht_divchn_t) : Prop :=
  (∀ k, Z.of_nat (length k) = key_size ht →
        key_equal (cmp_key ht) (key_size ht) k k = true) ∧
  (∀ a b, Z.of_nat (length a) = key_size ht →
          Z.of_nat (length b) = key_size ht →
          key_equal (cmp_key ht) (key_size ht) a b = true →
          convert_std_key sz (rdc_key ht) (key_size ht) a =
          convert_std_key sz (rdc_key ht) (key_size ht) b).

(** A well-formed table. *)
Record wf (sz : Z) (ht : ht_divchn_t) (m : mem) (chs : list (list addr))
    : Prop := Wf {
  wf_repr : tbl_repr ht m chs;
  wf_hash : hash_inv sz ht m chs;
  wf_ladder : ladder_ok sz ht;
  wf_load : load_inv sz ht;
  wf_card : card_inv sz ht chs;
  wf_sized : data_sized ht m chs;
  wf_contract : key_contract sz ht
}.

(** No node of the table has a key equal to [k]. *)
Definition absent (ht : ht_divchn_t) (m : mem) (chs : list (list addr))
    (k : list byte) : Prop :=
  ∀ a n, in_chains chs a → heap m !! a = Some n →
         key_equal (cmp_key ht) (key_size ht) (key n) k = false.

(** The fields an operation on the keys leaves alone. *)
Definition same_params (ht ht' : ht_divchn_t) : Prop :=
  key_size ht' = key_size ht ∧ elt_size ht' = elt_size ht ∧
  elt_alignment ht' = elt_alignment ht ∧
  alpha_n ht' = alpha_n ht ∧ log_alpha_d ht' = log_alpha_d ht ∧
  cmp_key ht' = cmp_key ht ∧ rdc_key ht' = rdc_key ht ∧
  free_elt ht' = free_elt ht.

(** ** Finite maps and clients *)

(** No two nodes of the table hold the same key. *)
Definition keys_unique (m : mem) (chs : list (list addr)) : Prop :=
  ∀ a b na nb, in_chains chs a → in_chains chs b →
    heap m !! a = Some na → heap m !! b = Some nb → key na = key nb → a = b.

(** The table holds the element [e] under the key [k]. *)
Definition holds (m : mem) (chs : list (list addr)) (k e : list byte)
    : Prop :=
  ∃ a n, in_chains chs a ∧ heap m !! a = Some n ∧ key n = k ∧ elt n = e.

(** A well-formed table whose keys are compared with [memcmp] and are
    pairwise different. *)
Definition wf_map (sz : Z) (ht : ht_divchn_t) (m : mem)
    (chs : list (list addr)) : Prop :=
  wf sz ht m chs ∧ cmp_key ht = None ∧ keys_unique m chs.

(** A client of the table: a sequence of insertions, removals and
    deletions, and the finite map from keys to elements that the sequence
    describes. The removals hand in a block of [elt_size] bytes and drop
    it afterwards. *)
Inductive op : Type :=
  | OpInsert (k e : list byte)
  | OpRemove (k : list byte)
  | OpDelete (k : list byte).

Definition run_op (sz : Z) (ht : ht_divchn_t) (o : op) : M ht_divchn_t :=
  match o with
  | OpInsert k e => ht_divchn_insert sz ht k e
  | OpRemove k =>
      let! r := ht_divchn_remove sz ht k (zero_block (elt_size ht)) in
      ret r.1
  | OpDelete k => ht_divchn_delete sz ht k
  end.

Fixpoint run_ops (sz : Z) (ht : ht_divchn_t) (os : list op) : M ht_divchn_t :=
  match os with
  | [] => ret ht
  | o :: os' => let! ht := run_op sz ht o in run_ops sz ht os'
  end.





(** ** Example states *)

(** A ring of three nodes, rooted at node 3. *)
Definition ring3 : mem :=
  Mem (<[3%positive := Node [x0f; x0c] [x0c] (Some 2%positive) (Some 1%positive)]>
      (<[2%positive := Node [x08; x06] [x0d] (Some 1%positive) (Some 3%positive)]>
      (<[1%positive := Node [x01; x00] [x0a] (Some 3%positive) (Some 2%positive)]> ∅)))
      4%positive [].

(** A block as a caller hands it to [ht_divchn_init]: here it still holds
    the load factor bound 1 / 2^0 of an earlier use. *)
Definition blk1 : ht_divchn_t := Ht 0 0 0 0 0 0 0 0 1 0 [] None None false.

(** The memory before any node is allocated. *)
Definition mem0 : mem := Mem ∅ 1%positive [].

(** The table [ht_divchn_init] makes on a 64-bit host for keys of 2 bytes,
    elements of 1 byte and the load factor bound 3 / 2^3, and the table
    after the insertion of the key [01 02] with the element [03]. *)
Definition table0 : ht_divchn_t :=
  Ht 2 1 1 0 0 1543 578 0 3 3 (replicate 1543 None) None None true.

Definition table1 : ht_divchn_t :=
  Ht 2 1 1 0 0 1543 578 1 3 3
     (<[513%nat := Some 1%positive]> (replicate 1543 None)) None None true.

Definition mem1 : mem :=
  Mem {[ 1%positive := Node [x01; x02] [x03] (Some 1%positive) (Some 1%positive) ]}
      2%positive [].

(** The ring of [ring3] with a fourth node, allocated and not yet linked. *)
Definition ring3x : mem :=
  Mem (<[4%positive := Node [x08; x06] [x0e] None None]> (heap ring3))
      5%positive [].


(** * Properties *)

Ltac solve_nodup :=
  repeat (apply NoDup_cons_2;
          [let H := fresh in
           intros H;
           repeat (apply elem_of_cons in H as [H|H]; [discriminate H|]);
           by apply elem_of_nil in H|]);
  apply NoDup_nil_2.


(** ** Words *)

Lemma full_bit_pos sz : 2 ≤ sz → 16 ≤ C_FULL_BIT sz.
Proof. unfold C_FULL_BIT, CHAR_BIT. lia. Qed.

Lemma pow_full_bit_pos sz : 0 ≤ sz → 0 < 2 ^ C_FULL_BIT sz.
Proof. intros. apply Z.pow_pos_nonneg; unfold C_FULL_BIT, CHAR_BIT; lia. Qed.

Lemma wrap_range sz x : 0 ≤ sz → 0 ≤ wrap sz x < 2 ^ C_FULL_BIT sz.
Proof. intros. apply Z.mod_pos_bound. by apply pow_full_bit_pos. Qed.

Lemma wrap_small sz x : 0 ≤ x < 2 ^ C_FULL_BIT sz → wrap sz x = x.
Proof. intros. by apply Z.mod_small. Qed.

Lemma size_max_eq sz : 0 ≤ sz → C_SIZE_MAX sz = 2 ^ C_FULL_BIT sz - 1.
Proof.
  intros Hsz. unfold C_SIZE_MAX, wrap.
  pose proof (pow_full_bit_pos sz Hsz).
  symmetry. apply (Z.mod_unique _ _ (-1)); lia.
Qed.

Lemma pow_full_bit_ge sz : 2 ≤ sz → 2 ^ 16 ≤ 2 ^ C_FULL_BIT sz.
Proof. intros. apply Z.pow_le_mono_r; [lia | by apply full_bit_pos]. Qed.

Lemma wrap_small16 sz x : 2 ≤ sz → 0 ≤ x < 2 ^ 16 → wrap sz x = x.
Proof. intros Hsz Hx. apply wrap_small. pose proof (pow_full_bit_ge sz Hsz). lia. Qed.

(** ** The prime ladder *)

Lemma parts_bound i : 0 ≤ arr C_PRIME_PARTS i < 2 ^ 16.
Proof.
  unfold arr. destruct (C_PRIME_PARTS !! Z.to_nat i) as [x|] eqn:E; simpl; [|lia].
  assert (Forall (λ x, 0 ≤ x < 2 ^ 16) C_PRIME_PARTS) as HF.
  { apply Forall_forall. intros y Hy.
    assert (forallb (λ x, (0 <=? x) && (x <? 2 ^ 16)) C_PRIME_PARTS = true)
      as Hb by (vm_compute; reflexivity).
    rewrite forallb_forall in Hb. apply list_elem_of_In in Hy.
    specialize (Hb y Hy). lia. }
  rewrite Forall_lookup in HF. by apply (HF _ _ E).
Qed.

Lemma count_bits_spec fuel x c :
  0 ≤ x < 2 ^ Z.of_nat fuel →
  let r := count_bits fuel x c in c ≤ r ≤ c + Z.of_nat fuel ∧ x < 2 ^ (r - c).
Proof.
  revert x c. induction fuel as [|fuel IH]; intros x c Hx; simpl.
  - replace (c - c) with 0 by lia. simpl in Hx. lia.
  - case_decide as Hz.
    + replace (c - c) with 0 by lia. subst x. simpl. lia.
    + unfold shr. rewrite Z.shiftr_div_pow2 by lia. change (2 ^ 1) with 2.
      assert (0 ≤ x / 2 < 2 ^ Z.of_nat fuel) as Hx'.
      { split; [apply Z.div_pos; lia|].
        apply Z.div_lt_upper_bound; [lia|].
        replace (Z.of_nat (S fuel)) with (1 + Z.of_nat fuel) in Hx by lia.
        rewrite Z.pow_add_r in Hx by lia. lia. }
      destruct (IH (x / 2) (c + 1) Hx') as [Hr Hlt].
      split; [lia|].
      set (r := count_bits fuel (x / 2) (c + 1)) in *.
      replace (r - c) with (1 + (r - (c + 1))) by lia.
      rewrite Z.pow_add_r by lia. change (2 ^ 1) with 2.
      pose proof (Z.div_mod x 2 ltac:(lia)).
      pose proof (Z.mod_pos_bound x 2 ltac:(lia)). lia.
Qed.
Lemma count_bits_ge fuel x c : c ≤ count_bits fuel x c.
Proof.
  revert x c. induction fuel as [|fuel IH]; intros x c; simpl; [lia|].
  case_decide; [lia|]. specialize (IH (shr x 1) (c + 1)). lia.
Qed.

Lemma count_bits_low fuel x c :
  0 ≤ x →
  let r := count_bits fuel x c in r = c ∨ 2 ^ (r - c - 1) ≤ x.
Proof.
  revert x c. induction fuel as [|fuel IH]; intros x c Hx; simpl; [by left|].
  case_decide as Hz; [by left|]. right.
  unfold shr. rewrite Z.shiftr_div_pow2 by lia. change (2 ^ 1) with 2.
  assert (0 ≤ x / 2) as Hx' by (apply Z.div_pos; lia).
  destruct (IH (x / 2) (c + 1) Hx') as [Hr | Hr].
  - rewrite Hr. replace (c + 1 - c - 1) with 0 by lia. simpl. lia.
  - set (r := count_bits fuel (x / 2) (c + 1)) in *.
    assert (c + 1 ≤ r) as Hle by apply count_bits_ge.
    destruct (decide (r = c + 1)) as [->|Hne].
    + replace (c + 1 - c - 1) with 0 by lia. simpl. lia.
    + replace (r - c - 1) with (1 + (r - (c + 1) - 1)) by lia.
      rewrite Z.pow_add_r by lia. change (2 ^ 1) with 2.
      pose proof (Z.div_mod x 2 ltac:(lia)).
      pose proof (Z.mod_pos_bound x 2 ltac:(lia)). lia.
Qed.

Lemma count_bits_16 sz x :
  2 ≤ sz → 0 ≤ x < 2 ^ 16 →
  let c := count_bits (Z.to_nat (C_FULL_BIT sz)) x 0 in
  0 ≤ c ≤ 16 ∧ x < 2 ^ c.
Proof.
  intros Hsz Hx c.
  pose proof (pow_full_bit_ge sz Hsz) as Hp.
  pose proof (full_bit_pos sz Hsz) as Hf.
  destruct (count_bits_spec (Z.to_nat (C_FULL_BIT sz)) x 0) as [Hr Hlt].
  { rewrite Z2Nat.id by lia. lia. }
  fold c in Hr, Hlt. rewrite Z.sub_0_r in Hlt.
  split; [|done]. split; [lia|].
  destruct (count_bits_low (Z.to_nat (C_FULL_BIT sz)) x 0) as [Hc | Hc]; [lia| |].
  - fold c in Hc. lia.
  - fold c in Hc. rewrite Z.sub_0_r in Hc.
    destruct (Z.le_gt_cases c 16) as [|Hgt]; [done|].
    assert (2 ^ 16 ≤ 2 ^ (c - 1)) by (apply Z.pow_le_mono_r; lia). lia.
Qed.

Lemma shiftl_part_bound x i b :
  0 ≤ x < 2 ^ b → 0 ≤ b → 0 ≤ i → 0 ≤ Z.shiftl x i < 2 ^ (b + i).
Proof.
  intros Hx Hb Hi. rewrite Z.shiftl_mul_pow2 by lia.
  rewrite Z.pow_add_r by lia.
  assert (0 < 2 ^ i) by (apply Z.pow_pos_nonneg; lia). nia.
Qed.

Lemma build_prime_loop_or sz n start i p :
  2 ≤ sz → 0 ≤ start → 0 ≤ i → start + i + Z.of_nat n ≤ 1000 →
  (∀ j, i ≤ j < i + Z.of_nat n →
        Z.shiftl (arr C_PRIME_PARTS (start + j)) (j * 16) < 2 ^ C_FULL_BIT sz) →
  build_prime_loop sz n start i p = Z.lor p (or_parts n start i).
Proof.
  intros Hsz Hs. revert i p. induction n as [|n IH]; intros i p Hi Hn Hb; simpl.
  - by rewrite Z.lor_0_r.
  - rewrite IH; [| lia | lia | intros j Hj; apply Hb; lia].
    rewrite <- Z.lor_assoc. f_equal. f_equal.
    unfold shl, C_BUILD_SHIFT.
    rewrite (wrap_small16 sz (start + i)), (wrap_small16 sz (i * 16))
      by (done || lia).
    apply wrap_small. split; [|apply Hb; lia].
    apply Z.shiftl_nonneg. apply parts_bound.
Qed.

Lemma no_overflow_fits sz start cnt :
  2 ≤ sz → 0 ≤ start ≤ 200 → 1 ≤ cnt ≤ 4 →
  is_overflow sz start cnt = false →
  ∀ j, 0 ≤ j < cnt →
       Z.shiftl (arr C_PRIME_PARTS (start + j)) (j * 16) < 2 ^ C_FULL_BIT sz.
Proof.
  intros Hsz Hs Hc Hov j Hj.
  unfold is_overflow in Hov. apply bool_decide_eq_false in Hov.
  rewrite !(wrap_small16 sz (cnt - 1)) in Hov by (try done; lia).
  rewrite (wrap_small16 sz ((cnt - 1) * C_BUILD_SHIFT)) in Hov
    by (try done; unfold C_BUILD_SHIFT; lia).
  rewrite (wrap_small16 sz (start + (cnt - 1))) in Hov by (try done; lia).
  pose proof (parts_bound (start + (cnt - 1))) as Htop.
  destruct (count_bits_16 sz _ Hsz Htop) as [Hc16 Hlt].
  set (c := count_bits _ _ 0) in *.
  rewrite wrap_small16 in Hov by (try done; unfold C_BUILD_SHIFT; lia).
  unfold C_BUILD_SHIFT in Hov.
  assert (c + (cnt - 1) * 16 ≤ C_FULL_BIT sz) as Hfit by lia.
  destruct (decide (j = cnt - 1)) as [->|Hne].
  - eapply Z.lt_le_trans; [apply (shiftl_part_bound _ _ c); lia|].
    apply Z.pow_le_mono_r; lia.
  - pose proof (parts_bound (start + j)).
    eapply Z.lt_le_trans; [apply (shiftl_part_bound _ _ 16); lia|].
    apply Z.pow_le_mono_r; lia.
Qed.

Lemma build_prime_or sz start cnt :
  2 ≤ sz → 0 ≤ start ≤ 200 → 1 ≤ cnt ≤ 4 →
  is_overflow sz start cnt = false →
  build_prime sz start cnt = or_parts (Z.to_nat cnt) start 0.
Proof.
  intros Hsz Hs Hc Hov. unfold build_prime.
  rewrite build_prime_loop_or; try lia.
  - apply Z.lor_0_l.
  - intros j Hj. apply (no_overflow_fits sz start cnt); try done. lia.
Qed.

Lemma ladder_values :
  Forall2 (λ p d, let cnt := arr C_PARTS_PER_PRIME p.2 in
                  0 ≤ p.1 ≤ 200 ∧ 1 ≤ cnt ≤ 4 ∧
                  or_parts (Z.to_nat cnt) p.1 0 = d ∧
                  sum_parts (Z.to_nat cnt) p.1 0 = d)
          ladder documented_primes.
Proof.
  let l := eval vm_compute in ladder in change ladder with l.
  unfold documented_primes.
  repeat (constructor; [vm_compute; repeat split; congruence|]).
  constructor.
Qed.

Lemma first_prime_fits sz : 2 ≤ sz → is_overflow sz 0 1 = false.
Proof.
  intros Hsz. unfold is_overflow. apply bool_decide_eq_false.
  change (1 - 1) with 0. rewrite !(wrap_small16 sz 0) by (done || lia).
  change (0 * C_BUILD_SHIFT) with 0. rewrite !(wrap_small16 sz 0) by (done || lia).
  pose proof (parts_bound (0 + 0)) as Htop.
  destruct (count_bits_16 sz _ Hsz Htop) as [Hc16 Hlt].
  set (c := count_bits _ _ 0) in *.
  rewrite Z.add_0_r, wrap_small16 by (done || lia).
  pose proof (full_bit_pos sz Hsz). lia.
Qed.

(** C9. On a host whose [size_t] has [sz >= 2] bytes, the prime rebuilt by
    [build_prime] at a ladder position that does not overflow the word is
    the OR of its 16-bit parts at the shifts 0, 16, 32, 48, which is also
    their sum and the value the table documents; the first position is
    valid on every such host and its prime is 1543. *)
Theorem ladder_primes_rebuilt sz i start g :
  2 ≤ sz →
  ladder !! i = Some (start, g) →
  is_overflow sz start (arr C_PARTS_PER_PRIME g) = false →
  let cnt := arr C_PARTS_PER_PRIME g in
  build_prime sz start cnt = or_parts (Z.to_nat cnt) start 0 ∧
  build_prime sz start cnt = sum_parts (Z.to_nat cnt) start 0 ∧
  documented_primes !! i = Some (build_prime sz start cnt) ∧
  ladder !! 0%nat = Some (0, 0) ∧
  is_overflow sz 0 (arr C_PARTS_PER_PRIME 0) = false ∧
  build_prime sz 0 (arr C_PARTS_PER_PRIME 0) = 1543.
Proof.
  intros Hsz Hi Hov cnt.
  destruct (Forall2_lookup_l _ _ _ _ _ ladder_values Hi) as (d & Hd & Hv).
  simpl in Hv. destruct Hv as (Hs & Hc & Hor & Hsum).
  fold cnt in Hc, Hor, Hsum.
  rewrite (build_prime_or sz start cnt) by done.
  rewrite Hor, Hsum, Hd. repeat split; try done.
  - by apply first_prime_fits.
  - change (arr C_PARTS_PER_PRIME 0) with 1.
    rewrite build_prime_or by (lia || by apply first_prime_fits).
    reflexivity.
Qed.

Lemma ladder_primes_rebuilt_witness :
  build_prime 8 146 4 = or_parts 4 146 0 ∧
  build_prime 8 146 4 = sum_parts 4 146 0 ∧
  documented_primes !! 53%nat = Some (build_prime 8 146 4) ∧
  ladder !! 0%nat = Some (0, 0) ∧
  is_overflow 8 0 1 = false ∧
  build_prime 8 0 1 = 1543.
Proof.
  apply (ladder_primes_rebuilt 8 53%nat 146 3); [lia | reflexivity | reflexivity].
Defined.
(** ** The load factor bound *)

Lemma shr_nonzero_testbit h d :
  0 ≤ h → 0 ≤ d → (shr h d ≠ 0 ↔ ∃ i, d ≤ i ∧ Z.testbit h i = true).
Proof.
  intros Hh Hd. unfold shr. split.
  - intros Hne.
    assert (0 < Z.shiftr h d) as Hpos.
    { pose proof (proj2 (Z.shiftr_nonneg h d) Hh). lia. }
    exists (Z.log2 (Z.shiftr h d) + d). split; [pose proof (Z.log2_nonneg (Z.shiftr h d)); lia|].
    rewrite <- Z.shiftr_spec by apply Z.log2_nonneg.
    by apply Z.bit_log2.
  - intros (i & Hi & Hb) Hz.
    assert (Z.testbit (Z.shiftr h d) (i - d) = true) as Hb'.
    { rewrite Z.shiftr_spec by lia. by replace (i - d + d) with i by lia. }
    rewrite Hz, Z.bits_0 in Hb'. done.
Qed.

Lemma mul_alpha_sz_max_cases sz n a d :
  0 ≤ sz → 0 ≤ n < 2 ^ C_FULL_BIT sz → 0 ≤ a < 2 ^ C_FULL_BIT sz →
  0 ≤ d < C_FULL_BIT sz →
  let h := (mul_ext sz n a).1 in
  (shr h d = 0 ↔ n * a / 2 ^ d < 2 ^ C_FULL_BIT sz) ∧
  mul_alpha_sz_max sz n a d =
    if decide (shr h d = 0) then n * a / 2 ^ d else C_SIZE_MAX sz.
Proof.
  intros Hsz Hn Ha Hd. unfold mul_alpha_sz_max, mul_ext. cbn [fst].
  set (W := C_FULL_BIT sz) in *. set (B := 2 ^ W).
  assert (0 < B) as HB by (apply Z.pow_pos_nonneg; lia).
  set (P := n * a).
  assert (0 ≤ P < B * B) as HP by (unfold P; nia).
  assert (0 ≤ P / B < B) as Hh.
  { split; [apply Z.div_pos; lia|]. apply Z.div_lt_upper_bound; lia. }
  assert (wrap sz (P / B) = P / B) as -> by (apply wrap_small; fold W B; lia).
  set (h := P / B) in *.
  assert (0 ≤ wrap sz P < B) as Hl by (apply Z.mod_pos_bound; done).
  assert (P = B * h + wrap sz P) as HPeq by (apply Z.div_mod; lia).
  set (l := wrap sz P) in *.
  set (D := 2 ^ d). set (E := 2 ^ (W - d)).
  assert (0 < D) as HD by (apply Z.pow_pos_nonneg; lia).
  assert (0 < E) as HE by (apply Z.pow_pos_nonneg; lia).
  assert (B = E * D) as HBED.
  { unfold B, D, E. rewrite <- Z.pow_add_r by lia. f_equal. lia. }
  assert (shr h d = h / D) as Hshr by (unfold shr; apply Z.shiftr_div_pow2; lia).
  assert (P / D = h * E + l / D) as Hfloor.
  { rewrite HPeq, HBED. replace (E * D * h + l) with (h * E * D + l) by lia.
    rewrite Z.div_add_l by lia. done. }
  assert (0 ≤ l / D < E) as HlD.
  { split; [apply Z.div_pos; lia|]. apply Z.div_lt_upper_bound; lia. }
  assert (h / D = 0 ↔ h < D) as Hsmall.
  { split; intros Hx.
    - pose proof (Z.div_mod h D ltac:(lia)). pose proof (Z.mod_pos_bound h D HD). lia.
    - apply Z.div_small; lia. }
  split.
  - rewrite Hshr, Hsmall, Hfloor. split; intros Hx; [nia|].
    destruct (Z.lt_ge_cases h D) as [|Hge]; [done|]. nia.
  - rewrite Hshr. case_decide as Hz; [|done].
    apply Hsmall in Hz. unfold shl.
    rewrite Z.shiftl_mul_pow2 by lia. fold E.
    rewrite (wrap_small sz (h * E)) by (fold W B; nia).
    unfold shr at 1. rewrite Z.shiftr_div_pow2 by lia. fold D.
    rewrite wrap_small by (fold W B; nia). lia.
Qed.

(** C2 (as amended). For a word [n], [alpha_n >= 1] and [0 <= log_alpha_d <
    C_FULL_BIT], [mul_alpha_sz_max] returns [floor(n * alpha_n / 2 ^
    log_alpha_d)] when that value is representable in a word, which is the
    case exactly when no bit of the high word of the product lies at
    position [log_alpha_d] or above, and returns [C_SIZE_MAX] otherwise.
    So [C_SIZE_MAX] is returned exactly when such a bit exists or the
    floor itself is [C_SIZE_MAX]. *)
Theorem mul_alpha_sz_max_saturates sz n alpha_n log_alpha_d :
  1 ≤ sz → 0 ≤ n < 2 ^ C_FULL_BIT sz → 1 ≤ alpha_n < 2 ^ C_FULL_BIT sz →
  0 ≤ log_alpha_d < C_FULL_BIT sz →
  let floor := n * alpha_n / 2 ^ log_alpha_d in
  let high_bit := ∃ i, log_alpha_d ≤ i ∧
                       Z.testbit (mul_ext sz n alpha_n).1 i = true in
  (floor < 2 ^ C_FULL_BIT sz ↔ ¬ high_bit) ∧
  (floor < 2 ^ C_FULL_BIT sz →
   mul_alpha_sz_max sz n alpha_n log_alpha_d = floor) ∧
  (high_bit → mul_alpha_sz_max sz n alpha_n log_alpha_d = C_SIZE_MAX sz) ∧
  (mul_alpha_sz_max sz n alpha_n log_alpha_d = C_SIZE_MAX sz ↔
   high_bit ∨ floor = C_SIZE_MAX sz).
Proof.
  intros Hsz Hn Ha Hd floor high_bit.
  destruct (mul_alpha_sz_max_cases sz n alpha_n log_alpha_d) as [Hrep Hval];
    [lia | done | lia | done |].
  assert (0 ≤ (mul_ext sz n alpha_n).1) as Hh.
  { unfold mul_ext. cbn [fst]. apply wrap_range. lia. }
  pose proof (shr_nonzero_testbit _ log_alpha_d Hh ltac:(lia)) as Hbit.
  fold high_bit in Hbit. fold floor in Hrep, Hval.
  rewrite size_max_eq in * by lia.
  assert (0 ≤ floor) as Hfl.
  { unfold floor. apply Z.div_pos; [nia|]. apply Z.pow_pos_nonneg; lia. }
  repeat split.
  - intros Hlt Hhb. apply Hbit in Hhb. tauto.
  - intros Hnb. apply Hrep. destruct (decide (shr (mul_ext sz n alpha_n).1 log_alpha_d = 0)); tauto.
  - intros Hlt. rewrite Hval. case_decide; tauto.
  - intros Hhb. rewrite Hval. apply Hbit in Hhb. by case_decide.
  - rewrite Hval. case_decide as Hz; [by right | left; tauto].
  - rewrite Hval. intros [Hhb | Hmax]; case_decide as Hz; try done.
    apply Hbit in Hhb. done.
Qed.

Lemma mul_alpha_sz_max_saturates_witness :
  mul_alpha_sz_max 8 1543 3 3 = 1543 * 3 / 2 ^ 3.
Proof.
  apply (mul_alpha_sz_max_saturates 8 1543 3 3); try (vm_compute; intuition congruence).
Defined.

(** C2, the claim as stated fails: with the first prime of the ladder and
    a numerator within the documented range the floor is [C_SIZE_MAX]
    itself; it is returned although the high word has no bit at position
    [log_alpha_d] or above. *)
Lemma mul_alpha_sz_max_iff_fails :
  let alpha_n := (2 ^ 74 - 307) / 1543 in
  1 ≤ alpha_n < 2 ^ C_FULL_BIT 8 ∧ 0 ≤ 10 < C_FULL_BIT 8 ∧
  ¬ (mul_alpha_sz_max 8 1543 alpha_n 10 = C_SIZE_MAX 8 ↔
     ∃ i, 10 ≤ i ∧ Z.testbit (mul_ext 8 1543 alpha_n).1 i = true).
Proof.
  intros alpha_n. split; [vm_compute; intuition congruence|].
  split; [vm_compute; intuition congruence|].
  intros [Hto _].
  destruct (Hto ltac:(vm_compute; reflexivity)) as (i & Hi & Hb).
  apply (proj2 (shr_nonzero_testbit (mul_ext 8 1543 alpha_n).1 10
                  ltac:(vm_compute; congruence) ltac:(lia))); [by eauto|].
  vm_compute. reflexivity.
Qed.
(** ** Key conversion *)

Lemma byte_val_range b : 0 ≤ byte_val b < 256.
Proof. unfold byte_val. pose proof (Byte.to_N_bounded b). lia. Qed.

Lemma le_int_range l : 0 ≤ le_int l < 2 ^ (8 * Z.of_nat (length l)).
Proof.
  induction l as [|b l IH]; simpl length; [simpl; lia|].
  cbn [le_int]. pose proof (byte_val_range b).
  replace (8 * Z.of_nat (S (length l))) with (8 + 8 * Z.of_nat (length l)) by lia.
  rewrite Z.pow_add_r by lia. change (2 ^ 8) with 256. lia.
Qed.

Lemma le_int_app l1 l2 :
  le_int (l1 ++ l2) = le_int l1 + 2 ^ (8 * Z.of_nat (length l1)) * le_int l2.
Proof.
  induction l1 as [|b l1 IH]; simpl length; cbn [app le_int]; [simpl; lia|].
  rewrite IH.
  replace (8 * Z.of_nat (S (length l1))) with (8 + 8 * Z.of_nat (length l1)) by lia.
  rewrite Z.pow_add_r by lia. change (2 ^ 8) with 256. lia.
Qed.

Lemma wrap_add_l sz a b : wrap sz (wrap sz a + b) = wrap sz (a + b).
Proof. unfold wrap. apply Zplus_mod_idemp_l. Qed.

Lemma wrap_add_r sz a b : wrap sz (a + wrap sz b) = wrap sz (a + b).
Proof. unfold wrap. apply Zplus_mod_idemp_r. Qed.

Lemma wrap_wrap sz a : wrap sz (wrap sz a) = wrap sz a.
Proof. unfold wrap. apply Zmod_mod. Qed.

Lemma lin_lt_pow sz : 1 ≤ sz → 8 * sz < 2 ^ C_FULL_BIT sz.
Proof. intros. unfold C_FULL_BIT, CHAR_BIT. apply Z.pow_gt_lin_r; lia. Qed.

Lemma add_bytes_spec sz n buf i acc :
  1 ≤ sz → 0 ≤ i → i + Z.of_nat n ≤ sz →
  (Z.to_nat i + n ≤ length buf)%nat →
  0 ≤ acc < 2 ^ C_FULL_BIT sz →
  add_bytes sz n buf i acc =
  wrap sz (acc + 2 ^ (8 * i) * le_int (take n (drop (Z.to_nat i) buf))).
Proof.
  intros Hsz. revert i acc.
  induction n as [|n IH]; intros i acc Hi Hn Hlen Hacc; cbn [add_bytes].
  - rewrite take_0. cbn [le_int]. rewrite wrap_small; lia.
  - pose proof (lin_lt_pow sz Hsz) as Hlin.
    destruct (lookup_lt_is_Some_2 buf (Z.to_nat i) ltac:(lia)) as [b Hb].
    rewrite IH; [| lia | lia | rewrite Z2Nat.inj_add by lia; simpl; lia
                 | apply wrap_range; lia].
    rewrite wrap_add_l.
    unfold shl, C_BYTE_BIT, CHAR_BIT.
    rewrite (wrap_small sz (i * 8)) by lia.
    rewrite (Z.add_comm acc), <- Z.add_assoc, wrap_add_l. f_equal.
    unfold buf_at. rewrite Hb. cbn [default].
    rewrite (drop_S _ _ _ Hb). cbn [take le_int].
    replace (Z.to_nat (i + 1)) with (S (Z.to_nat i)) by lia.
    rewrite Z.shiftl_mul_pow2 by lia.
    replace (8 * (i + 1)) with (8 * i + 8) by lia.
    rewrite Z.pow_add_r by lia. change (2 ^ 8) with 256.
    replace (i * 8) with (8 * i) by lia. unfold id. ring.
Qed.

Lemma add_bytes_le_int sz n buf acc :
  1 ≤ sz → Z.of_nat n ≤ sz → (n ≤ length buf)%nat →
  0 ≤ acc < 2 ^ C_FULL_BIT sz →
  add_bytes sz n buf 0 acc = wrap sz (acc + le_int (take n buf)).
Proof.
  intros. rewrite add_bytes_spec by (simpl; lia).
  simpl. rewrite drop_0. f_equal. lia.
Qed.

Lemma add_words_spec sz n k buf acc :
  1 ≤ sz → (n * Z.to_nat sz ≤ length k)%nat →
  0 ≤ acc < 2 ^ C_FULL_BIT sz →
  add_words sz n k buf acc = wrap sz (acc + word_sum sz n k).
Proof.
  intros Hsz. revert k buf acc.
  induction n as [|n IH]; intros k buf acc Hlen Hacc; cbn [add_words word_sum].
  - rewrite wrap_small; lia.
  - assert (Z.to_nat sz ≤ length k)%nat as Hk by lia.
    rewrite IH.
    + rewrite add_bytes_le_int; try lia.
      * rewrite wrap_add_l. unfold memcpy.
        rewrite take_app_le by (rewrite length_take; lia).
        rewrite take_take, Nat.min_id. f_equal. lia.
      * unfold memcpy. rewrite length_app, length_take. lia.
    + rewrite length_drop. lia.
    + rewrite add_bytes_le_int; try lia; [apply wrap_range; lia|].
      unfold memcpy. rewrite length_app, length_take. lia.
Qed.

Lemma convert_std_key_words sz ks k :
  1 ≤ sz → 0 ≤ ks < 2 ^ C_FULL_BIT sz → Z.of_nat (length k) = ks →
  convert_std_key sz None ks k =
  wrap sz (le_int (take (Z.to_nat (ks mod sz)) k)
           + word_sum sz (Z.to_nat (ks / sz)) (drop (Z.to_nat (ks mod sz)) k)).
Proof.
  intros Hsz Hks Hlen. unfold convert_std_key.
  pose proof (pow_full_bit_pos sz ltac:(lia)) as HB.
  pose proof (Z.div_mod ks sz ltac:(lia)) as Hdm.
  pose proof (Z.mod_pos_bound ks sz ltac:(lia)) as Hmod.
  assert (0 ≤ ks / sz) as Hq by (apply Z.div_pos; lia).
  assert (0 ≤ ks / sz * sz ≤ ks) as Hqs by nia.
  rewrite (wrap_small sz (ks / sz * sz)) by lia.
  replace (ks - ks / sz * sz) with (ks mod sz) by lia.
  rewrite (wrap_small sz (ks mod sz)) by lia.
  set (r := ks mod sz) in *.
  assert (length (memcpy (zero_block sz) k r) = Z.to_nat sz) as Hbuf.
  { unfold memcpy, zero_block.
    rewrite length_app, length_take, length_drop, length_replicate. lia. }
  rewrite add_words_spec; try lia.
  - rewrite add_bytes_le_int by lia.
    rewrite Z.add_0_l, wrap_add_l. unfold memcpy.
    rewrite take_app_le by (rewrite length_take; lia).
    by rewrite take_take, Nat.min_id.
  - rewrite length_drop. nia.
  - rewrite add_bytes_le_int by lia. apply wrap_range; lia.
Qed.

Lemma shifted_sum_small sz i l :
  1 ≤ sz → 0 ≤ i → i + Z.of_nat (length l) ≤ sz →
  shifted_sum sz i l = 2 ^ (8 * i) * le_int l.
Proof.
  intros Hsz. revert i. induction l as [|b l IH]; intros i Hi Hlen;
    cbn [shifted_sum le_int]; [lia|].
  simpl length in Hlen.
  rewrite IH by lia.
  rewrite Z.mod_small by (unfold C_FULL_BIT, CHAR_BIT; lia).
  rewrite Z.shiftl_mul_pow2 by lia.
  replace (8 * (i + 1)) with (8 * i + 8) by lia.
  rewrite Z.pow_add_r by lia. change (2 ^ 8) with 256.
  replace (i * 8) with (8 * i) by lia. ring.
Qed.

Lemma shifted_sum_period sz i l :
  1 ≤ sz → shifted_sum sz (i + sz) l = shifted_sum sz i l.
Proof.
  intros Hsz. revert i. induction l as [|b l IH]; intros i;
    cbn [shifted_sum]; [done|].
  replace (i + sz + 1) with (i + 1 + sz) by lia. rewrite IH. f_equal.
  f_equal. unfold C_FULL_BIT, CHAR_BIT.
  replace ((i + sz) * 8) with (i * 8 + 1 * (8 * sz)) by lia.
  apply Z_mod_plus_full.
Qed.

Lemma shifted_sum_app sz i l1 l2 :
  shifted_sum sz i (l1 ++ l2) =
  shifted_sum sz i l1 + shifted_sum sz (i + Z.of_nat (length l1)) l2.
Proof.
  revert i. induction l1 as [|b l1 IH]; intros i; cbn [app shifted_sum].
  - simpl. by rewrite Z.add_0_r.
  - rewrite IH. simpl length.
    replace (i + 1 + Z.of_nat (length l1)) with (i + Z.of_nat (S (length l1))) by lia.
    lia.
Qed.

Lemma shifted_sum_words sz n k :
  1 ≤ sz → length k = (n * Z.to_nat sz)%nat →
  shifted_sum sz 0 k = word_sum sz n k.
Proof.
  intros Hsz. revert k. induction n as [|n IH]; intros k Hlen.
  - destruct k; [done | simpl in Hlen; lia].
  - cbn [word_sum]. rewrite <- (take_drop (Z.to_nat sz) k) at 1.
    rewrite shifted_sum_app, length_take.
    replace (Z.of_nat (Z.to_nat sz `min` length k)) with sz by lia.
    rewrite (shifted_sum_period sz 0) by done.
    rewrite shifted_sum_small by (rewrite ?length_take; lia).
    rewrite IH by (rewrite length_drop; lia).
    simpl. lia.
Qed.

(** C1 (as amended). Without a reducer callback the word [convert_std_key]
    obtains from a key of [key_size] bytes is the sum, modulo [2 ^
    C_FULL_BIT], of the leading [key_size mod sizeof(size_t)] bytes read as
    a little-endian integer and of every following [sizeof(size_t)]-byte
    group read as a little-endian integer. This is the sum of the bytes
    shifted by [i * 8 mod C_FULL_BIT] when the key size is at most, or a
    multiple of, [sizeof(size_t)], and it is the key read as a
    little-endian integer when the key size is at most [sizeof(size_t)].
    The bucket index is this word modulo the current [count]. *)
Theorem convert_std_key_word_sum sz ht k :
  1 ≤ sz → rdc_key ht = None →
  0 ≤ key_size ht < 2 ^ C_FULL_BIT sz → Z.of_nat (length k) = key_size ht →
  let ks := key_size ht in
  let w := convert_std_key sz (rdc_key ht) ks k in
  w = wrap sz (le_int (take (Z.to_nat (ks mod sz)) k)
               + word_sum sz (Z.to_nat (ks / sz))
                   (drop (Z.to_nat (ks mod sz)) k)) ∧
  (ks ≤ sz ∨ ks mod sz = 0 → w = wrap sz (shifted_sum sz 0 k)) ∧
  (ks ≤ sz → w = le_int k ∧ w = wrap sz (le_int k)) ∧
  hash sz ht k = w mod count ht.
Proof.
  intros Hsz Hrdc Hks Hlen ks w. unfold hash. fold ks w.
  assert (w = wrap sz (le_int (take (Z.to_nat (ks mod sz)) k)
               + word_sum sz (Z.to_nat (ks / sz))
                   (drop (Z.to_nat (ks mod sz)) k))) as Hw.
  { unfold w. rewrite Hrdc. by apply convert_std_key_words. }
  assert (ks mod sz = 0 → w = wrap sz (shifted_sum sz 0 k)) as Hmult.
  { intros Hz. rewrite Hw, Hz. simpl Z.to_nat. rewrite take_0, drop_0.
    cbn [le_int]. rewrite Z.add_0_l. f_equal. symmetry.
    apply shifted_sum_words; [done|].
    pose proof (Z.div_mod ks sz ltac:(lia)).
    assert (0 ≤ ks / sz) by (apply Z.div_pos; lia). fold ks in Hlen. nia. }
  assert (ks < sz → w = le_int k ∧ w = wrap sz (shifted_sum sz 0 k)) as Hlt.
  { intros Hsmall. rewrite Hw.
    rewrite Z.mod_small, Z.div_small by lia. change (Z.to_nat 0) with 0%nat.
    cbn [word_sum]. rewrite Z.add_0_r.
    rewrite take_ge by lia.
    rewrite shifted_sum_small by lia. simpl (2 ^ (8 * 0)). rewrite Z.mul_1_l.
    split; [|done]. apply wrap_small.
    pose proof (le_int_range k) as Hr. split; [lia|].
    eapply Z.lt_le_trans; [apply Hr|].
    apply Z.pow_le_mono_r; unfold C_FULL_BIT, CHAR_BIT; lia. }
  assert (ks = sz → w = le_int k) as Heq.
  { intros Hsame. rewrite Hw, Hsame, Z_mod_same_full, Z_div_same_full by lia.
    change (Z.to_nat 0) with 0%nat. change (Z.to_nat 1) with 1%nat.
    rewrite take_0, drop_0. cbn [word_sum le_int].
    rewrite take_ge, Z.add_0_l, Z.add_0_r by lia.
    apply wrap_small. pose proof (le_int_range k) as Hr.
    replace (8 * Z.of_nat (length k)) with (C_FULL_BIT sz) in Hr
      by (unfold C_FULL_BIT, CHAR_BIT; lia). done. }
  split; [done|]. split; [|split; [|done]].
  - intros [Hle | Hz]; [|by apply Hmult].
    destruct (decide (ks = sz)) as [Hsame | Hne].
    + apply Hmult. rewrite Hsame. apply Z_mod_same_full.
    + apply Hlt. lia.
  - intros Hle.
    assert (w = le_int k) as Hwk.
    { destruct (decide (ks = sz)); [by apply Heq | apply Hlt; lia]. }
    split; [done|]. rewrite <- Hwk, Hw. by rewrite wrap_wrap.
Qed.

Lemma convert_std_key_word_sum_witness :
  let ht := Ht 2 1 1 0 0 1543 578 0 3 3 [] None None false in
  hash 8 ht [x08; x06] = convert_std_key 8 None 2 [x08; x06] mod 1543.
Proof.
  intros ht.
  apply (convert_std_key_word_sum 8 ht [x08; x06]);
    [lia | reflexivity | vm_compute; intuition congruence | reflexivity].
Defined.

(** C1, the claim as stated fails on a 64-bit host. A 9-byte key whose
    second byte is 1 converts to 1, the sum of its bytes shifted by [i * 8
    mod 64] being 256; and for a 16-byte key whose ninth byte is 1 that
    sum is 1 while the key read as a little-endian integer is [2 ^ 64],
    which is 0 modulo [2 ^ 64]. *)
Lemma convert_std_key_not_shifted_sum :
  let k9 := [x00; x01; x00; x00; x00; x00; x00; x00; x00] in
  let k16 := [x00; x00; x00; x00; x00; x00; x00; x00;
              x01; x00; x00; x00; x00; x00; x00; x00] in
  ¬ (convert_std_key 8 None 9 k9 = wrap 8 (shifted_sum 8 0 k9) ∧
     wrap 8 (shifted_sum 8 0 k9) = wrap 8 (le_int k9)) ∧
  ¬ (convert_std_key 8 None 16 k16 = wrap 8 (shifted_sum 8 0 k16) ∧
     wrap 8 (shifted_sum 8 0 k16) = wrap 8 (le_int k16)).
Proof.
  split; intros [H1 H2]; vm_compute in H1, H2; congruence.
Qed.
(** ** Ladder positions and [incr_count] *)

Lemma ladder_length : length ladder = 54%nat.
Proof. reflexivity. Qed.

Lemma ladder_bounds i p :
  ladder !! i = Some p →
  0 ≤ p.1 ≤ 146 ∧ 0 ≤ p.2 ≤ 3 ∧ 1 ≤ arr C_PARTS_PER_PRIME p.2 ≤ 4.
Proof.
  assert (Forall (λ p, 0 ≤ p.1 ≤ 146 ∧ 0 ≤ p.2 ≤ 3 ∧
                       1 ≤ arr C_PARTS_PER_PRIME p.2 ≤ 4) ladder) as HF.
  { let l := eval vm_compute in ladder in change ladder with l.
    repeat (constructor; [vm_compute; intuition congruence|]). constructor. }
  intros Hi. by apply (proj1 (Forall_lookup _ _) HF i p).
Qed.

Lemma ladder_succ i p :
  ladder !! i = Some p →
  if decide (i = 53%nat) then (ladder_step p).1 = C_PRIME_PARTS_COUNT
  else ladder !! S i = Some (ladder_step p) ∧
       (ladder_step p).1 ≠ C_PRIME_PARTS_COUNT.
Proof.
  intros Hi.
  assert (i < 54)%nat as Hlt.
  { apply lookup_lt_Some in Hi. by rewrite ladder_length in Hi. }
  revert p Hi.
  do 54 (destruct i as [|i];
         [intros p Hp; vm_compute in Hp; injection Hp as <-;
          vm_compute; intuition congruence|]).
  lia.
Qed.
Lemma size_max_big sz : 2 ≤ sz → 2 ^ 16 - 1 ≤ C_SIZE_MAX sz.
Proof.
  intros. rewrite size_max_eq by lia. pose proof (pow_full_bit_ge sz). lia.
Qed.

Lemma ladder_moved_refl ht : ladder_moved ht ht.
Proof. by destruct ht. Qed.

Lemma ladder_moved_trans ht1 ht2 ht3 :
  ladder_moved ht1 ht2 → ladder_moved ht2 ht3 → ladder_moved ht1 ht3.
Proof.
  unfold ladder_moved. intros H12 H23. rewrite H23 at 1. rewrite H12 at 1.
  by destruct ht1.
Qed.

Lemma at_rung_prime sz ht i : at_rung sz ht i → ladder_prime sz (count ht).
Proof. intros (Hp & Hov & Hc). by exists i, (count_ix ht), (group_ix ht). Qed.

Lemma lor_lt_pow2 a b n :
  0 ≤ n → 0 ≤ a < 2 ^ n → 0 ≤ b < 2 ^ n → 0 ≤ Z.lor a b < 2 ^ n.
Proof.
  intros Hn Ha Hb. split; [apply Z.lor_nonneg; lia|].
  destruct (decide (Z.lor a b = 0)) as [->|Hne]; [lia|].
  assert (0 < Z.lor a b) as Hpos.
  { pose proof (proj2 (Z.lor_nonneg a b) ltac:(lia)). lia. }
  apply Z.log2_lt_pow2; [done|].
  rewrite Z.log2_lor by lia.
  destruct (decide (a = 0)) as [->|Ha0]; destruct (decide (b = 0)) as [->|Hb0].
  - done.
  - change (Z.log2 0) with 0. rewrite Z.max_r by apply Z.log2_nonneg.
    apply Z.log2_lt_pow2; lia.
  - change (Z.log2 0) with 0. rewrite Z.max_l by apply Z.log2_nonneg.
    apply Z.log2_lt_pow2; lia.
  - apply Z.max_lub_lt; apply Z.log2_lt_pow2; lia.
Qed.

Lemma build_prime_range sz start cnt :
  0 ≤ sz → 0 ≤ build_prime sz start cnt < 2 ^ C_FULL_BIT sz.
Proof.
  intros Hsz. unfold build_prime.
  assert (∀ n i p, 0 ≤ p < 2 ^ C_FULL_BIT sz →
            0 ≤ build_prime_loop sz n start i p < 2 ^ C_FULL_BIT sz) as Hloop.
  { intros n. induction n as [|n IH]; intros i p Hp; cbn [build_prime_loop]; [done|].
    apply IH. apply lor_lt_pow2; [unfold C_FULL_BIT, CHAR_BIT; lia | done |].
    by apply wrap_range. }
  apply Hloop. pose proof (pow_full_bit_pos sz). lia.
Qed.

Lemma ladder_prime_pos sz c :
  2 ≤ sz → ladder_prime sz c → 1543 ≤ c < 2 ^ C_FULL_BIT sz.
Proof.
  intros Hsz (i & start & g & Hp & Hov & ->).
  destruct (Forall2_lookup_l _ _ _ _ _ ladder_values Hp) as (d & Hd & Hv).
  cbn [fst snd] in Hv. destruct Hv as (Hs & Hc & Hor & Hsum).
  split; [|apply build_prime_range; lia].
  rewrite build_prime_or, Hor by done.
  assert (Forall (λ d, 1543 ≤ d) documented_primes) as HF.
  { unfold documented_primes. repeat (constructor; [lia|]). constructor. }
  by apply (proj1 (Forall_lookup _ _) HF i d).
Qed.

(** One call of [incr_count] from a rung. *)
Lemma incr_count_rung sz ht i :
  2 ≤ sz → at_rung sz ht i →
  ∃ ht' r, incr_count sz ht = (ht', r) ∧ ladder_moved ht ht' ∧
    if r then at_rung sz ht' (S i) ∧
              max_num_elts ht' =
                mul_alpha_sz_max sz (count ht') (alpha_n ht) (log_alpha_d ht)
    else ladder_end sz ht' ∧ count ht' = count ht ∧
         max_num_elts ht' = max_num_elts ht.
Proof.
  intros Hsz (Hp & Hov & Hc).
  pose proof (ladder_bounds _ _ Hp) as (Hb1 & Hb2 & Hb3). cbn [fst snd] in *.
  pose proof (ladder_succ _ _ Hp) as Hs.
  unfold incr_count.
  destruct ht as [ks es ea g c cnt mx ne an ld ke ck rk fe]. cbn [fst snd] in *.
  unfold set_ladder. cbn [group_ix count_ix key_size elt_size elt_alignment count
    max_num_elts num_elts alpha_n log_alpha_d key_elts cmp_key rdc_key free_elt] in *.
  rewrite (wrap_small16 sz (c + arr C_PARTS_PER_PRIME g)) by (done || lia).
  rewrite (wrap_small16 sz (g + 1)) by (done || lia).
  unfold ladder_step in Hs. cbn [fst snd] in Hs.
  set (c' := c + arr C_PARTS_PER_PRIME g) in *.
  assert (∃ g', g' = (if decide (c' = arr C_PARTS_ACC_COUNTS g) then g + 1 else g) ∧
            (if decide (c' = arr C_PARTS_ACC_COUNTS g)
             then Ht ks es ea (g + 1) c' cnt mx ne an ld ke ck rk fe
             else Ht ks es ea g c' cnt mx ne an ld ke ck rk fe)
            = Ht ks es ea g' c' cnt mx ne an ld ke ck rk fe) as (g' & Hg' & ->).
  { destruct (decide (c' = arr C_PARTS_ACC_COUNTS g)); eauto. }
  rewrite <- Hg' in Hs. clear Hg'.
  cbn [group_ix count_ix key_size elt_size elt_alignment count
    max_num_elts num_elts alpha_n log_alpha_d key_elts cmp_key rdc_key free_elt set_ladder set_count].
  destruct (decide (c' = C_PRIME_PARTS_COUNT)) as [Hend | Hnend].
  - eexists _, false. split; [reflexivity|]. split; [reflexivity|].
    split; [by right | split; reflexivity].
  - destruct (is_overflow sz c' (arr C_PARTS_PER_PRIME g')) eqn:Hov'.
    + eexists _, false. split; [reflexivity|]. split; [reflexivity|].
      split; [left; reflexivity | split; reflexivity].
    + eexists _, true. split; [reflexivity|]. split; [reflexivity|].
      split; [|reflexivity].
      destruct (decide (i = 53%nat)) as [->|Hne]; [contradiction|].
      destruct Hs as [Hs _]. split; [exact Hs|]. split; [exact Hov' | reflexivity].
Qed.

Lemma ladder_moved_fields ht ht' :
  ladder_moved ht ht' →
  key_size ht' = key_size ht ∧ elt_size ht' = elt_size ht ∧
  elt_alignment ht' = elt_alignment ht ∧ num_elts ht' = num_elts ht ∧
  alpha_n ht' = alpha_n ht ∧ log_alpha_d ht' = log_alpha_d ht ∧
  key_elts ht' = key_elts ht ∧ cmp_key ht' = cmp_key ht ∧
  rdc_key ht' = rdc_key ht ∧ free_elt ht' = free_elt ht.
Proof. unfold ladder_moved. intros ->. by destruct ht. Qed.

Lemma at_rung_lt sz ht i : at_rung sz ht i → (i < 54)%nat.
Proof.
  intros (Hp & _). apply lookup_lt_Some in Hp. by rewrite ladder_length in Hp.
Qed.

(** The loop [while (cond && incr_count(ht));] from a rung: it ends within
    the rounds the ladder allows, on a rung where the condition fails or
    at the end of the ladder. *)
Lemma incr_while_rung sz cond n :
  2 ≤ sz → ∀ i ht fuel,
  at_rung sz ht i → (54 ≤ i + n)%nat → (n < fuel)%nat →
  ∃ ht', incr_while sz fuel cond ht = Some ht' ∧
    ladder_moved ht ht' ∧ ladder_ok sz ht' ∧
    (cond ht' = false ∨ ladder_end sz ht') ∧
    (count ht' = count ht ∧ max_num_elts ht' = max_num_elts ht ∨
     max_num_elts ht' =
       mul_alpha_sz_max sz (count ht') (alpha_n ht) (log_alpha_d ht)).
Proof.
  intros Hsz. induction n as [|n IH]; intros i ht fuel Hr Hn Hf.
  { pose proof (at_rung_lt _ _ _ Hr). lia. }
  destruct fuel as [|fuel]; [lia|]. cbn [incr_while].
  destruct (cond ht) eqn:Hc.
  - destruct (incr_count_rung sz ht i Hsz Hr) as (ht1 & r & Hic & Hmv & Hres).
    rewrite Hic. destruct r.
    + destruct Hres as [Hr1 Hmx].
      destruct (IH (S i) ht1 fuel Hr1 ltac:(lia) ltac:(lia))
        as (ht' & Hw & Hmv' & Hok & Hend & Hmax).
      exists ht'. split; [exact Hw|]. split; [by eapply ladder_moved_trans|].
      split; [exact Hok|]. split; [exact Hend|].
      right. destruct (ladder_moved_fields _ _ Hmv) as (_ & _ & _ & _ & Ha & Hl & _).
      destruct Hmax as [[Hsame Hsmx] | Hmax].
      * by rewrite Hsmx, Hsame.
      * by rewrite Hmax, Ha, Hl.
    + destruct Hres as (Hend & Hcnt & Hmx).
      exists ht1. split; [reflexivity|]. split; [exact Hmv|].
      split; [right; split; [exact Hend|]; rewrite Hcnt; by eapply at_rung_prime|].
      split; [by right | left; by split].
  - exists ht. split; [reflexivity|]. split; [apply ladder_moved_refl|].
    split; [left; by exists i|]. split; [by left | left; by split].
Qed.

(** ** Running the memory operations *)

Lemma bind_some {A B} (c : M A) (k : A → M B) m a m' :
  c m = Some (a, m') → bind c k m = k a m'.
Proof. unfold bind. by intros ->. Qed.

Lemma load_some m a n : heap m !! a = Some n → load (Some a) m = Some (n, m).
Proof. unfold load. by intros ->. Qed.

Lemma insert_as_alter (h : gmap addr dll_node) a n f :
  h !! a = Some n → <[a := f n]> h = alter f a h.
Proof.
  intros Ha. apply map_eq. intros b. rewrite lookup_insert, lookup_alter.
  case_decide; [subst; by rewrite Ha | done].
Qed.

Lemma set_next_some m a v :
  is_Some (heap m !! a) →
  set_next (Some a) v m =
  Some (tt, Mem (alter (λ n, Node (key n) (elt n) v (prev n)) a (heap m))
                (brk m) (freed m)).
Proof.
  intros [n Ha]. unfold set_next. rewrite (bind_some _ _ _ _ _ (load_some _ _ _ Ha)).
  unfold store. rewrite Ha.
  by rewrite (insert_as_alter _ _ _ (λ n, Node (key n) (elt n) v (prev n)) Ha).
Qed.

Lemma set_prev_some m a v :
  is_Some (heap m !! a) →
  set_prev (Some a) v m =
  Some (tt, Mem (alter (λ n, Node (key n) (elt n) (next n) v) a (heap m))
                (brk m) (freed m)).
Proof.
  intros [n Ha]. unfold set_prev. rewrite (bind_some _ _ _ _ _ (load_some _ _ _ Ha)).
  unfold store. rewrite Ha.
  by rewrite (insert_as_alter _ _ _ (λ n, Node (key n) (elt n) (next n) v) Ha).
Qed.

Lemma set_elt_some m a e :
  is_Some (heap m !! a) →
  set_elt (Some a) e m =
  Some (tt, Mem (alter (λ n, Node (key n) e (next n) (prev n)) a (heap m))
                (brk m) (freed m)).
Proof.
  intros [n Ha]. unfold set_elt. rewrite (bind_some _ _ _ _ _ (load_some _ _ _ Ha)).
  unfold store. rewrite Ha.
  by rewrite (insert_as_alter _ _ _ (λ n, Node (key n) e (next n) (prev n)) Ha).
Qed.

(** ** Segments and rings *)

Ltac goal_decide H :=
  match goal with |- context [decide ?P] => destruct (decide P) as [H|H] end.

Lemma dseg_in h pv l nx a : dseg h pv l nx → a ∈ l → is_Some (h !! a).
Proof.
  revert pv. induction l as [|b l IH]; intros pv Hd Ha; [by apply elem_of_nil in Ha|].
  destruct Hd as (n & Hb & _ & _ & Hd).
  apply elem_of_cons in Ha as [->|Ha]; [by eexists | by eapply IH].
Qed.

(** Changing the two links that leave a segment, and nothing else of it. *)
Lemma dseg_rebound h h' pv pv' nx nx' l :
  NoDup l → dseg h pv l nx →
  (∀ b n, b ∈ l → h !! b = Some n →
     ∃ n', h' !! b = Some n' ∧
       next n' = (if decide (Some b = last l) then Some nx' else next n) ∧
       prev n' = (if decide (Some b = head l) then Some pv' else prev n)) →
  dseg h' pv' l nx'.
Proof.
  revert pv pv'. induction l as [|a l IH]; intros pv pv' Hnd Hd Hh; [exact I|].
  apply NoDup_cons in Hnd as [Hal Hnd].
  destruct Hd as (n & Ha & Hpv & Hnx & Hd).
  destruct (Hh a n ltac:(left) Ha) as (n' & Ha' & Hnx' & Hpv').
  exists n'. split; [done|]. split.
  { rewrite Hpv'. goal_decide Hx; [done | by destruct Hx]. }
  split.
  { rewrite Hnx'. destruct l as [|b l].
    - goal_decide Hx; [done | by destruct Hx].
    - goal_decide Heq; [|done]. destruct Hal.
      rewrite last_cons_cons in Heq. symmetry in Heq.
      by apply last_Some_elem_of. }
  apply (IH a a Hnd Hd). intros b nb Hb Hnb.
  assert (b ≠ a) as Hne by (intros ->; done).
  destruct (Hh b nb ltac:(by right) Hnb) as (nb' & Hb' & Hnxb & Hpvb).
  exists nb'. split; [done|]. split.
  - rewrite Hnxb. destruct l as [|c l]; [by apply elem_of_nil in Hb|].
    rewrite last_cons_cons. done.
  - rewrite Hpvb. cbn [head]. goal_decide Hx; [congruence|].
    goal_decide Hhd; [|done].
    destruct l as [|c l]; [done|]. cbn [head] in Hhd. injection Hhd as <-.
    destruct Hd as (nc & Hc & Hpc & _). congruence.
Qed.

Lemma dseg_frame h h' pv nx l :
  dseg h pv l nx → (∀ b, b ∈ l → h' !! b = h !! b) → dseg h' pv l nx.
Proof.
  revert pv. induction l as [|a l IH]; intros pv Hd Hh; [done|].
  destruct Hd as (n & Ha & Hpv & Hnx & Hd).
  exists n. rewrite Hh by left. repeat split; try done.
  apply IH; [done|]. intros b Hb. apply Hh. by right.
Qed.

Lemma default_last_cons (pv a : addr) l :
  default pv (last (a :: l)) = default a (last l).
Proof. rewrite last_cons. by destruct (last l). Qed.

Lemma dseg_app h pv l1 l2 nx :
  dseg h pv (l1 ++ l2) nx ↔
  dseg h pv l1 (default nx (head l2)) ∧ dseg h (default pv (last l1)) l2 nx.
Proof.
  revert pv. induction l1 as [|a l1 IH]; intros pv; cbn [app].
  { cbn. tauto. }
  cbn [dseg]. split.
  - intros (n & Ha & Hpv & Hnx & Hd). apply IH in Hd as [Hd1 Hd2]. split.
    + exists n. repeat split; try done. rewrite Hnx. by destruct l1.
    + by rewrite default_last_cons.
  - intros [(n & Ha & Hpv & Hnx & Hd1) Hd2]. exists n. repeat split; try done.
    + rewrite Hnx. by destruct l1.
    + apply IH. split; [done|]. by rewrite default_last_cons in Hd2.
Qed.

Lemma ring_rotate h l1 l2 : ring h (l1 ++ l2) → ring h (l2 ++ l1).
Proof.
  intros [Hnd Hr]. split.
  { apply NoDup_app. apply NoDup_app in Hnd as (H1 & H12 & H2).
    repeat split; try done. intros x Hx2 Hx1. by apply (H12 x). }
  destruct l1 as [|a l1]; [by rewrite app_nil_r in *|].
  destruct l2 as [|b l2]; [by rewrite app_nil_r in *|].
  cbn [app] in *. rewrite app_comm_cons in Hr. rewrite app_comm_cons.
  rewrite last_app in Hr. rewrite last_app.
  rewrite (last_cons b l2) in Hr. rewrite (last_cons a l1).
  apply dseg_app in Hr as [Hr1 Hr2]. apply dseg_app. cbn [head] in *.
  rewrite !default_last_cons in *.
  destruct (last l2) as [z2|] eqn:E2; destruct (last l1) as [z1|] eqn:E1;
    cbn [default] in *; by split.
Qed.

Lemma ring_in h l a : ring h l → a ∈ l → is_Some (h !! a).
Proof.
  intros [_ Hr] Ha. destruct l as [|b l]; [by apply elem_of_nil in Ha|].
  by eapply dseg_in.
Qed.

Lemma nodup_length_le_size (h : gmap addr dll_node) (l : list addr) :
  NoDup l → (∀ a, a ∈ l → is_Some (h !! a)) → (length l ≤ size h)%nat.
Proof.
  intros Hnd Hin.
  rewrite <- length_map_to_list, <- (length_fmap fst).
  apply submseteq_length, NoDup_submseteq; [done|].
  intros a Ha. destruct (Hin a Ha) as [n Hn].
  apply list_elem_of_fmap. exists (a, n). split; [done|].
  by apply elem_of_map_to_list.
Qed.

(** ** [dll_search_key] *)

Lemma search_loop_spec h cmp ks hd k r :
  ∀ fuel pv vis,
  hd ∉ r → dseg h pv r hd → (length r ≤ fuel)%nat →
  dll_search_loop fuel h cmp ks (Some hd) (Some (default hd (head r))) k vis =
  Some ((scan h cmp ks r k).1, vis ++ (scan h cmp ks r k).2).
Proof.
  induction r as [|b r IH]; intros fuel pv vis Hhd Hd Hf.
  - cbn [head default scan fst snd]. rewrite app_nil_r.
    destruct fuel; cbn [dll_search_loop]; by goal_decide Heq.
  - destruct Hd as (n & Hb & Hpv & Hnx & Hd).
    apply not_elem_of_cons in Hhd as [Hne Hhd].
    destruct fuel as [|fuel]; [simpl in Hf; lia|].
    cbn [head default dll_search_loop scan]. unfold id.
    goal_decide Heq; [by injection Heq as ->|].
    rewrite Hb. destruct (key_equal cmp ks (key n) k); [reflexivity|].
    rewrite Hnx. rewrite (IH fuel b (vis ++ [b]) Hhd Hd ltac:(simpl in Hf; lia)).
    destruct (scan h cmp ks r k) as [res v]. cbn [fst snd].
    by rewrite <- app_assoc.
Qed.

Lemma search_visit_spec h cmp ks p l k :
  chain h p l →
  dll_search_key_visit h cmp ks p (Some k) = Some (scan h cmp ks l k).
Proof.
  intros [-> [Hnd Hr]]. destruct l as [|a r]; [done|].
  cbn [head dll_search_key_visit scan].
  destruct Hr as (n & Ha & Hpv & Hnx & Hd). rewrite Ha.
  destruct (key_equal cmp ks (key n) k); [done|].
  apply NoDup_cons in Hnd as [Har Hnd].
  rewrite Hnx, (search_loop_spec h cmp ks a k r (size h) a [a] Har Hd).
  - by destruct (scan h cmp ks r k).
  - apply nodup_length_le_size; [done|]. intros b Hb. by eapply dseg_in.
Qed.

Lemma search_key_spec m cmp ks p l k :
  chain (heap m) p l →
  dll_search_key cmp ks p (Some k) m = Some ((scan (heap m) cmp ks l k).1, m).
Proof.
  intros Hc. unfold dll_search_key. rewrite (search_visit_spec _ _ _ _ _ _ Hc).
  by destruct (scan (heap m) cmp ks l k).
Qed.

(** What the scan finds: the first node of the list whose key equals the
    probe, after looking at the nodes before it and at nothing else. *)
Lemma scan_spec h cmp ks l k :
  (∀ a, a ∈ l → is_Some (h !! a)) →
  (scan h cmp ks l k = (None, l) ∧
   ∀ a n, a ∈ l → h !! a = Some n → key_equal cmp ks (key n) k = false) ∨
  (∃ l1 a l2 n, l = l1 ++ a :: l2 ∧ scan h cmp ks l k = (Some a, l1 ++ [a]) ∧
     h !! a = Some n ∧ key_equal cmp ks (key n) k = true ∧
     ∀ b nb, b ∈ l1 → h !! b = Some nb → key_equal cmp ks (key nb) k = false).
Proof.
  induction l as [|a l IH]; intros Hin.
  { left. split; [done|]. intros a n Ha. by apply elem_of_nil in Ha. }
  destruct (Hin a ltac:(left)) as [n Ha]. cbn [scan]. rewrite Ha.
  destruct (key_equal cmp ks (key n) k) eqn:Hk.
  { right. exists [], a, l, n. repeat split; try done.
    intros b nb Hb. by apply elem_of_nil in Hb. }
  destruct IH as [[Hs Hno] | (l1 & b & l2 & nb & -> & Hs & Hb & Hkb & Hno)].
  { intros b Hb. apply Hin. by right. }
  - left. rewrite Hs. split; [done|]. intros b nb Hb Hnb.
    apply elem_of_cons in Hb as [->|Hb]; [congruence | by eapply Hno].
  - right. exists (a :: l1), b, l2, nb. rewrite Hs. repeat split; try done.
    intros c nc Hc Hnc.
    apply elem_of_cons in Hc as [->|Hc]; [congruence | by eapply Hno].
Qed.

(** ** [dll_prepend] *)

Lemma lookup_alter_fmap (f : dll_node → dll_node) (h : gmap addr dll_node) i j :
  alter f i h !! j = (if decide (i = j) then f else id) <$> h !! j.
Proof.
  rewrite lookup_alter. destruct (decide (i = j)) as [->|]; [done|].
  by destruct (h !! j).
Qed.

Lemma last_cons_default (a : addr) l : last (a :: l) = Some (default a (last l)).
Proof. rewrite last_cons. by destruct (last l). Qed.

Ltac case_links :=
  repeat match goal with
         | |- context [decide ?P] => destruct (decide P); simplify_eq; cbn
         end.

Lemma node_data_alter_links h a b f :
  (∀ n, key (f n) = key n ∧ elt (f n) = elt n) →
  node_data (alter f a h) b = node_data h b.
Proof.
  intros Hf. unfold node_data. rewrite lookup_alter.
  goal_decide Hab; [subst b|done].
  destruct (h !! a) as [n|]; [|done]. cbn. destruct (Hf n) as [-> ->]. done.
Qed.

Lemma ring_last_in h a l : ring h (a :: l) → default a (last l) ∈ a :: l.
Proof.
  intros _. destruct (last l) as [z|] eqn:E; cbn; [|left].
  right. by apply last_Some_elem_of.
Qed.

Lemma prepend_spec m p l a n :
  chain (heap m) p l → heap m !! a = Some n → a ∉ l →
  ∃ m', dll_prepend p (Some a) m = Some (Some a, m') ∧
    chain (heap m') (Some a) (a :: l) ∧
    brk m' = brk m ∧ freed m' = freed m ∧
    (∀ b, b ∉ a :: l → heap m' !! b = heap m !! b) ∧
    (∀ b, node_data (heap m') b = node_data (heap m) b).
Proof.
  intros [-> [Hnd Hr]] Ha Hal. unfold dll_prepend.
  destruct l as [|hd l]; cbn [head].
  - (* empty list: the node links to itself *)
    eexists. split.
    { erewrite bind_some; [reflexivity|].
      erewrite bind_some; [|by eapply set_next_some].
      eapply set_prev_some. cbn [heap]. rewrite lookup_alter_is_Some. eauto. }
    cbn [heap brk freed].
    split; [|split; [done|split; [done|split]]].
    + split; [done|]. split; [apply NoDup_singleton|].
      cbn. eexists. rewrite !lookup_alter_eq, Ha. cbn. done.
    + intros b Hb. apply not_elem_of_cons in Hb as [Hb _].
      by rewrite !lookup_alter_ne.
    + intros b. by rewrite !node_data_alter_links.
  - (* the node goes between the last node and the head *)
    pose proof (ring_last_in (heap m) hd l (conj Hnd Hr)) as Hzin.
    rewrite default_last_cons in Hr.
    set (z := default hd (last l)) in *.
    assert (a ≠ hd) as Hahd by (intros ->; apply Hal; left).
    assert (a ≠ z) as Haz by (intros ->; done).
    destruct (dseg_in _ _ _ _ z Hr Hzin) as [nz Hz].
    pose proof Hr as (nh & Hhd & Hpv & Hnx & Hd).
    eexists. split.
    { erewrite bind_some; [reflexivity|].
      erewrite bind_some; [|by eapply set_next_some].
      erewrite bind_some; [|apply load_some; cbn [heap]; by rewrite lookup_alter_ne].
      erewrite bind_some;
        [|eapply set_prev_some; cbn [heap]; rewrite lookup_alter_is_Some; eauto].
      erewrite bind_some;
        [|apply load_some; cbn [heap]; by rewrite !lookup_alter_ne].
      rewrite Hpv.
      erewrite bind_some;
        [|eapply set_next_some; cbn [heap]; rewrite !lookup_alter_is_Some; eauto].
      eapply set_prev_some. cbn [heap]. rewrite !lookup_alter_is_Some. eauto. }
    cbn [heap brk freed].
    split; [|split; [done|split; [done|split]]].
    + split; [done|]. split; [by apply NoDup_cons|].
      rewrite !default_last_cons. fold z.
      cbn [dseg]. eexists. split.
      { rewrite !lookup_alter_ne, !lookup_alter_eq, Ha by done. reflexivity. }
      cbn [prev next head default]. split; [reflexivity|]. split; [reflexivity|].
      apply (dseg_rebound (heap m) _ z a hd a (hd :: l) Hnd Hr).
      intros b nb Hb Hnb.
      assert (a ≠ b) as Hab by (intros <-; done).
      rewrite !lookup_alter_fmap, Hnb, last_cons_default. fold z. cbn [head fmap option_fmap option_map].
      eexists. split; [reflexivity|].
      split; case_links; try done; congruence.
    + intros b Hb. apply not_elem_of_cons in Hb as [Hba Hb].
      apply not_elem_of_cons in Hb as [Hbh Hb].
      assert (b ≠ z) as Hbz.
      { intros ->. apply elem_of_cons in Hzin as [?|?]; done. }
      by rewrite !lookup_alter_ne.
    + intros b. by rewrite !node_data_alter_links.
Qed.

(** ** [dll_remove] and [dll_delete] *)

(** The two stores that take the first node out of a ring of at least two
    nodes. *)
Lemma unlink_ring h a r x z :
  ring h (a :: r) → head r = Some x → last r = Some z →
  let h' := alter (λ n, Node (key n) (elt n) (Some x) (prev n)) z
              (alter (λ n, Node (key n) (elt n) (next n) (Some z)) x h) in
  ring h' r ∧ x ≠ a ∧ z ≠ a ∧
  (∃ n, h !! a = Some n ∧ prev n = Some z ∧ next n = Some x) ∧
  is_Some (h !! x) ∧ is_Some (h !! z) ∧
  (∀ b, b ∉ r → h' !! b = h !! b) ∧
  (∀ b, node_data h' b = node_data h b).
Proof.
  intros [Hnd Hr] Hx Hz h'.
  apply NoDup_cons in Hnd as [Har Hnd].
  rewrite default_last_cons, Hz in Hr. cbn [default] in Hr.
  destruct Hr as (n & Ha & Hpv & Hnx & Hd). rewrite Hx in Hnx. cbn [default] in Hnx.
  assert (x ∈ r) as Hxr by (destruct r; simplify_eq/=; left).
  assert (z ∈ r) as Hzr by (by apply last_Some_elem_of).
  split; [|split; [by intros ->|split; [by intros ->|split; [by exists n|split;
          [by eapply dseg_in|split; [by eapply dseg_in|split]]]]]].
  - split; [done|]. destruct r as [|x' r']; [done|]. cbn [head] in Hx. simplify_eq.
    rewrite default_last_cons. rewrite last_cons_default in Hz. simplify_eq.
    set (z := default x (last r')) in *.
    apply (dseg_rebound h h' a z a x (x :: r') Hnd Hd).
    intros b nb Hb Hnb. unfold h'.
    rewrite !lookup_alter_fmap, Hnb, last_cons_default. fold z.
    cbn [head fmap option_fmap option_map].
    eexists. split; [reflexivity|].
    split; case_links; try done; congruence.
  - intros b Hb. unfold h'. rewrite !lookup_alter_ne; [done|by intros ->..].
  - intros b. unfold h'. by rewrite !node_data_alter_links.
Qed.

Lemma chain_split_head h p l1 a l2 :
  chain h p (l1 ++ a :: l2) → (p = Some a ↔ l1 = []).
Proof.
  intros [-> [Hnd _]]. destruct l1 as [|b l1]; cbn [app head]; [done|].
  split; [|done]. intros Hb. simplify_eq. cbn [app] in Hnd.
  apply NoDup_cons in Hnd as [Hnd _]. destruct Hnd.
  apply elem_of_app. right. left.
Qed.

Lemma remove_spec m p l1 a l2 :
  chain (heap m) p (l1 ++ a :: l2) →
  ∃ m', dll_remove p (Some a) m = Some (head (l1 ++ l2), m') ∧
    chain (heap m') (head (l1 ++ l2)) (l1 ++ l2) ∧
    brk m' = brk m ∧ freed m' = freed m ∧
    (∀ b, b ∉ l1 ++ l2 → heap m' !! b = heap m !! b) ∧
    (∀ b, node_data (heap m') b = node_data (heap m) b).
Proof.
  intros Hc. pose proof (chain_split_head _ _ _ _ _ Hc) as Hhead.
  destruct Hc as [Hp Hring].
  pose proof (ring_rotate _ l1 (a :: l2) Hring) as Hrot. cbn [app] in Hrot.
  assert (∃ c, p = Some c) as [c Hpc].
  { rewrite Hp. destruct l1; cbn; eauto. }
  unfold dll_remove. rewrite Hpc.
  destruct (last (l2 ++ l1)) as [z|] eqn:Hz.
  - (* at least two nodes *)
    destruct (head (l2 ++ l1)) as [x|] eqn:Hx.
    2:{ apply head_None in Hx. rewrite Hx in Hz. done. }
    destruct (unlink_ring _ _ _ _ _ Hrot Hx Hz)
      as (Hr' & Hxa & Hza & (n & Ha & Hpv & Hnx) & Hsx & Hsz & Hfr & Hdat).
    eexists. split.
    { erewrite bind_some; [|by apply load_some].
      goal_decide Hself; [destruct Hself; congruence|].
      erewrite bind_some; [|by apply load_some].
      rewrite Hnx, Hpv.
      erewrite bind_some; [|by eapply set_prev_some].
      erewrite bind_some;
        [|apply load_some; cbn [heap]; by rewrite lookup_alter_ne].
      rewrite Hnx, Hpv.
      erewrite bind_some;
        [|eapply set_next_some; cbn [heap]; by rewrite lookup_alter_is_Some].
      goal_decide Hca.
      - erewrite bind_some;
          [|apply load_some; cbn [heap]; by rewrite !lookup_alter_ne].
        unfold ret. rewrite Hnx.
        rewrite Hpc in Hhead. rewrite (proj1 Hhead Hca) in Hx |- *.
        rewrite app_nil_r in Hx. cbn [app]. rewrite Hx. reflexivity.
      - unfold ret. rewrite <- Hpc, Hp.
        destruct l1 as [|b l1]; [|reflexivity].
        destruct Hca. rewrite Hpc in Hhead. by apply Hhead. }
    cbn [heap brk freed]. split; [|split; [done|split; [done|split]]].
    + split; [done|]. by apply ring_rotate.
    + intros b Hb. apply Hfr. intros Hb'. apply Hb.
      apply elem_of_app. apply elem_of_app in Hb'. tauto.
    + done.
  - (* the only node *)
    apply last_None in Hz. apply app_eq_nil in Hz as [-> ->].
    destruct Hrot as [_ (n & Ha & Hpv & Hnx & _)]. cbn in Hpv, Hnx.
    eexists. split.
    { erewrite bind_some; [|by apply load_some].
      goal_decide Hself; [reflexivity|].
      destruct Hself. by rewrite Hpv, Hnx. }
    split; [|done]. split; [done|]. split; [apply NoDup_nil_2 | done].
Qed.

Lemma call_free_elt_some m a n fe :
  heap m !! a = Some n →
  call_free_elt fe (Some a) m =
  Some (tt, Mem (heap m) (brk m) (freed m ++ if fe then [elt n] else [])).
Proof.
  intros Ha. unfold call_free_elt. destruct fe.
  - by erewrite bind_some; [|by apply load_some].
  - unfold ret. rewrite app_nil_r. by destruct m.
Qed.

Lemma free_node_some m a :
  is_Some (heap m !! a) →
  free_node (Some a) m = Some (tt, Mem (delete a (heap m)) (brk m) (freed m)).
Proof. intros [n Ha]. unfold free_node. by rewrite Ha. Qed.

Lemma node_data_delete h a b : b ≠ a → node_data (delete a h) b = node_data h b.
Proof. intros Hne. unfold node_data. by rewrite lookup_delete_ne. Qed.

Lemma ring_frame h h' l : ring h l → (∀ b, b ∈ l → h' !! b = h !! b) → ring h' l.
Proof.
  intros [Hnd Hr] Hh. split; [done|]. destruct l as [|a l]; [done|].
  by eapply dseg_frame.
Qed.

Lemma delete_spec m p l1 a l2 fe :
  chain (heap m) p (l1 ++ a :: l2) →
  ∃ m' n, heap m !! a = Some n ∧
    dll_delete p (Some a) fe m = Some (head (l1 ++ l2), m') ∧
    chain (heap m') (head (l1 ++ l2)) (l1 ++ l2) ∧
    brk m' = brk m ∧
    freed m' = freed m ++ (if fe then [elt n] else []) ∧
    heap m' !! a = None ∧
    (∀ b, b ∉ l1 ++ l2 → b ≠ a → heap m' !! b = heap m !! b) ∧
    (∀ b, b ≠ a → node_data (heap m') b = node_data (heap m) b).
Proof.
  intros Hc. pose proof (chain_split_head _ _ _ _ _ Hc) as Hhead.
  destruct Hc as [Hp Hring].
  assert (a ∉ l1 ++ l2) as Hal.
  { destruct Hring as [Hnd _]. apply NoDup_app in Hnd as (H1 & H12 & H2).
    apply NoDup_cons in H2 as [H2 _]. intros Hin.
    apply elem_of_app in Hin as [Hin|Hin]; [|done].
    apply (H12 a Hin). left. }
  pose proof (ring_rotate _ l1 (a :: l2) Hring) as Hrot. cbn [app] in Hrot.
  assert (∃ c, p = Some c) as [c Hpc].
  { rewrite Hp. destruct l1; cbn; eauto. }
  unfold dll_delete. rewrite Hpc.
  destruct (last (l2 ++ l1)) as [z|] eqn:Hz.
  - (* at least two nodes *)
    destruct (head (l2 ++ l1)) as [x|] eqn:Hx.
    2:{ apply head_None in Hx. rewrite Hx in Hz. done. }
    destruct (unlink_ring _ _ _ _ _ Hrot Hx Hz)
      as (Hr' & Hxa & Hza & (n & Ha & Hpv & Hnx) & Hsx & Hsz & Hfr & Hdat).
    eexists _, n. split; [done|]. split.
    { erewrite bind_some; [|by apply load_some].
      goal_decide Hself; [destruct Hself; congruence|].
      erewrite bind_some; [|by apply call_free_elt_some].
      erewrite bind_some; [|by apply load_some].
      rewrite Hnx, Hpv.
      erewrite bind_some; [|by eapply set_prev_some].
      erewrite bind_some;
        [|apply load_some; cbn [heap]; by rewrite lookup_alter_ne].
      rewrite Hnx, Hpv.
      erewrite bind_some;
        [|eapply set_next_some; cbn [heap]; by rewrite lookup_alter_is_Some].
      erewrite bind_some;
        [|apply load_some; cbn [heap]; by rewrite !lookup_alter_ne].
      erewrite bind_some;
        [|apply free_node_some; cbn [heap]; rewrite !lookup_alter_is_Some; eauto].
      unfold ret. rewrite Hnx. f_equal. f_equal.
      goal_decide Hca.
      - rewrite Hpc in Hhead. rewrite (proj1 Hhead Hca) in Hx |- *.
        rewrite app_nil_r in Hx. cbn [app]. by rewrite Hx.
      - rewrite <- Hpc, Hp.
        destruct l1 as [|b l1]; [|reflexivity].
        destruct Hca. rewrite Hpc in Hhead. by apply Hhead. }
    cbn [heap brk freed].
    split; [|split; [done|split; [done|split; [apply lookup_delete_eq|split]]]].
    + split; [done|]. apply (ring_frame _ _ _ (ring_rotate _ _ _ Hr')).
      intros b Hb. rewrite lookup_delete_ne; [done|]. by intros ->.
    + intros b Hb Hba. rewrite lookup_delete_ne by done. apply Hfr.
      intros Hb'. apply Hb.
      apply elem_of_app. apply elem_of_app in Hb'. tauto.
    + intros b Hba. by rewrite node_data_delete.
  - (* the only node *)
    apply last_None in Hz. apply app_eq_nil in Hz as [-> ->].
    destruct Hrot as [_ (n & Ha & Hpv & Hnx & _)]. cbn in Hpv, Hnx.
    eexists _, n. split; [done|]. split.
    { erewrite bind_some; [|by apply load_some].
      goal_decide Hself; [|destruct Hself; by rewrite Hpv, Hnx].
      erewrite bind_some; [|by apply call_free_elt_some].
      erewrite bind_some; [|apply free_node_some; cbn [heap]; eauto].
      reflexivity. }
    cbn [heap brk freed app head].
    split; [|split; [done|split; [done|split; [apply lookup_delete_eq|split]]]].
    + split; [done|]. split; [apply NoDup_nil_2 | done].
    + intros b _ Hba. by rewrite lookup_delete_ne.
    + intros b Hba. by rewrite node_data_delete.
Qed.

(** ** [dll_prepend_new] *)

Lemma node_data_is_Some h a : is_Some (node_data h a) ↔ is_Some (h !! a).
Proof. unfold node_data. apply fmap_is_Some. Qed.

Lemma same_data_same_dom h h' :
  (∀ b, node_data h' b = node_data h b) →
  ∀ b, is_Some (h' !! b) ↔ is_Some (h !! b).
Proof. intros Hd b. by rewrite <- !node_data_is_Some, Hd. Qed.

Lemma prepend_new_spec m p l k e ks es :
  chain (heap m) p l → heap_bound m →
  ∃ m', dll_prepend_new p k e ks es m = Some (Some (brk m), m') ∧
    chain (heap m') (Some (brk m)) (brk m :: l) ∧
    brk m' = Pos.succ (brk m) ∧ freed m' = freed m ∧
    (brk m ∉ l) ∧ heap m !! (brk m) = None ∧
    node_data (heap m') (brk m) =
      Some (memcpy (replicate (Z.to_nat ks) x00) k ks,
            memcpy (replicate (Z.to_nat es) x00) e es) ∧
    (∀ b, b ∉ brk m :: l → heap m' !! b = heap m !! b) ∧
    (∀ b, b ≠ brk m → node_data (heap m') b = node_data (heap m) b).
Proof.
  intros Hc Hb. set (a := brk m).
  assert (heap m !! a = None) as Hfresh.
  { apply eq_None_not_Some. intros Hs. apply Hb in Hs. unfold a in Hs. lia. }
  assert (a ∉ l) as Hal.
  { intros Hin. destruct Hc as [_ Hr]. pose proof (ring_in _ _ _ Hr Hin) as Hs.
    rewrite Hfresh in Hs. by destruct Hs. }
  set (n2 := Node (memcpy (replicate (Z.to_nat ks) x00) k ks)
                  (memcpy (replicate (Z.to_nat es) x00) e es) None None).
  set (m2 := Mem (<[a := n2]> (heap m)) (Pos.succ (brk m)) (freed m)).
  assert (chain (heap m2) p l) as Hc2.
  { destruct Hc as [Hp Hr]. split; [done|]. apply (ring_frame _ _ _ Hr).
    intros b Hin. cbn [m2 heap]. rewrite lookup_insert_ne; [done|]. by intros ->. }
  destruct (prepend_spec m2 p l a n2 Hc2 ltac:(apply lookup_insert_eq) Hal)
    as (m' & Hrun & Hc' & Hbrk & Hfreed & Hfr & Hdat).
  exists m'. split.
  { unfold dll_prepend_new. 
    erewrite bind_some; [|reflexivity].
    erewrite bind_some; [|apply load_some; cbn [heap]; apply lookup_insert_eq].
    erewrite bind_some.
    2:{ unfold store. cbn [heap brk freed]. rewrite lookup_insert_eq.
        rewrite insert_insert_eq. reflexivity. }
    exact Hrun. }
  split; [done|]. split; [done|]. split; [done|]. split; [done|]. split; [done|].
  split; [|split].
  - rewrite Hdat. unfold node_data. cbn [m2 heap]. by rewrite lookup_insert_eq.
  - intros b Hnin. rewrite Hfr by done. cbn [m2 heap].
    rewrite lookup_insert_ne; [done|]. intros ->. apply Hnin. left.
  - intros b Hne. rewrite Hdat. unfold node_data. cbn [m2 heap].
    by rewrite lookup_insert_ne.
Qed.

(** ** The search of a ring *)

Lemma scan_visited_prefix h cmp ks l k :
  (scan h cmp ks l k).2 `prefix_of` l.
Proof.
  induction l as [|a l IH]; cbn [scan]; [done|].
  destruct (h !! a) as [n|]; [|apply prefix_nil].
  destruct (key_equal cmp ks (key n) k); cbn [snd].
  - by apply prefix_cons, prefix_nil.
  - destruct (scan h cmp ks l k) as [r v]. cbn [snd] in *. by apply prefix_cons.
Qed.

(** C10. [dll_search_key] returns [NULL] without reading any node when the
    head pointer or the key pointer is null, and it never changes the
    memory. On a ring rooted at the head it returns the first node, in
    [next] order from the head, whose key region has [memcmp] zero against
    the probe over [key_size] bytes, or [NULL] if there is none; the nodes
    it reads are the nodes up to that one (all of them when there is
    none), each once. *)
Theorem dll_search_key_first_match m ks p l k :
  dll_search_key_visit (heap m) None ks None k = Some (None, []) ∧
  dll_search_key_visit (heap m) None ks p None = Some (None, []) ∧
  (∀ r m', dll_search_key None ks p k m = Some (r, m') → m' = m) ∧
  (chain (heap m) p l → ∀ kb,
   ∃ r v, dll_search_key_visit (heap m) None ks p (Some kb) = Some (r, v) ∧
     dll_search_key None ks p (Some kb) m = Some (r, m) ∧
     NoDup v ∧
     ((r = None ∧ v = l ∧
       ∀ a n, a ∈ l → heap m !! a = Some n → memcmp (key n) kb ks ≠ 0) ∨
      (∃ l1 a l2 n, l = l1 ++ a :: l2 ∧ r = Some a ∧ v = l1 ++ [a] ∧
         heap m !! a = Some n ∧ memcmp (key n) kb ks = 0 ∧
         ∀ b nb, b ∈ l1 → heap m !! b = Some nb →
                 memcmp (key nb) kb ks ≠ 0))).
Proof.
  split; [reflexivity|]. split; [by destruct p|]. split.
  { intros r m'. unfold dll_search_key.
    destruct (dll_search_key_visit _ _ _ _ _) as [[r' v]|]; [|done].
    by intros [= _ <-]. }
  intros Hc kb.
  pose proof (search_visit_spec _ None ks _ _ kb Hc) as Hv.
  pose proof (search_key_spec m None ks _ _ kb Hc) as Hs.
  destruct (scan (heap m) None ks l kb) as [r v] eqn:Hscan. cbn [fst] in Hs.
  exists r, v. split; [done|]. split; [done|].
  destruct Hc as [_ Hring].
  assert (NoDup v) as Hnd.
  { pose proof (scan_visited_prefix (heap m) None ks l kb) as Hpre.
    rewrite Hscan in Hpre. cbn [snd] in Hpre.
    destruct Hpre as [w ->]. destruct Hring as [Hnd _].
    by apply NoDup_app in Hnd as [Hnd _]. }
  split; [done|].
  destruct (scan_spec (heap m) None ks l kb) as
    [[Hs' Hno] | (l1 & a & l2 & n & Hl & Hs' & Ha & Hk & Hno)].
  { intros a Ha. by eapply ring_in. }
  - left. rewrite Hscan in Hs'. injection Hs' as -> ->. repeat split.
    intros a n Ha Hn Hz. specialize (Hno a n Ha Hn).
    unfold key_equal in Hno. by rewrite bool_decide_eq_false in Hno.
  - right. rewrite Hscan in Hs'. injection Hs' as -> ->.
    exists l1, a, l2, n. repeat split; try done.
    + unfold key_equal in Hk. by apply bool_decide_eq_true in Hk.
    + intros b nb Hb Hnb Hz. specialize (Hno b nb Hb Hnb).
      unfold key_equal in Hno. by rewrite bool_decide_eq_false in Hno.
Qed.

Lemma ring3_chain : chain (heap ring3) (Some 3%positive) [3%positive; 2%positive; 1%positive].
Proof.
  split; [reflexivity|]. split.
  - solve_nodup.
  - cbn. repeat (eexists; split; [reflexivity|]; split; [reflexivity|]; split; [reflexivity|]).
    exact I.
Qed.

Lemma dll_search_key_first_match_witness :
  ∃ r v, dll_search_key_visit (heap ring3) None 2 (Some 3%positive)
           (Some [x08; x06]) = Some (r, v) ∧
         dll_search_key None 2 (Some 3%positive) (Some [x08; x06]) ring3
           = Some (r, ring3) ∧ NoDup v.
Proof.
  destruct (dll_search_key_first_match ring3 2 (Some 3%positive)
              [3%positive; 2%positive; 1%positive] None)
    as (_ & _ & _ & H).
  destruct (H ring3_chain [x08; x06]) as (r & v & H1 & H2 & H3 & _).
  by exists r, v.
Defined.

(** ** Buckets *)

Lemma hash_range sz ht k : 0 < count ht → 0 ≤ hash sz ht k < count ht.
Proof. intros. unfold hash. by apply Z.mod_pos_bound. Qed.

Lemma hash_params sz ht ht' k :
  key_size ht' = key_size ht → rdc_key ht' = rdc_key ht →
  count ht' = count ht → hash sz ht' k = hash sz ht k.
Proof. unfold hash. by intros -> -> ->. Qed.

Lemma bucket_lookup ht m chs ix :
  tbl_repr ht m chs → 0 ≤ ix < count ht →
  ∃ p l, key_elts ht !! Z.to_nat ix = Some p ∧ chs !! Z.to_nat ix = Some l ∧
         chain (heap m) p l.
Proof.
  intros (Hc & Hlen & Hch & _) Hix.
  destruct (lookup_lt_is_Some_2 (key_elts ht) (Z.to_nat ix)) as [p Hp]; [lia|].
  destruct (Forall2_lookup_l _ _ _ _ _ Hch Hp) as (l & Hl & Hpl).
  by exists p, l.
Qed.

Lemma bucket_some ht ix p m :
  key_elts ht !! Z.to_nat ix = Some p → bucket ht ix m = Some (p, m).
Proof. unfold bucket, lift. by intros ->. Qed.

Lemma node_count_insert (chs : list (list addr)) i l l' :
  chs !! i = Some l →
  (node_count (<[i := l']> chs) + length l = node_count chs + length l')%nat.
Proof.
  unfold node_count. revert i. induction chs as [|c chs IH]; intros i Hi; [done|].
  destruct i as [|i].
  - cbn in Hi. simplify_eq. cbn [insert list_insert concat]. rewrite !length_app. lia.
  - cbn in Hi. specialize (IH i Hi).
    change (<[S i:=l']> (c :: chs)) with (c :: <[i:=l']> chs).
    cbn [concat]. rewrite !length_app. lia.
Qed.

Lemma in_chains_insert (chs : list (list addr)) i l l' a :
  chs !! i = Some l → disjoint_chains chs →
  in_chains (<[i := l']> chs) a ↔ a ∈ l' ∨ (in_chains chs a ∧ a ∉ l).
Proof.
  intros Hi Hdis. split.
  - intros (j & lj & Hj & Ha).
    destruct (decide (i = j)) as [->|Hne].
    + rewrite list_lookup_insert_eq in Hj by (by eapply lookup_lt_Some).
      simplify_eq. by left.
    + rewrite list_lookup_insert_ne in Hj by done. right. split; [by exists j, lj|].
      intros Hal. destruct Hne. by eapply Hdis.
  - intros [Ha | [(j & lj & Hj & Ha) Hnl]].
    + exists i, l'. split; [|done].
      apply list_lookup_insert_eq. by eapply lookup_lt_Some.
    + exists j, lj. split; [|done]. rewrite list_lookup_insert_ne; [done|].
      intros ->. simplify_eq. done.
Qed.

Lemma disjoint_insert (chs : list (list addr)) i l l' :
  chs !! i = Some l → disjoint_chains chs →
  (∀ a, a ∈ l' → a ∈ l ∨ ¬ in_chains chs a) →
  disjoint_chains (<[i := l']> chs).
Proof.
  intros Hi Hdis Hnew j1 j2 l1 l2 b H1 H2 Hb1 Hb2.
  assert (i < length chs)%nat as Hlt by (by eapply lookup_lt_Some).
  destruct (decide (i = j1)) as [<-|Hn1]; destruct (decide (i = j2)) as [<-|Hn2];
    try done.
  - rewrite list_lookup_insert_eq in H1 by done.
    rewrite list_lookup_insert_ne in H2 by done. simplify_eq.
    destruct (Hnew b Hb1) as [Hbl | Hout].
    + by eapply (Hdis i j2).
    + destruct Hout. by exists j2, l2.
  - rewrite list_lookup_insert_eq in H2 by done.
    rewrite list_lookup_insert_ne in H1 by done. simplify_eq.
    destruct (Hnew b Hb2) as [Hbl | Hout].
    + symmetry. by eapply (Hdis i j1).
    + destruct Hout. by exists j1, l1.
  - rewrite list_lookup_insert_ne in H1, H2 by done. by eapply Hdis.
Qed.

(** The other rings stay what they are when one bucket is rewritten and
    the heap changes on the nodes of that bucket only. *)
Lemma chains_update h h' (ke : list ptr) (chs : list (list addr)) i l p' l' :
  Forall2 (chain h) ke chs → disjoint_chains chs → chs !! i = Some l →
  chain h' p' l' →
  (∀ b, in_chains chs b → b ∉ l → h' !! b = h !! b) →
  Forall2 (chain h') (<[i := p']> ke) (<[i := l']> chs).
Proof.
  intros Hch Hdis Hi Hc' Hfr.
  apply Forall2_same_length_lookup. split.
  { rewrite !length_insert. by eapply Forall2_length. }
  intros j p lj Hp Hlj.
  destruct (decide (i = j)) as [->|Hne].
  - rewrite list_lookup_insert_eq in Hp
      by (rewrite (Forall2_length _ _ _ Hch); by eapply lookup_lt_Some).
    rewrite list_lookup_insert_eq in Hlj by (by eapply lookup_lt_Some).
    by simplify_eq.
  - rewrite list_lookup_insert_ne in Hp by done.
    rewrite list_lookup_insert_ne in Hlj by done.
    destruct (Forall2_lookup_lr _ _ _ _ _ _ Hch Hp Hlj) as [Hhd Hring].
    split; [done|]. apply (ring_frame _ _ _ Hring).
    intros b Hb. apply Hfr; [by exists j, lj|].
    intros Hbl. destruct Hne. by eapply Hdis.
Qed.

Lemma chains_frame h h' (ke : list ptr) (chs : list (list addr)) :
  Forall2 (chain h) ke chs →
  (∀ b, in_chains chs b → h' !! b = h !! b) →
  Forall2 (chain h') ke chs.
Proof.
  intros Hch Hfr. apply Forall2_same_length_lookup.
  split; [by eapply Forall2_length|].
  intros j p lj Hp Hlj.
  destruct (Forall2_lookup_lr _ _ _ _ _ _ Hch Hp Hlj) as [Hhd Hring].
  split; [done|]. apply (ring_frame _ _ _ Hring).
  intros b Hb. apply Hfr. by exists j, lj.
Qed.

Lemma in_chains_allocated ht m chs a :
  tbl_repr ht m chs → in_chains chs a → is_Some (heap m !! a).
Proof.
  intros (_ & _ & Hch & _) (i & l & Hl & Ha).
  destruct (Forall2_lookup_r _ _ _ _ _ Hch Hl) as (p & _ & _ & Hring).
  by eapply ring_in.
Qed.

(** ** Search, removal and deletion in a table *)

Lemma search_run sz ht m chs k :
  tbl_repr ht m chs →
  ∃ l, chs !! Z.to_nat (hash sz ht k) = Some l ∧
    ht_divchn_search sz ht k m =
    Some (match (scan (heap m) (cmp_key ht) (key_size ht) l k).1 with
          | Some a => elt <$> heap m !! a
          | None => None
          end, m).
Proof.
  intros Hrepr.
  destruct (bucket_lookup ht m chs (hash sz ht k) Hrepr)
    as (p & l & Hp & Hl & Hc); [apply hash_range, Hrepr|].
  exists l. split; [done|]. unfold ht_divchn_search.
  erewrite bind_some; [|by apply bucket_some].
  erewrite bind_some; [|by apply search_key_spec].
  destruct (scan_spec (heap m) (cmp_key ht) (key_size ht) l k)
    as [[Hs _] | (l1 & a & l2 & n & -> & Hs & Ha & _)].
  { intros a Ha. destruct Hc as [_ Hr]. by eapply ring_in. }
  - by rewrite Hs.
  - rewrite Hs. cbn [fst]. erewrite bind_some; [|by apply load_some].
    by rewrite Ha.
Qed.

(** Taking the node [a] out of the chain of bucket [ix] with [dll_delete]. *)
Lemma unchain_node sz ht m chs ix p l1 a l2 fe nn :
  tbl_repr ht m chs → 0 ≤ ix →
  key_elts ht !! Z.to_nat ix = Some p →
  chs !! Z.to_nat ix = Some (l1 ++ a :: l2) →
  let ht' := set_num_elts (set_bucket ht ix (head (l1 ++ l2))) nn in
  let chs' := <[Z.to_nat ix := l1 ++ l2]> chs in
  ∃ m' n, heap m !! a = Some n ∧
    dll_delete p (Some a) fe m = Some (head (l1 ++ l2), m') ∧
    tbl_repr ht' m' chs' ∧
    brk m' = brk m ∧
    freed m' = freed m ++ (if fe then [elt n] else []) ∧
    heap m' !! a = None ∧
    (∀ b, b ≠ a → node_data (heap m') b = node_data (heap m) b) ∧
    (∀ b, in_chains chs' b ↔ in_chains chs b ∧ b ≠ a) ∧
    (node_count chs' + 1 = node_count chs)%nat ∧
    (hash_inv sz ht m chs → hash_inv sz ht' m' chs') ∧
    (data_sized ht m chs → data_sized ht' m' chs').
Proof.
  intros Hrepr Hix Hp Hl ht' chs'.
  pose proof Hrepr as (Hcnt & Hlen & Hch & Hdis & Hbound).
  destruct (Forall2_lookup_lr _ _ _ _ _ _ Hch Hp Hl) as [Hhd Hring].
  destruct (delete_spec m p l1 a l2 fe (conj Hhd Hring))
    as (m' & n & Ha & Hrun & Hc' & Hbrk & Hfreed & Hgone & Hfr & Hdat).
  assert (NoDup (l1 ++ a :: l2)) as Hnd by apply Hring.
  assert (a ∉ l1 ++ l2) as Hal.
  { apply NoDup_app in Hnd as (H1 & H12 & H2).
    apply NoDup_cons in H2 as [H2 _]. intros Hin.
    apply elem_of_app in Hin as [Hin|Hin]; [|done].
    apply (H12 a Hin). left. }
  assert (∀ b, in_chains chs' b ↔ in_chains chs b ∧ b ≠ a) as Hin'.
  { intros b. unfold chs'. rewrite (in_chains_insert chs _ _ _ b Hl Hdis). split.
    - intros [Hb | [Hb Hnb]].
      + split; [|by intros ->]. exists (Z.to_nat ix), (l1 ++ a :: l2).
        split; [done|]. apply elem_of_app in Hb as [Hb|Hb]; apply elem_of_app;
          [by left | right; by right].
      + split; [done|]. intros ->. apply Hnb. apply elem_of_app. right. left.
    - intros [Hb Hne]. destruct (decide (b ∈ l1 ++ a :: l2)) as [Hbl|Hbl];
        [left | by right].
      apply elem_of_app in Hbl as [Hbl|Hbl]; apply elem_of_app; [by left|].
      apply elem_of_cons in Hbl as [->|Hbl]; [done | by right]. }
  exists m', n. split; [done|]. split; [done|].
  split; [|split; [done|split; [done|split; [done|split; [done|split;
          [done|split; [|split]]]]]]].
  - (* representation *)
    split; [done|]. split; [unfold ht'; cbn; by rewrite length_insert|].
    split; [|split].
    + unfold ht'. cbn [key_elts set_num_elts set_bucket set_key_elts].
      eapply chains_update; try done.
      intros b Hb Hbl. apply Hfr.
      * intros Hb'. apply Hbl. apply elem_of_app in Hb' as [?|?];
          apply elem_of_app; [by left | right; by right].
      * intros ->. apply Hbl. apply elem_of_app. right. left.
    + eapply disjoint_insert; try done. intros b Hb. left.
      apply elem_of_app in Hb as [?|?]; apply elem_of_app; [by left | right; by right].
    + intros b Hb. rewrite Hbrk. apply Hbound.
      destruct (decide (b = a)) as [->|Hne]; [by eexists|].
      apply node_data_is_Some. rewrite <- Hdat by done. by apply node_data_is_Some.
  - pose proof (node_count_insert chs _ _ (l1 ++ l2) Hl) as Hc.
    fold chs' in Hc. rewrite !length_app in Hc. cbn [length] in Hc. lia.
  - intros Hh i l b nb Hi Hb Hnb.
    assert (b ≠ a) as Hne by (intros ->; congruence).
    assert (in_chains chs' b) as Hinb by (by exists i, l).
    apply Hin' in Hinb as [(j & lj & Hj & Hbj) _].
    assert (node_data (heap m) b = Some (key nb, elt nb)) as Hd.
    { rewrite <- Hdat by done. unfold node_data. by rewrite Hnb. }
    unfold node_data in Hd. destruct (heap m !! b) as [nb0|] eqn:Hb0; [|done].
    cbn in Hd. injection Hd as Hk He.
    rewrite (hash_params sz ht ht') by done. rewrite <- Hk.
    rewrite (Hh j lj b nb0 Hj Hbj Hb0). f_equal.
    (* the node is on the same chain as before *)
    destruct (decide (j = Z.to_nat ix)) as [->|Hji].
    + unfold chs' in Hi. destruct (decide (i = Z.to_nat ix)) as [->|Hii]; [done|].
      rewrite list_lookup_insert_ne in Hi by done. by eapply Hdis.
    + unfold chs' in Hi. destruct (decide (i = Z.to_nat ix)) as [->|Hii].
      * rewrite list_lookup_insert_eq in Hi by (by eapply lookup_lt_Some).
        simplify_eq. destruct Hji. eapply Hdis; try done.
        apply elem_of_app in Hb as [?|?]; apply elem_of_app; [by left | right; by right].
      * rewrite list_lookup_insert_ne in Hi by done. by eapply Hdis.
  - intros Hs b nb Hinb Hnb.
    assert (b ≠ a) as Hne by (intros ->; congruence).
    apply Hin' in Hinb as [Hinb _].
    assert (node_data (heap m) b = Some (key nb, elt nb)) as Hd.
    { rewrite <- Hdat by done. unfold node_data. by rewrite Hnb. }
    unfold node_data in Hd. destruct (heap m !! b) as [nb0|] eqn:Hb0; [|done].
    cbn in Hd. injection Hd as Hk He. rewrite <- Hk, <- He.
    by apply (Hs b nb0).
Qed.

(** ** Rethreading *)

Lemma set_bucket_fields ht ix p :
  key_size (set_bucket ht ix p) = key_size ht ∧
  rdc_key (set_bucket ht ix p) = rdc_key ht ∧
  count (set_bucket ht ix p) = count ht ∧
  cmp_key (set_bucket ht ix p) = cmp_key ht.
Proof. done. Qed.

Lemma node_data_key h a n : h !! a = Some n → node_data h a = Some (key n, elt n).
Proof. unfold node_data. by intros ->. Qed.

Lemma node_data_eq h h' a n n' :
  node_data h' a = node_data h a → h !! a = Some n → h' !! a = Some n' →
  key n' = key n ∧ elt n' = elt n.
Proof.
  unfold node_data. intros Hd Ha Ha'. rewrite Ha, Ha' in Hd. cbn in Hd.
  by injection Hd.
Qed.

Lemma rethread_chain_spec sz l :
  ∀ fuel ht m nch hd,
  (length l ≤ fuel)%nat → chain (heap m) hd l →
  0 < count ht → length (key_elts ht) = Z.to_nat (count ht) →
  Forall2 (chain (heap m)) (key_elts ht) nch → disjoint_chains nch →
  (∀ a, a ∈ l → ¬ in_chains nch a) →
  ∃ ht' m' nch', rethread_chain sz fuel ht hd m = Some (ht', m') ∧
    ht' = set_key_elts ht (key_elts ht') ∧
    length (key_elts ht') = length (key_elts ht) ∧
    Forall2 (chain (heap m')) (key_elts ht') nch' ∧ disjoint_chains nch' ∧
    (∀ b, in_chains nch' b ↔ in_chains nch b ∨ b ∈ l) ∧
    node_count nch' = (node_count nch + length l)%nat ∧
    brk m' = brk m ∧ freed m' = freed m ∧
    (∀ b, node_data (heap m') b = node_data (heap m) b) ∧
    (∀ b, b ∉ l → ¬ in_chains nch b → heap m' !! b = heap m !! b) ∧
    (∀ i li b n, nch' !! i = Some li → b ∈ li → heap m' !! b = Some n →
       (∃ li0, nch !! i = Some li0 ∧ b ∈ li0) ∨
       hash sz ht (key n) = Z.of_nat i).
Proof.
  induction l as [|a r IH]; intros fuel ht m nch hd Hf Hc Hcnt Hlen Hch Hdis Hnew.
  - (* the chain is empty *)
    destruct Hc as [-> _]. exists ht, m, nch.
    split; [by destruct fuel|]. split; [by destruct ht|].
    split; [done|]. split; [done|]. split; [done|].
    split; [intros b; split; [by left | intros [?|Hb]; [done|by apply elem_of_nil in Hb]]|].
    split; [cbn; lia|]. split; [done|]. split; [done|]. split; [done|].
    split; [done|]. intros i li b n Hi Hb _. left. by exists li.
  - destruct fuel as [|fuel]; [cbn in Hf; lia|].
    pose proof Hc as [Hhd Hring]. cbn [head] in Hhd. subst hd.
    pose proof (proj1 Hring) as Hnd. apply NoDup_cons in Hnd as [Har Hndr].
    (* the head node leaves the old chain *)
    destruct (remove_spec m (Some a) [] a r Hc)
      as (m1 & Hrun1 & Hc1 & Hbrk1 & Hfreed1 & Hfr1 & Hdat1).
    cbn [app] in *.
    destruct (ring_in _ _ a Hring ltac:(left)) as [n Hn].
    assert (heap m1 !! a = Some n) as Hn1 by (by rewrite Hfr1).
    (* and enters the bucket its key hashes to *)
    set (ix := hash sz ht (key n)).
    assert (0 ≤ ix < count ht) as Hix by (by apply hash_range).
    destruct (lookup_lt_is_Some_2 (key_elts ht) (Z.to_nat ix)) as [p2 Hp2]; [lia|].
    destruct (Forall2_lookup_l _ _ _ _ _ Hch Hp2) as (l2 & Hl2 & Hc2).
    assert (∀ b, in_chains nch b → heap m1 !! b = heap m !! b) as Hfr1'.
    { intros b Hb. apply Hfr1. intros Hbr. apply (Hnew b); [by right | done]. }
    assert (a ∉ l2) as Hal2.
    { intros Hin. apply (Hnew a); [left | by exists (Z.to_nat ix), l2]. }
    assert (chain (heap m1) p2 l2) as Hc2'.
    { destruct Hc2 as [? Hr2]. split; [done|]. apply (ring_frame _ _ _ Hr2).
      intros b Hb. apply Hfr1'. by exists (Z.to_nat ix), l2. }
    destruct (prepend_spec m1 p2 l2 a n Hc2' Hn1 Hal2)
      as (m2 & Hrun2 & Hc3 & Hbrk2 & Hfreed2 & Hfr2 & Hdat2).
    set (ht1 := set_bucket ht ix (Some a)).
    set (nch1 := <[Z.to_nat ix := a :: l2]> nch).
    assert (∀ b, in_chains nch1 b ↔ in_chains nch b ∨ b = a) as Hin1.
    { intros b. unfold nch1. rewrite (in_chains_insert nch _ _ _ b Hl2 Hdis). split.
      - intros [Hb | [Hb _]]; [|by left].
        apply elem_of_cons in Hb as [->|Hb]; [by right|].
        left. by exists (Z.to_nat ix), l2.
      - intros [Hb | ->]; [|left; left].
        destruct (decide (b ∈ l2)); [left; by right | by right]. }
    destruct (IH fuel ht1 m2 nch1 (head r)) as
      (ht' & m' & nch' & Hrun & Hht' & Hlen' & Hch' & Hdis' & Hin' & Hcount' &
       Hbrk' & Hfreed' & Hdat' & Hfr' & Hplace').
    { cbn in Hf. lia. }
    { destruct Hc1 as [? Hr1]. split; [done|]. apply (ring_frame _ _ _ Hr1).
      intros b Hb. apply Hfr2. intros Hb'.
      apply elem_of_cons in Hb' as [->|Hb']; [done|].
      apply (Hnew b); [by right | by exists (Z.to_nat ix), l2]. }
    { done. }
    { unfold ht1. cbn. by rewrite length_insert. }
    { unfold ht1, nch1. cbn [key_elts set_bucket set_key_elts].
      eapply (chains_update (heap m)); try done.
      intros b Hb Hbl. rewrite Hfr2; [by apply Hfr1'|].
      intros Hb'. apply elem_of_cons in Hb' as [->|Hb']; [|done].
      apply (Hnew a); [left | done]. }
    { unfold nch1. eapply disjoint_insert; try done. intros b Hb.
      apply elem_of_cons in Hb as [->|Hb]; [right | by left].
      apply Hnew. left. }
    { intros b Hb Hin. apply Hin1 in Hin as [Hin | ->]; [|done].
      apply (Hnew b); [by right | done]. }
    exists ht', m', nch'. split.
    { cbn [rethread_chain].
      erewrite bind_some; [|exact Hrun1].
      erewrite bind_some; [|by apply load_some].
      fold ix. erewrite bind_some; [|by apply bucket_some].
      erewrite bind_some; [|exact Hrun2].
      exact Hrun. }
    split; [rewrite Hht'; by destruct ht|].
    split; [rewrite Hlen'; unfold ht1; cbn; by rewrite length_insert|].
    split; [done|]. split; [done|]. split.
    { intros b. rewrite Hin', Hin1, elem_of_cons. tauto. }
    split.
    { rewrite Hcount'. pose proof (node_count_insert nch _ _ (a :: l2) Hl2) as Hc'.
      fold nch1 in Hc'. cbn [length] in *. lia. }
    split; [congruence|]. split; [congruence|].
    split; [intros b; by rewrite Hdat', Hdat2, Hdat1|].
    split.
    { intros b Hbl Hbn. apply not_elem_of_cons in Hbl as [Hba Hbr].
      rewrite Hfr'; [|done|]; [rewrite Hfr2; [by apply Hfr1|]|].
      - intros Hb'. apply elem_of_cons in Hb' as [->|Hb']; [done|].
        apply Hbn. by exists (Z.to_nat ix), l2.
      - intros Hb'. apply Hin1 in Hb' as [?|?]; done. }
    intros i li b nb Hi Hb Hnb.
    destruct (Hplace' i li b nb Hi Hb Hnb) as [(li0 & Hi0 & Hb0) | Hh].
    + unfold nch1 in Hi0. destruct (decide (i = Z.to_nat ix)) as [->|Hne].
      * rewrite list_lookup_insert_eq in Hi0 by (by eapply lookup_lt_Some).
        simplify_eq. apply elem_of_cons in Hb0 as [->|Hb0].
        -- right. 
           assert (node_data (heap m') a = node_data (heap m) a) as Hd
             by (by rewrite Hdat', Hdat2, Hdat1).
           destruct (node_data_eq _ _ _ _ _ Hd Hn Hnb) as [-> _].
           fold ix. lia.
        -- left. by exists l2.
      * rewrite list_lookup_insert_ne in Hi0 by done. left. by exists li0.
    + right. by rewrite <- Hh.
Qed.

Lemma rethread_spec sz n :
  ∀ i ht m (oke : list ptr) (och : list (list addr)) nch,
  (n + i = length oke)%nat → length och = length oke →
  (∀ j p l, (i ≤ j)%nat → oke !! j = Some p → och !! j = Some l →
            chain (heap m) p l) →
  disjoint_chains och →
  0 < count ht → length (key_elts ht) = Z.to_nat (count ht) →
  Forall2 (chain (heap m)) (key_elts ht) nch → disjoint_chains nch →
  (∀ j l b, (i ≤ j)%nat → och !! j = Some l → b ∈ l → ¬ in_chains nch b) →
  ∃ ht' m' nch', rethread sz n (Z.of_nat i) oke ht m = Some (ht', m') ∧
    ht' = set_key_elts ht (key_elts ht') ∧
    length (key_elts ht') = length (key_elts ht) ∧
    Forall2 (chain (heap m')) (key_elts ht') nch' ∧ disjoint_chains nch' ∧
    (∀ b, in_chains nch' b ↔
          in_chains nch b ∨ ∃ j l, (i ≤ j)%nat ∧ och !! j = Some l ∧ b ∈ l) ∧
    node_count nch' = (node_count nch + length (concat (drop i och)))%nat ∧
    brk m' = brk m ∧ freed m' = freed m ∧
    (∀ b, node_data (heap m') b = node_data (heap m) b) ∧
    (∀ k lk b nb, nch' !! k = Some lk → b ∈ lk → heap m' !! b = Some nb →
       (∃ lk0, nch !! k = Some lk0 ∧ b ∈ lk0) ∨
       hash sz ht (key nb) = Z.of_nat k).
Proof.
  induction n as [|n IH];
    intros i ht m oke och nch Hn Hlo Hold Hdo Hcnt Hlen Hch Hdis Hnew.
  - exists ht, m, nch. split; [done|]. split; [by destruct ht|].
    split; [done|]. split; [done|]. split; [done|]. split.
    { intros b. split; [by left|]. intros [?|(j & l & Hj & Hl & _)]; [done|].
      apply lookup_lt_Some in Hl. lia. }
    split; [rewrite drop_ge by lia; cbn; lia|].
    split; [done|]. split; [done|]. split; [done|].
    intros k lk b nb Hk Hb _. left. by exists lk.
  - destruct (lookup_lt_is_Some_2 oke i) as [p Hp]; [lia|].
    destruct (lookup_lt_is_Some_2 och i) as [l Hl]; [lia|].
    pose proof (Hold i p l ltac:(lia) Hp Hl) as Hc.
    destruct (rethread_chain_spec sz l (size (heap m)) ht m nch p)
      as (ht1 & m1 & nch1 & Hrun1 & Hht1 & Hlen1 & Hch1 & Hdis1 & Hin1 & Hcount1 &
          Hbrk1 & Hfreed1 & Hdat1 & Hfr1 & Hplace1); try done.
    { apply nodup_length_le_size; [apply Hc|]. intros a Ha.
      destruct Hc as [_ Hr]. by eapply ring_in. }
    { intros a Ha. by apply (Hnew i l a). }
    assert (count ht1 = count ht ∧ key_size ht1 = key_size ht ∧
            rdc_key ht1 = rdc_key ht) as (Hc1 & Hk1 & Hr1)
      by (rewrite Hht1; by destruct ht).
    destruct (IH (S i) ht1 m1 oke och nch1) as
      (ht' & m' & nch' & Hrun & Hht' & Hlen' & Hch' & Hdis' & Hin' & Hcount' &
       Hbrk' & Hfreed' & Hdat' & Hplace'); try done.
    { lia. }
    { intros j pj lj Hj Hpj Hlj. destruct (Hold j pj lj ltac:(lia) Hpj Hlj) as [? Hrj].
      split; [done|]. apply (ring_frame _ _ _ Hrj). intros b Hb. apply Hfr1.
      - intros Hbl. assert (j = i) by (by eapply Hdo). lia.
      - apply (Hnew j lj b); [lia | done | done]. }
    { by rewrite Hc1. }
    { rewrite Hlen1, Hc1. done. }
    { intros j lj b Hj Hlj Hb Hin. apply Hin1 in Hin as [Hin | Hin].
      - apply (Hnew j lj b); [lia | done | done | done].
      - assert (j = i) by (by eapply Hdo). lia. }
    exists ht', m', nch'. split.
    { cbn [rethread]. rewrite Nat2Z.id.
      erewrite bind_some; [|unfold lift; by rewrite Hp].
      erewrite bind_some; [|reflexivity].
      erewrite bind_some; [|exact Hrun1].
      replace (Z.of_nat i + 1) with (Z.of_nat (S i)) by lia. exact Hrun. }
    split; [rewrite Hht', Hht1; by destruct ht|].
    split; [congruence|]. split; [done|]. split; [done|]. split.
    { intros b. rewrite Hin', Hin1. split.
      - intros [[?|Hb] | (j & lj & Hj & Hlj & Hb)]; [by left | right | right].
        + by exists i, l.
        + exists j, lj. split; [lia | done].
      - intros [? | (j & lj & Hj & Hlj & Hb)]; [left; by left|].
        destruct (decide (j = i)) as [->|Hne].
        + simplify_eq. left. by right.
        + right. exists j, lj. split; [lia | done]. }
    split.
    { rewrite Hcount', Hcount1. rewrite (drop_S _ _ _ Hl). cbn [concat].
      rewrite length_app. lia. }
    split; [congruence|]. split; [congruence|].
    split; [intros b; by rewrite Hdat', Hdat1|].
    intros k lk b nb Hk Hb Hnb.
    destruct (Hplace' k lk b nb Hk Hb Hnb) as [(lk0 & Hk0 & Hb0) | Hh].
    + assert (is_Some (heap m1 !! b)) as [nb1 Hnb1].
      { apply (same_data_same_dom _ _ Hdat'). by eexists. }
      destruct (Hplace1 k lk0 b nb1 Hk0 Hb0 Hnb1) as [? | Hh]; [by left|].
      right. rewrite <- Hh. f_equal.
      assert (node_data (heap m') b = node_data (heap m1) b) as Hd by apply Hdat'.
      by destruct (node_data_eq _ _ _ _ _ Hd Hnb1 Hnb) as [-> _].
    + right. rewrite <- Hh. symmetry. by apply hash_params.
Qed.

(** ** [ht_grow] *)

Lemma ladder_ok_count_pos sz ht : 2 ≤ sz → ladder_ok sz ht → 1543 ≤ count ht.
Proof.
  intros Hsz [[i Hr] | [_ Hp]];
    [apply at_rung_prime in Hr|]; by apply (ladder_prime_pos sz).
Qed.

Lemma empty_chains h n :
  Forall2 (chain h) (replicate n dll_init) (replicate n []) ∧
  disjoint_chains (replicate n []) ∧
  (∀ b, ¬ in_chains (replicate n []) b) ∧
  node_count (replicate n []) = 0%nat.
Proof.
  split; [|split; [|split]].
  - apply Forall2_replicate. split; [done|]. split; [apply NoDup_nil_2 | done].
  - intros i j li lj b Hi _ Hb. apply lookup_replicate in Hi as [-> _].
    by apply elem_of_nil in Hb.
  - intros b (i & l & Hi & Hb). apply lookup_replicate in Hi as [-> _].
    by apply elem_of_nil in Hb.
  - unfold node_count. induction n; [done|]. done.
Qed.

Lemma same_params_of_moved ht ht' : ladder_moved ht ht' → same_params ht ht'.
Proof. intros H. apply ladder_moved_fields in H. unfold same_params. tauto. Qed.

Lemma grow_spec sz ht m chs i :
  2 ≤ sz → tbl_repr ht m chs → at_rung sz ht i →
  ∃ ht' m' chs', ht_grow sz ht m = Some (ht', m') ∧
    tbl_repr ht' m' chs' ∧ ladder_ok sz ht' ∧ load_inv sz ht' ∧
    same_params ht ht' ∧ num_elts ht' = num_elts ht ∧
    (∀ b, in_chains chs' b ↔ in_chains chs b) ∧
    node_count chs' = node_count chs ∧
    brk m' = brk m ∧ freed m' = freed m ∧
    (∀ b, node_data (heap m') b = node_data (heap m) b) ∧
    (hash_inv sz ht m chs → hash_inv sz ht' m' chs') ∧
    (count ht' ≠ count ht → hash_inv sz ht' m' chs').
Proof.
  intros Hsz Hrepr Hr.
  pose proof Hrepr as (Hcnt & Hlen & Hch & Hdis & Hbound).
  destruct (incr_while_rung sz (λ ht, bool_decide (num_elts ht > max_num_elts ht))
              54 Hsz i ht ladder_fuel Hr ltac:(lia) ltac:(vm_compute; lia))
    as (ht1 & Hw & Hmv & Hok & Hend & _).
  pose proof (ladder_moved_fields _ _ Hmv)
    as (Hks & Hes & Hea & Hne & Han & Hld & Hke & Hck & Hrk & Hfe).
  assert (load_inv sz ht1) as Hload.
  { intros Hgt. destruct Hend as [Hc | He]; [|done].
    apply bool_decide_eq_false in Hc. lia. }
  pose proof (ladder_ok_count_pos sz ht1 Hsz Hok) as Hpos.
  unfold ht_grow. erewrite bind_some; [|unfold lift; by rewrite Hw].
  destruct (decide (count ht = count ht1)) as [Hsame | Hdiff].
  - (* load factor not lowered *)
    exists ht1, m, chs. split; [done|]. split.
    { split; [lia|]. split; [rewrite Hke, <- Hsame; exact Hlen|].
      rewrite Hke. repeat split; assumption. }
    split; [done|]. split; [done|]. split; [by apply same_params_of_moved|].
    split; [done|]. split; [done|]. split; [done|]. split; [done|].
    split; [done|]. split; [done|]. split; [|by intros Hne'; destruct Hne'].
    intros Hh j l a n Hj Ha Hn. rewrite <- (Hh j l a n Hj Ha Hn).
    by apply hash_params.
  - set (ht2 := set_key_elts ht1 (replicate (Z.to_nat (count ht1)) dll_init)).
    destruct (empty_chains (heap m) (Z.to_nat (count ht1)))
      as (Hch0 & Hdis0 & Hin0 & Hcount0).
    destruct (rethread_spec sz (Z.to_nat (count ht)) 0 ht2 m (key_elts ht) chs
                (replicate (Z.to_nat (count ht1)) []))
      as (ht' & m' & chs' & Hrun & Hht' & Hlen' & Hch' & Hdis' & Hin' & Hcount' &
          Hbrk' & Hfreed' & Hdat' & Hplace').
    { lia. }
    { symmetry. by eapply Forall2_length. }
    { intros j p l _ Hp Hl. exact (Forall2_lookup_lr _ _ _ _ _ _ Hch Hp Hl). }
    { exact Hdis. }
    { unfold ht2. cbn. lia. }
    { unfold ht2. cbn. by rewrite length_replicate. }
    { exact Hch0. }
    { exact Hdis0. }
    { intros j l b _ _ _. apply Hin0. }
    assert (count ht' = count ht1 ∧ key_size ht' = key_size ht1 ∧
            rdc_key ht' = rdc_key ht1 ∧ num_elts ht' = num_elts ht1 ∧
            max_num_elts ht' = max_num_elts ht1 ∧ count_ix ht' = count_ix ht1 ∧
            group_ix ht' = group_ix ht1 ∧ same_params ht1 ht')
      as (Hc' & Hk' & Hr' & Hn' & Hm' & Hci' & Hgi' & Hsp').
    { rewrite Hht'. unfold ht2. by destruct ht1. }
    exists ht', m', chs'. split; [exact Hrun|]. split.
    { split; [lia|]. split.
      { rewrite Hlen'. unfold ht2. cbn. by rewrite length_replicate, Hc'. }
      split; [done|]. split; [done|].
      intros b Hb. rewrite Hbrk'. apply Hbound.
      by apply (same_data_same_dom _ _ Hdat'). }
    split.
    { destruct Hok as [[j (Hp & Hov & Hcj)] | [He Hp]].
      - left. exists j. unfold at_rung. by rewrite Hci', Hgi', Hc'.
      - right. split; [unfold ladder_end; by rewrite Hci' | by rewrite Hc']. }
    split.
    { unfold load_inv, ladder_end. rewrite Hn', Hm', Hci'. exact Hload. }
    split.
    { pose proof (same_params_of_moved _ _ Hmv) as H1.
      unfold same_params in *. intuition congruence. }
    split; [congruence|]. split.
    { intros b. rewrite Hin'. split.
      - intros [Hb | (j & l & _ & Hl & Hb)]; [by apply Hin0 in Hb | by exists j, l].
      - intros (j & l & Hl & Hb). right. exists j, l. split; [lia | done]. }
    split; [rewrite Hcount', Hcount0, drop_0; done|].
    split; [done|]. split; [done|]. split; [done|].
    assert (hash_inv sz ht' m' chs') as Hhash'.
    { intros j l a n Hj Ha Hn.
      destruct (Hplace' j l a n Hj Ha Hn) as [(l0 & Hl0 & Ha0) | Hh].
      - apply lookup_replicate in Hl0 as [-> _]. by apply elem_of_nil in Ha0.
      - rewrite <- Hh. by apply hash_params. }
    split; by intros _.
Qed.

(** ** [ht_divchn_insert] *)

Lemma memcpy_full dst src n :
  Z.of_nat (length src) = n → length dst = length src → memcpy dst src n = src.
Proof.
  intros Hn Hl. unfold memcpy.
  rewrite take_ge, drop_ge by lia. apply app_nil_r.
Qed.

Lemma ladder_ok_fields sz ht ht' :
  count_ix ht' = count_ix ht → group_ix ht' = group_ix ht →
  count ht' = count ht → ladder_ok sz ht → ladder_ok sz ht'.
Proof.
  intros Hc Hg Hn [[i Hr] | [He Hp]].
  - left. exists i. unfold at_rung in *. by rewrite Hc, Hg, Hn.
  - right. unfold ladder_end in *. by rewrite Hc, Hn.
Qed.

Lemma same_params_refl ht : same_params ht ht.
Proof. by unfold same_params. Qed.

Lemma same_params_trans ht1 ht2 ht3 :
  same_params ht1 ht2 → same_params ht2 ht3 → same_params ht1 ht3.
Proof. unfold same_params. intuition congruence. Qed.

Lemma data_sized_params ht ht' m m' chs chs' :
  same_params ht ht' →
  (∀ b, in_chains chs' b → in_chains chs b) →
  (∀ b, in_chains chs' b → node_data (heap m') b = node_data (heap m) b) →
  data_sized ht m chs → data_sized ht' m' chs'.
Proof.
  intros (Hk & He & _) Hin Hdat Hs b nb Hb Hnb.
  pose proof (Hdat b Hb) as Hd. rewrite (node_data_key _ _ _ Hnb) in Hd.
  unfold node_data in Hd. destruct (heap m !! b) as [n|] eqn:Hn; [|done].
  cbn in Hd. injection Hd as -> ->. rewrite Hk, He. by apply (Hs b n); [apply Hin|].
Qed.

(** The growth test that ends [ht_divchn_insert]. *)
Lemma maybe_grow_spec sz ht m chs :
  2 ≤ sz → tbl_repr ht m chs → ladder_ok sz ht →
  ∃ ht' m' chs',
    (if decide (num_elts ht > max_num_elts ht ∧ count_ix ht ≠ C_SIZE_MAX sz ∧
                count_ix ht ≠ C_PRIME_PARTS_COUNT)
     then ht_grow sz ht else ret ht) m = Some (ht', m') ∧
    tbl_repr ht' m' chs' ∧ ladder_ok sz ht' ∧ load_inv sz ht' ∧
    same_params ht ht' ∧ num_elts ht' = num_elts ht ∧
    (∀ b, in_chains chs' b ↔ in_chains chs b) ∧
    node_count chs' = node_count chs ∧
    brk m' = brk m ∧ freed m' = freed m ∧
    (∀ b, node_data (heap m') b = node_data (heap m) b) ∧
    (hash_inv sz ht m chs → hash_inv sz ht' m' chs') ∧
    (load_inv sz ht → ht' = ht ∧ chs' = chs ∧ m' = m).
Proof.
  intros Hsz Hrepr Hok.
  destruct (decide (num_elts ht > max_num_elts ht ∧ count_ix ht ≠ C_SIZE_MAX sz ∧
                    count_ix ht ≠ C_PRIME_PARTS_COUNT)) as [(Hgt & Hn1 & Hn2) | Hno].
  - destruct Hok as [[i Hr] | [[He | He] _]]; [|done..].
    destruct (grow_spec sz ht m chs i Hsz Hrepr Hr)
      as (ht' & m' & chs' & Hrun & H1 & H2 & H3 & H4 & H5 & H6 & H7 & H8 & H9 &
          H10 & H11 & _).
    exists ht', m', chs'. repeat (split; [assumption|]).
    intros Hl. destruct (Hl Hgt); done.
  - assert (load_inv sz ht) as Hload.
    { intros Hgt. unfold ladder_end.
      destruct (decide (count_ix ht = C_SIZE_MAX sz)); [by left|].
      destruct (decide (count_ix ht = C_PRIME_PARTS_COUNT)); [by right|].
      destruct Hno. done. }
    exists ht, m, chs. split; [done|]. split; [done|]. split; [done|].
    split; [done|]. split; [apply same_params_refl|]. done.
Qed.

Lemma dseg_alter_data h pv l nx a f :
  (∀ n, next (f n) = next n ∧ prev (f n) = prev n) →
  dseg h pv l nx → dseg (alter f a h) pv l nx.
Proof.
  intros Hf. revert pv. induction l as [|b l IH]; intros pv Hd; [done|].
  destruct Hd as (n & Hb & Hpv & Hnx & Hd).
  cbn [dseg]. rewrite lookup_alter_fmap, Hb. cbn.
  eexists. split; [reflexivity|].
  destruct (Hf n) as [Hfn Hfp].
  goal_decide Hab; cbn; (split; [rewrite ?Hfp; done|]);
    (split; [rewrite ?Hfn; done|]); by apply IH.
Qed.

Lemma ring_alter_data h l a f :
  (∀ n, next (f n) = next n ∧ prev (f n) = prev n) →
  ring h l → ring (alter f a h) l.
Proof.
  intros Hf [Hnd Hr]. split; [done|]. destruct l as [|c l]; [done|].
  by apply dseg_alter_data.
Qed.

Lemma insert_spec sz ht m chs k e :
  2 ≤ sz → tbl_repr ht m chs → ladder_ok sz ht → data_sized ht m chs →
  Z.of_nat (length k) = key_size ht → Z.of_nat (length e) = elt_size ht →
  ∃ l, chs !! Z.to_nat (hash sz ht k) = Some l ∧
  ∃ ht' m' chs', ht_divchn_insert sz ht k e m = Some (ht', m') ∧
    tbl_repr ht' m' chs' ∧ ladder_ok sz ht' ∧ load_inv sz ht' ∧
    data_sized ht' m' chs' ∧ same_params ht ht' ∧
    (hash_inv sz ht m chs → hash_inv sz ht' m' chs') ∧
    match (scan (heap m) (cmp_key ht) (key_size ht) l k).1 with
    | Some a =>
        ∃ n, heap m !! a = Some n ∧ a ∈ l ∧
          num_elts ht' = num_elts ht ∧
          (∀ b, in_chains chs' b ↔ in_chains chs b) ∧
          node_count chs' = node_count chs ∧
          node_data (heap m') a = Some (key n, e) ∧
          (∀ b, b ≠ a → node_data (heap m') b = node_data (heap m) b) ∧
          brk m' = brk m ∧
          freed m' = freed m ++ (if free_elt ht then [elt n] else []) ∧
          (load_inv sz ht → ht' = ht ∧ chs' = chs)
    | None =>
        num_elts ht' = wrap sz (num_elts ht + 1) ∧
        (∀ b, in_chains chs' b ↔ b = brk m ∨ in_chains chs b) ∧
        node_count chs' = S (node_count chs) ∧
        ¬ in_chains chs (brk m) ∧
        node_data (heap m') (brk m) = Some (k, e) ∧
        (∀ b, b ≠ brk m → node_data (heap m') b = node_data (heap m) b) ∧
        brk m' = Pos.succ (brk m) ∧ freed m' = freed m
    end.
Proof.
  intros Hsz Hrepr Hok Hsized Hklen Helen.
  pose proof Hrepr as (Hcnt & Hlen & Hch & Hdis & Hbound).
  set (ix := hash sz ht k).
  assert (0 ≤ ix < count ht) as Hix by (by apply hash_range).
  destruct (bucket_lookup ht m chs ix Hrepr Hix) as (p & l & Hp & Hl & Hc).
  exists l. split; [done|].
  assert (∀ a, a ∈ l → is_Some (heap m !! a)) as Hlin.
  { intros a Ha. destruct Hc as [_ Hr]. by eapply ring_in. }
  unfold ht_divchn_insert. fold ix.
  destruct (scan_spec (heap m) (cmp_key ht) (key_size ht) l k Hlin)
    as [[Hs Hno] | (l1 & a & l2 & n & Hl12 & Hs & Ha & Hk & Hno)].
  - (* no node with this key: a new node is prepended *)
    rewrite Hs. cbn [fst].
    destruct (prepend_new_spec m p l k e (key_size ht) (elt_size ht) Hc Hbound)
      as (m1 & Hrun1 & Hc1 & Hbrk1 & Hfreed1 & Hal & Hfresh & Hnew & Hfr1 & Hdat1).
    rewrite !memcpy_full in Hnew
      by (rewrite ?length_replicate; lia).
    set (a := brk m) in *.
    set (ht1 := set_num_elts (set_bucket ht ix (Some a)) (wrap sz (num_elts ht + 1))).
    set (chs1 := <[Z.to_nat ix := a :: l]> chs).
    assert (¬ in_chains chs a) as Hnin.
    { intros Hin. apply (in_chains_allocated _ _ _ _ Hrepr) in Hin.
      rewrite Hfresh in Hin. by destruct Hin. }
    assert (∀ b, in_chains chs1 b ↔ b = a ∨ in_chains chs b) as Hin1.
    { intros b. unfold chs1. rewrite (in_chains_insert chs _ _ _ b Hl Hdis).
      rewrite elem_of_cons. split.
      - intros [[?|Hb] | [? _]]; [by left | right | by right].
        by exists (Z.to_nat ix), l.
      - intros [? | Hb]; [left; by left|].
        destruct (decide (b ∈ l)); [left; by right | by right]. }
    assert (tbl_repr ht1 m1 chs1) as Hrepr1.
    { split; [done|]. split; [unfold ht1; cbn; by rewrite length_insert|].
      split; [|split].
      - unfold ht1, chs1. cbn [key_elts set_num_elts set_bucket set_key_elts].
        eapply (chains_update (heap m)); try done.
        intros b Hb Hbl. apply Hfr1. intros Hb'.
        apply elem_of_cons in Hb' as [->|?]; done.
      - unfold chs1. eapply disjoint_insert; try done. intros b Hb.
        apply elem_of_cons in Hb as [->|Hb]; [by right | by left].
      - intros b Hb. rewrite Hbrk1. destruct (decide (b = a)) as [->|Hne].
        + unfold a. lia.
        + apply node_data_is_Some in Hb. rewrite Hdat1 in Hb by done.
          apply node_data_is_Some, Hbound in Hb. lia. }
    assert (ladder_ok sz ht1) as Hok1 by (by apply (ladder_ok_fields sz ht)).
    destruct (maybe_grow_spec sz ht1 m1 chs1 Hsz Hrepr1 Hok1)
      as (ht' & m' & chs' & Hrun & Hrepr' & Hok' & Hload' & Hsp' & Hnum' & Hin' &
          Hcount' & Hbrk' & Hfreed' & Hdat' & Hhash' & _).
    exists ht', m', chs'. split.
    { erewrite bind_some; [|by apply bucket_some].
      erewrite bind_some; [|by apply search_key_spec].
      rewrite Hs. cbn [fst].
      erewrite bind_some; [|erewrite bind_some; [reflexivity | exact Hrun1]].
      exact Hrun. }
    split; [done|]. split; [done|]. split; [done|]. split.
    { apply (data_sized_params ht1 ht' m1 m' chs1 chs' Hsp');
        [intros b; apply Hin' | intros b _; apply Hdat'|].
      intros b nb Hb Hnb. apply Hin1 in Hb as [->|Hb].
      - rewrite (node_data_key _ _ _ Hnb) in Hnew. injection Hnew as -> ->.
        by split.
      - assert (b ≠ a) as Hne by (intros ->; done).
        pose proof (Hdat1 b Hne) as Hd. rewrite (node_data_key _ _ _ Hnb) in Hd.
        unfold node_data in Hd. destruct (heap m !! b) as [nb0|] eqn:Hb0; [|done].
        cbn in Hd. injection Hd as -> ->. by apply (Hsized b nb0). }
    split; [eapply same_params_trans; [|exact Hsp']; done|].
    split.
    { intros Hh. apply Hhash'. intros i li b nb Hi Hb Hnb.
      rewrite (hash_params sz ht ht1) by done.
      destruct (decide (b = a)) as [->|Hne].
      - rewrite (node_data_key _ _ _ Hnb) in Hnew. injection Hnew as -> _.
        fold ix. unfold chs1 in Hi.
        destruct (decide (i = Z.to_nat ix)) as [->|Hii]; [lia|].
        rewrite list_lookup_insert_ne in Hi by done.
        destruct Hnin. by exists i, li.
      - pose proof (Hdat1 b Hne) as Hd. rewrite (node_data_key _ _ _ Hnb) in Hd.
        unfold node_data in Hd. destruct (heap m !! b) as [nb0|] eqn:Hb0; [|done].
        cbn in Hd. injection Hd as -> _.
        unfold chs1 in Hi. destruct (decide (i = Z.to_nat ix)) as [->|Hii].
        + rewrite list_lookup_insert_eq in Hi by (by eapply lookup_lt_Some).
          simplify_eq. apply elem_of_cons in Hb as [?|Hb]; [done|].
          by apply (Hh _ l b nb0).
        + rewrite list_lookup_insert_ne in Hi by done. by apply (Hh i li b nb0). }
    split; [by rewrite Hnum'|]. split.
    { intros b. by rewrite Hin', Hin1. }
    split.
    { rewrite Hcount'. pose proof (node_count_insert chs _ _ (a :: l) Hl) as Hc'.
      fold chs1 in Hc'. cbn [length] in Hc'. lia. }
    split; [done|]. split; [by rewrite Hdat'|].
    split; [intros b Hne; by rewrite Hdat', Hdat1|].
    split; congruence.
  - (* the key is there: its element is replaced in place *)
    rewrite Hs. cbn [fst].
    assert (a ∈ l) as Hal by (rewrite Hl12; apply elem_of_app; right; left).
    assert (in_chains chs a) as Hina by (by exists (Z.to_nat ix), l).
    destruct (Hsized a n Hina Ha) as [Hkn Hen].
    set (f := λ n0 : dll_node, Node (key n0) (memcpy (elt n) e (elt_size ht))
                                 (next n0) (prev n0)).
    set (m1 := Mem (alter f a (heap m)) (brk m)
                   (freed m ++ (if free_elt ht then [elt n] else []))).
    assert (memcpy (elt n) e (elt_size ht) = e) as Hcopy
      by (apply memcpy_full; lia).
    assert (∀ b, b ≠ a → node_data (heap m1) b = node_data (heap m) b) as Hdat1.
    { intros b Hne. unfold node_data. cbn [m1 heap]. by rewrite lookup_alter_ne. }
    assert (node_data (heap m1) a = Some (key n, e)) as Hnew.
    { unfold node_data. cbn [m1 heap]. rewrite lookup_alter_eq, Ha. cbn.
      by rewrite Hcopy. }
    assert (tbl_repr ht m1 chs) as Hrepr1.
    { split; [done|]. split; [done|]. split; [|split; [done|]].
      - eapply Forall2_impl; [exact Hch|]. intros q lq [Hq Hrq]. split; [done|].
        cbn [m1 heap]. by apply ring_alter_data.
      - intros b Hb. cbn [m1 heap brk] in *. apply Hbound.
        by rewrite lookup_alter_is_Some in Hb. }
    destruct (maybe_grow_spec sz ht m1 chs Hsz Hrepr1 Hok)
      as (ht' & m' & chs' & Hrun & Hrepr' & Hok' & Hload' & Hsp' & Hnum' & Hin' &
          Hcount' & Hbrk' & Hfreed' & Hdat' & Hhash' & Hstay).
    exists ht', m', chs'. split.
    { erewrite bind_some; [|by apply bucket_some].
      erewrite bind_some; [|by apply search_key_spec].
      rewrite Hs. cbn [fst].
      erewrite bind_some.
      2:{ erewrite bind_some; [|by apply call_free_elt_some].
          erewrite bind_some; [|by apply load_some].
          erewrite bind_some; [reflexivity|].
          apply set_elt_some. cbn [heap]. by eexists. }
      exact Hrun. }
    split; [done|]. split; [done|]. split; [done|]. split.
    { apply (data_sized_params ht ht' m1 m' chs chs' Hsp');
        [intros b; apply Hin' | intros b _; apply Hdat'|].
      intros b nb Hb Hnb. destruct (decide (b = a)) as [->|Hne].
      - rewrite (node_data_key _ _ _ Hnb) in Hnew. injection Hnew as -> ->.
        by split.
      - pose proof (Hdat1 b Hne) as Hd. rewrite (node_data_key _ _ _ Hnb) in Hd.
        unfold node_data in Hd. destruct (heap m !! b) as [nb0|] eqn:Hb0; [|done].
        cbn in Hd. injection Hd as -> ->. by apply (Hsized b nb0). }
    split; [done|]. split.
    { intros Hh. apply Hhash'. intros i li b nb Hi Hb Hnb.
      destruct (decide (b = a)) as [->|Hne].
      - rewrite (node_data_key _ _ _ Hnb) in Hnew. injection Hnew as -> _.
        by apply (Hh i li a n).
      - pose proof (Hdat1 b Hne) as Hd. rewrite (node_data_key _ _ _ Hnb) in Hd.
        unfold node_data in Hd. destruct (heap m !! b) as [nb0|] eqn:Hb0; [|done].
        cbn in Hd. injection Hd as -> _. by apply (Hh i li b nb0). }
    exists n. split; [done|]. split; [done|]. split; [done|]. split; [done|].
    split; [done|]. split; [by rewrite Hdat'|].
    split; [intros b Hne; by rewrite Hdat', Hdat1|].
    split; [done|]. split; [done|].
    intros Hl0. destruct (Hstay Hl0) as (-> & -> & _). done.
Qed.

(** ** [ht_divchn_remove] and [ht_divchn_delete] *)

Lemma take_out_spec sz ht m chs k fe :
  tbl_repr ht m chs →
  ∃ p l, key_elts ht !! Z.to_nat (hash sz ht k) = Some p ∧
    chs !! Z.to_nat (hash sz ht k) = Some l ∧
    dll_search_key (cmp_key ht) (key_size ht) p (Some k) m =
      Some ((scan (heap m) (cmp_key ht) (key_size ht) l k).1, m) ∧
    match (scan (heap m) (cmp_key ht) (key_size ht) l k).1 with
    | None => True
    | Some a =>
        ∃ n p' m' chs', heap m !! a = Some n ∧ a ∈ l ∧
          key_equal (cmp_key ht) (key_size ht) (key n) k = true ∧
          dll_delete p (Some a) fe m = Some (p', m') ∧
          let ht' := set_num_elts (set_bucket ht (hash sz ht k) p')
                       (wrap sz (num_elts ht - 1)) in
          tbl_repr ht' m' chs' ∧
          brk m' = brk m ∧
          freed m' = freed m ++ (if fe then [elt n] else []) ∧
          heap m' !! a = None ∧
          (∀ b, b ≠ a → node_data (heap m') b = node_data (heap m) b) ∧
          (∀ b, in_chains chs' b ↔ in_chains chs b ∧ b ≠ a) ∧
          (node_count chs' + 1 = node_count chs)%nat ∧
          (hash_inv sz ht m chs → hash_inv sz ht' m' chs') ∧
          (data_sized ht m chs → data_sized ht' m' chs')
    end.
Proof.
  intros Hrepr.
  set (ix := hash sz ht k).
  assert (0 ≤ ix < count ht) as Hix by (apply hash_range, Hrepr).
  destruct (bucket_lookup ht m chs ix Hrepr Hix) as (p & l & Hp & Hl & Hc).
  exists p, l. split; [done|]. split; [done|].
  split; [by apply search_key_spec|].
  destruct (scan_spec (heap m) (cmp_key ht) (key_size ht) l k)
    as [[Hs _] | (l1 & a & l2 & n & -> & Hs & Ha & Hk & _)].
  { intros a Ha. destruct Hc as [_ Hr]. by eapply ring_in. }
  - by rewrite Hs.
  - rewrite Hs. cbn [fst].
    destruct (unchain_node sz ht m chs ix p l1 a l2 fe (wrap sz (num_elts ht - 1))
                Hrepr ltac:(lia) Hp Hl)
      as (m' & n' & Hn' & Hrun & Hrest).
    simplify_eq. exists n, (head (l1 ++ l2)), m', (<[Z.to_nat ix := l1 ++ l2]> chs).
    split; [done|]. split; [apply elem_of_app; right; left|]. split; [done|].
    split; [done|]. exact Hrest.
Qed.

Lemma bucket_run ht ix p m :
  key_elts ht !! Z.to_nat ix = Some p → bucket ht ix m = Some (p, m).
Proof. apply bucket_some. Qed.

Lemma remove_run sz ht m chs k out :
  tbl_repr ht m chs →
  ∃ p l, key_elts ht !! Z.to_nat (hash sz ht k) = Some p ∧
    chs !! Z.to_nat (hash sz ht k) = Some l ∧
    match (scan (heap m) (cmp_key ht) (key_size ht) l k).1 with
    | None => ht_divchn_remove sz ht k out m = Some ((ht, out), m)
    | Some a =>
        ∃ n p' m' chs', heap m !! a = Some n ∧ a ∈ l ∧
          key_equal (cmp_key ht) (key_size ht) (key n) k = true ∧
          let ht' := set_num_elts (set_bucket ht (hash sz ht k) p')
                       (wrap sz (num_elts ht - 1)) in
          ht_divchn_remove sz ht k out m =
            Some ((ht', memcpy out (elt n) (elt_size ht)), m') ∧
          tbl_repr ht' m' chs' ∧
          brk m' = brk m ∧ freed m' = freed m ∧
          heap m' !! a = None ∧
          (∀ b, b ≠ a → node_data (heap m') b = node_data (heap m) b) ∧
          (∀ b, in_chains chs' b ↔ in_chains chs b ∧ b ≠ a) ∧
          (node_count chs' + 1 = node_count chs)%nat ∧
          (hash_inv sz ht m chs → hash_inv sz ht' m' chs') ∧
          (data_sized ht m chs → data_sized ht' m' chs')
    end.
Proof.
  intros Hrepr.
  destruct (take_out_spec sz ht m chs k false Hrepr) as (p & l & Hp & Hl & Hsearch & Hcase).
  exists p, l. split; [done|]. split; [done|].
  unfold ht_divchn_remove.
  destruct (scan (heap m) (cmp_key ht) (key_size ht) l k).1 as [a|].
  - destruct Hcase as (n & p' & m' & chs' & Hn & Hal & Hkeq & Hdel & Hrepr' & Hbrk &
                       Hfreed & Hrest).
    exists n, p', m', chs'. split; [done|]. split; [done|]. split; [done|].
    cbv zeta. split.
    { erewrite bind_some; [|by apply bucket_some].
      erewrite bind_some; [|exact Hsearch]. cbn beta iota.
      erewrite bind_some; [|by apply load_some].
      erewrite bind_some; [|exact Hdel]. reflexivity. }
    split; [done|]. split; [done|]. split; [by rewrite Hfreed, app_nil_r|]. exact Hrest.
  - erewrite bind_some; [|by apply bucket_some].
    erewrite bind_some; [|exact Hsearch]. reflexivity.
Qed.

Lemma delete_run sz ht m chs k :
  tbl_repr ht m chs →
  ∃ p l, key_elts ht !! Z.to_nat (hash sz ht k) = Some p ∧
    chs !! Z.to_nat (hash sz ht k) = Some l ∧
    match (scan (heap m) (cmp_key ht) (key_size ht) l k).1 with
    | None => ht_divchn_delete sz ht k m = Some (ht, m)
    | Some a =>
        ∃ n p' m' chs', heap m !! a = Some n ∧ a ∈ l ∧
          key_equal (cmp_key ht) (key_size ht) (key n) k = true ∧
          let ht' := set_num_elts (set_bucket ht (hash sz ht k) p')
                       (wrap sz (num_elts ht - 1)) in
          ht_divchn_delete sz ht k m = Some (ht', m') ∧
          tbl_repr ht' m' chs' ∧
          brk m' = brk m ∧
          freed m' = freed m ++ (if free_elt ht then [elt n] else []) ∧
          heap m' !! a = None ∧
          (∀ b, b ≠ a → node_data (heap m') b = node_data (heap m) b) ∧
          (∀ b, in_chains chs' b ↔ in_chains chs b ∧ b ≠ a) ∧
          (node_count chs' + 1 = node_count chs)%nat ∧
          (hash_inv sz ht m chs → hash_inv sz ht' m' chs') ∧
          (data_sized ht m chs → data_sized ht' m' chs')
    end.
Proof.
  intros Hrepr.
  destruct (take_out_spec sz ht m chs k (free_elt ht) Hrepr)
    as (p & l & Hp & Hl & Hsearch & Hcase).
  exists p, l. split; [done|]. split; [done|].
  unfold ht_divchn_delete.
  destruct (scan (heap m) (cmp_key ht) (key_size ht) l k).1 as [a|].
  - destruct Hcase as (n & p' & m' & chs' & Hn & Hal & Hkeq & Hdel & Hrest).
    exists n, p', m', chs'. split; [done|]. split; [done|]. split; [done|].
    cbv zeta. split; [|exact Hrest].
    erewrite bind_some; [|by apply bucket_some].
    erewrite bind_some; [|exact Hsearch]. cbn beta iota.
    erewrite bind_some; [|exact Hdel]. reflexivity.
  - erewrite bind_some; [|by apply bucket_some].
    erewrite bind_some; [|exact Hsearch]. reflexivity.
Qed.

(** ** Keys present and absent *)

Lemma scan_same_keys h h' cmp ks l k :
  (∀ b, b ∈ l → key <$> h' !! b = key <$> h !! b) →
  scan h' cmp ks l k = scan h cmp ks l k.
Proof.
  induction l as [|a l IH]; intros Hk; [done|]. cbn [scan].
  pose proof (Hk a ltac:(left)) as Ha.
  rewrite IH by (intros b Hb; apply Hk; by right).
  destruct (h' !! a) as [n'|], (h !! a) as [n|]; cbn in Ha; try done.
  by injection Ha as ->.
Qed.

Lemma node_data_same_key h h' b :
  node_data h' b = node_data h b → key <$> h' !! b = key <$> h !! b.
Proof.
  unfold node_data. destruct (h' !! b), (h !! b); cbn; try done.
  by intros [= -> _].
Qed.

(** A chain on which exactly the node [a] has a key equal to [k]. *)
Lemma scan_unique h cmp ks l k a n :
  (∀ b, b ∈ l → is_Some (h !! b)) → a ∈ l → h !! a = Some n →
  key_equal cmp ks (key n) k = true →
  (∀ b nb, b ∈ l → b ≠ a → h !! b = Some nb →
           key_equal cmp ks (key nb) k = false) →
  (scan h cmp ks l k).1 = Some a.
Proof.
  intros Hin Ha Hn Hk Hno.
  destruct (scan_spec h cmp ks l k Hin)
    as [[Hs Hnone] | (l1 & c & l2 & nc & -> & Hs & Hc & Hkc & _)].
  - rewrite (Hnone a n Ha Hn) in Hk. done.
  - rewrite Hs. cbn. destruct (decide (c = a)) as [->|Hne]; [done|].
    rewrite (Hno c nc) in Hkc; [done | | done | done].
    apply elem_of_app. right. left.
Qed.

Lemma absent_scan ht m chs k i l :
  tbl_repr ht m chs → absent ht m chs k → chs !! i = Some l →
  (scan (heap m) (cmp_key ht) (key_size ht) l k).1 = None.
Proof.
  intros Hrepr Habs Hl.
  destruct (scan_spec (heap m) (cmp_key ht) (key_size ht) l k)
    as [[Hs _] | (l1 & c & l2 & nc & -> & Hs & Hc & Hkc & _)].
  { intros a Ha. apply (in_chains_allocated _ _ _ _ Hrepr). by exists i, l. }
  - by rewrite Hs.
  - rewrite (Habs c nc) in Hkc; [done | | done].
    exists i, (l1 ++ c :: l2). split; [done|]. apply elem_of_app. right. left.
Qed.

(** A key the search does not find is the key of no node of the table:
    the nodes of the other chains hash elsewhere. *)
Lemma scan_none_absent sz ht m chs k l :
  tbl_repr ht m chs → hash_inv sz ht m chs → data_sized ht m chs →
  key_contract sz ht → Z.of_nat (length k) = key_size ht →
  chs !! Z.to_nat (hash sz ht k) = Some l →
  (scan (heap m) (cmp_key ht) (key_size ht) l k).1 = None →
  absent ht m chs k.
Proof.
  intros Hrepr Hhash Hsized [_ Hcompat] Hlen Hl Hs a n (i & li & Hi & Ha) Hn.
  destruct (key_equal (cmp_key ht) (key_size ht) (key n) k) eqn:Hk; [|done].
  exfalso.
  destruct (Hsized a n ltac:(by exists i, li) Hn) as [Hkn _].
  pose proof (Hcompat _ _ Hkn Hlen Hk) as Hconv.
  pose proof (Hhash i li a n Hi Ha Hn) as Hh.
  assert (hash sz ht k = Z.of_nat i) as Hhk
    by (rewrite <- Hh; unfold hash; by rewrite Hconv).
  rewrite Hhk, Nat2Z.id in Hl. simplify_eq.
  destruct (scan_spec (heap m) (cmp_key ht) (key_size ht) l k)
    as [[Hs' Hnone] | (l1 & c & l2 & nc & -> & Hs' & _)].
  { intros b Hb. apply (in_chains_allocated _ _ _ _ Hrepr). by exists i, l. }
  - by rewrite (Hnone a n Ha Hn) in Hk.
  - by rewrite Hs' in Hs.
Qed.

(** ** The default comparison *)

Lemma byte_val_inj a b : byte_val a = byte_val b → a = b.
Proof.
  unfold byte_val. intros H. apply N2Z.inj in H.
  assert (Byte.of_N (Byte.to_N a) = Byte.of_N (Byte.to_N b)) as H' by (by rewrite H).
  rewrite !Byte.of_to_N in H'. by injection H'.
Qed.

Lemma memcmp_loop_refl n a : memcmp_loop n a a = 0.
Proof.
  revert a. induction n as [|n IH]; intros a; [done|]. cbn [memcmp_loop].
  repeat case_decide; try lia. apply IH.
Qed.

Lemma memcmp_loop_eq n a b :
  length a = n → length b = n → memcmp_loop n a b = 0 → a = b.
Proof.
  revert a b. induction n as [|n IH]; intros a b Ha Hb Hz.
  - destruct a, b; done.
  - destruct a as [|x a], b as [|y b]; try done. cbn [memcmp_loop head tail default] in Hz.
    unfold id in Hz. repeat case_decide; try lia.
    assert (x = y) as -> by (apply byte_val_inj; lia).
    f_equal. apply IH; cbn in *; lia || done.
Qed.

Lemma key_contract_default sz ht :
  cmp_key ht = None → 0 ≤ key_size ht → key_contract sz ht.
Proof.
  intros Hc Hks. split.
  - intros k _. rewrite Hc. unfold key_equal, memcmp.
    apply bool_decide_eq_true. apply memcmp_loop_refl.
  - intros a b Ha Hb. rewrite Hc. unfold key_equal, memcmp.
    intros Hz. apply bool_decide_eq_true in Hz.
    by rewrite (memcmp_loop_eq (Z.to_nat (key_size ht)) a b) by (lia || done).
Qed.

Lemma key_contract_params sz ht ht' :
  same_params ht ht' → key_contract sz ht → key_contract sz ht'.
Proof.
  intros (Hk & _ & _ & _ & _ & Hc & Hr & _) [H1 H2]. unfold key_contract.
  rewrite Hk, Hc, Hr. by split.
Qed.

(** ** [ht_divchn_init] *)

Lemma mul_alpha_sz_max_nonneg sz n a d : 0 ≤ sz → 0 ≤ mul_alpha_sz_max sz n a d.
Proof.
  intros Hsz. unfold mul_alpha_sz_max. destruct (mul_ext sz n a) as [h l].
  case_decide; [apply wrap_range; lia|].
  rewrite size_max_eq by done. pose proof (pow_full_bit_pos sz Hsz). lia.
Qed.

Lemma init_spec sz blk ks es min_num an ld cmp rdc fe m :
  2 ≤ sz →
  ∃ ht, ht_divchn_init sz blk ks es min_num an ld cmp rdc fe m = Some (ht, m) ∧
    key_size ht = ks ∧ elt_size ht = es ∧ elt_alignment ht = 1 ∧
    alpha_n ht = an ∧ log_alpha_d ht = ld ∧
    cmp_key ht = cmp ∧ rdc_key ht = rdc ∧ free_elt ht = fe ∧
    num_elts ht = 0 ∧
    key_elts ht = replicate (Z.to_nat (count ht)) dll_init ∧
    ladder_ok sz ht ∧ 0 ≤ max_num_elts ht ∧
    (min_num ≤ max_num_elts ht ∨ ladder_end sz ht) ∧
    (count ht = build_prime sz 0 1 ∧
     max_num_elts ht = mul_alpha_sz_max sz (count ht) an ld ∨
     max_num_elts ht =
       mul_alpha_sz_max sz (count ht) (alpha_n blk) (log_alpha_d blk)).
Proof.
  intros Hsz. unfold ht_divchn_init.
  set (ht0 := Ht ks es 1 0 0 (count blk) (max_num_elts blk) (num_elts blk)
                 (alpha_n blk) (log_alpha_d blk) (key_elts blk) (cmp_key blk)
                 (rdc_key blk) (free_elt blk)).
  set (c := build_prime sz (count_ix ht0) (arr C_PARTS_PER_PRIME (group_ix ht0))).
  set (ht1 := set_count ht0 c (mul_alpha_sz_max sz c an ld)).
  assert (at_rung sz ht1 0) as Hr.
  { split; [reflexivity|]. split; [|reflexivity].
    apply (first_prime_fits sz Hsz). }
  destruct (incr_while_rung sz (λ ht, bool_decide (min_num > max_num_elts ht))
              54 Hsz 0%nat ht1 ladder_fuel Hr ltac:(lia) ltac:(vm_compute; lia))
    as (ht2 & Hw & Hmv & Hok & Hend & Hmax).
  pose proof (ladder_moved_fields _ _ Hmv)
    as (Hks & Hes & Hea & Hne & Han & Hld & Hke & Hck & Hrk & Hfe).
  eexists. split.
  { erewrite bind_some; [reflexivity|]. unfold lift. by rewrite Hw. }
  cbn [key_size elt_size elt_alignment group_ix count_ix count max_num_elts
       num_elts alpha_n log_alpha_d key_elts cmp_key rdc_key free_elt set_num_elts].
  split; [by rewrite Hks|]. split; [by rewrite Hes|]. split; [by rewrite Hea|].
  do 7 (split; [reflexivity|]).
  split.
  { apply (ladder_ok_fields sz ht2); try reflexivity. exact Hok. }
  assert (0 ≤ max_num_elts ht2) as Hnn.
  { destruct Hmax as [[_ ->] | ->]; apply mul_alpha_sz_max_nonneg; lia. }
  split; [done|]. split.
  { destruct Hend as [Hc | He]; [left | by right].
    apply bool_decide_eq_false in Hc. lia. }
  destruct Hmax as [[Hc Hm] | Hm]; [left | right].
  - rewrite Hc, Hm. split; reflexivity.
  - rewrite Hm. reflexivity.
Qed.

Lemma init_wf sz blk ks es min_num an ld cmp rdc fe m :
  2 ≤ sz → heap_bound m →
  ∃ ht, ht_divchn_init sz blk ks es min_num an ld cmp rdc fe m = Some (ht, m) ∧
    (key_contract sz ht → wf sz ht m (replicate (Z.to_nat (count ht)) [])).
Proof.
  intros Hsz Hbound.
  destruct (init_spec sz blk ks es min_num an ld cmp rdc fe m Hsz)
    as (ht & Hrun & Hks & Hes & Hea & Han & Hld & Hck & Hrk & Hfe & Hnum & Hke &
        Hok & Hmx & _).
  exists ht. split; [done|]. intros Hcontract.
  destruct (empty_chains (heap m) (Z.to_nat (count ht)))
    as (Hch0 & Hdis0 & Hin0 & Hcount0).
  pose proof (ladder_ok_count_pos sz ht Hsz Hok) as Hpos.
  split.
  - split; [lia|]. split; [by rewrite Hke, length_replicate|].
    split; [by rewrite Hke|]. done.
  - intros i l a n Hi Ha. apply lookup_replicate in Hi as [-> _].
    by apply elem_of_nil in Ha.
  - done.
  - intros Hgt. lia.
  - split; [by rewrite Hnum, Hcount0|]. rewrite Hnum.
    apply pow_full_bit_pos. lia.
  - intros a n Ha. by apply Hin0 in Ha.
  - done.
Qed.

(** ** Well-formed tables stay well-formed *)

Lemma wf_num_elts sz ht m chs : wf sz ht m chs → 0 ≤ num_elts ht < 2 ^ C_FULL_BIT sz.
Proof. intros [_ _ _ _ [Hn Hlt] _ _]. lia. Qed.

Lemma insert_wf sz ht m chs k e :
  2 ≤ sz → wf sz ht m chs →
  Z.of_nat (length k) = key_size ht → Z.of_nat (length e) = elt_size ht →
  num_elts ht + 1 < 2 ^ C_FULL_BIT sz →
  ∃ ht' m' chs', ht_divchn_insert sz ht k e m = Some (ht', m') ∧
    wf sz ht' m' chs' ∧ same_params ht ht'.
Proof.
  intros Hsz [Hrepr Hhash Hok Hload [Hcard Hlt] Hsized Hcontract] Hk He Hroom.
  destruct (insert_spec sz ht m chs k e Hsz Hrepr Hok Hsized Hk He)
    as (l & Hl & ht' & m' & chs' & Hrun & Hrepr' & Hok' & Hload' & Hsized' & Hsp &
        Hhash' & Hcase).
  exists ht', m', chs'. split; [done|]. split; [|done].
  split; [exact Hrepr' | by apply Hhash' | exact Hok' | exact Hload' |
          | exact Hsized' | by eapply key_contract_params].
  destruct (scan (heap m) (cmp_key ht) (key_size ht) l k).1 as [a|].
  - destruct Hcase as (n & _ & _ & Hnum & _ & Hcount & _).
    unfold card_inv. split; rewrite Hnum; [by rewrite Hcount | done].
  - destruct Hcase as (Hnum & _ & Hcount & _).
    rewrite wrap_small in Hnum by lia.
    unfold card_inv. split; rewrite Hnum; [rewrite Hcount; lia | done].
Qed.

Lemma removed_wf sz ht m chs k p' m' chs' :
  0 ≤ sz → wf sz ht m chs →
  (node_count chs' + 1 = node_count chs)%nat →
  let ht' := set_num_elts (set_bucket ht (hash sz ht k) p')
               (wrap sz (num_elts ht - 1)) in
  tbl_repr ht' m' chs' →
  (hash_inv sz ht m chs → hash_inv sz ht' m' chs') →
  (data_sized ht m chs → data_sized ht' m' chs') →
  wf sz ht' m' chs' ∧ num_elts ht' = num_elts ht - 1.
Proof.
  intros Hsz [Hrepr Hhash Hok Hload [Hcard Hlt] Hsized Hcontract] Hcount ht'
    Hrepr' Hhash' Hsized'.
  assert (num_elts ht' = num_elts ht - 1) as Hnum.
  { unfold ht'. cbn. apply wrap_small. lia. }
  split; [|done]. split.
  - exact Hrepr'.
  - by apply Hhash'.
  - by apply (ladder_ok_fields sz ht).
  - intros Hgt. rewrite Hnum in Hgt. apply Hload. unfold ht' in Hgt. cbn in Hgt. lia.
  - unfold card_inv. rewrite Hnum. split; lia.
  - by apply Hsized'.
  - exact Hcontract.
Qed.

Lemma remove_wf sz ht m chs k out :
  0 ≤ sz → wf sz ht m chs →
  ∃ ht' out' m' chs', ht_divchn_remove sz ht k out m = Some ((ht', out'), m') ∧
    wf sz ht' m' chs' ∧ same_params ht ht'.
Proof.
  intros Hsz Hwf.
  destruct (remove_run sz ht m chs k out (wf_repr _ _ _ _ Hwf))
    as (p & l & Hp & Hl & Hcase).
  destruct (scan (heap m) (cmp_key ht) (key_size ht) l k).1 as [a|].
  - destruct Hcase as (n & p' & m' & chs' & Hn & Hal & Hkeq & Hrun & Hrepr' & Hbrk &
                       Hfreed & Hgone & Hdat & Hin & Hcount & Hhash' & Hsized').
    destruct (removed_wf sz ht m chs k p' m' chs' Hsz Hwf Hcount Hrepr' Hhash' Hsized')
      as [Hwf' _].
    by eexists _, _, m', chs'.
  - exists ht, out, m, chs. split; [done|]. split; [done | apply same_params_refl].
Qed.

Lemma delete_wf sz ht m chs k :
  0 ≤ sz → wf sz ht m chs →
  ∃ ht' m' chs', ht_divchn_delete sz ht k m = Some (ht', m') ∧
    wf sz ht' m' chs' ∧ same_params ht ht'.
Proof.
  intros Hsz Hwf.
  destruct (delete_run sz ht m chs k (wf_repr _ _ _ _ Hwf))
    as (p & l & Hp & Hl & Hcase).
  destruct (scan (heap m) (cmp_key ht) (key_size ht) l k).1 as [a|].
  - destruct Hcase as (n & p' & m' & chs' & Hn & Hal & Hkeq & Hrun & Hrepr' & Hbrk &
                       Hfreed & Hgone & Hdat & Hin & Hcount & Hhash' & Hsized').
    destruct (removed_wf sz ht m chs k p' m' chs' Hsz Hwf Hcount Hrepr' Hhash' Hsized')
      as [Hwf' _].
    by eexists _, m', chs'.
  - exists ht, m, chs. split; [done|]. split; [done | apply same_params_refl].
Qed.

(** ** Searching after an insertion *)

Lemma search_of_scan sz ht m chs k l a n :
  tbl_repr ht m chs → chs !! Z.to_nat (hash sz ht k) = Some l →
  (scan (heap m) (cmp_key ht) (key_size ht) l k).1 = Some a →
  heap m !! a = Some n →
  ht_divchn_search sz ht k m = Some (Some (elt n), m).
Proof.
  intros Hrepr Hl Hs Hn.
  destruct (search_run sz ht m chs k Hrepr) as (l' & Hl' & Hrun).
  rewrite Hl in Hl'. injection Hl' as <-. by rewrite Hrun, Hs, Hn.
Qed.

Lemma search_none_scan sz ht m chs k l r :
  tbl_repr ht m chs → chs !! Z.to_nat (hash sz ht k) = Some l →
  ht_divchn_search sz ht k m = Some (None, r) →
  (scan (heap m) (cmp_key ht) (key_size ht) l k).1 = None.
Proof.
  intros Hrepr Hl Hsearch.
  destruct (search_run sz ht m chs k Hrepr) as (l' & Hl' & Hrun).
  rewrite Hl in Hl'. injection Hl' as <-. rewrite Hrun in Hsearch.
  destruct (scan_spec (heap m) (cmp_key ht) (key_size ht) l k)
    as [[Hs _] | (l1 & c & l2 & nc & -> & Hs & Hc & _)].
  { intros a Ha. apply (in_chains_allocated _ _ _ _ Hrepr).
    by exists (Z.to_nat (hash sz ht k)), l. }
  - by rewrite Hs.
  - rewrite Hs in Hsearch. cbn in Hsearch. by rewrite Hc in Hsearch.
Qed.

(** After [insert(k, e)] the search of [k] ends on a node that holds [e]:
    the node that held the key, or the new node [brk m]. *)
Lemma insert_then_found sz ht m chs k e :
  2 ≤ sz → wf sz ht m chs →
  Z.of_nat (length k) = key_size ht → Z.of_nat (length e) = elt_size ht →
  ∃ ht' m' chs' l' a' n',
    ht_divchn_insert sz ht k e m = Some (ht', m') ∧
    tbl_repr ht' m' chs' ∧ hash_inv sz ht' m' chs' ∧ ladder_ok sz ht' ∧
    load_inv sz ht' ∧ data_sized ht' m' chs' ∧ same_params ht ht' ∧
    chs' !! Z.to_nat (hash sz ht' k) = Some l' ∧
    (scan (heap m') (cmp_key ht') (key_size ht') l' k).1 = Some a' ∧
    heap m' !! a' = Some n' ∧ elt n' = e ∧
    (∀ b nb, in_chains chs' b → b ≠ a' → heap m' !! b = Some nb →
       in_chains chs b ∧ node_data (heap m) b = Some (key nb, elt nb)) ∧
    (absent ht m chs k →
       a' = brk m ∧ key n' = k ∧ num_elts ht' = wrap sz (num_elts ht + 1) ∧
       freed m' = freed m ∧
       ∀ b, in_chains chs' b ↔ b = brk m ∨ in_chains chs b).
Proof.
  intros Hsz [Hrepr Hhash Hok Hload Hcard Hsized Hcontract] Hk He.
  destruct (insert_spec sz ht m chs k e Hsz Hrepr Hok Hsized Hk He)
    as (l & Hl & ht' & m' & chs' & Hrun & Hrepr' & Hok' & Hload' & Hsized' & Hsp &
        Hhash' & Hcase).
  specialize (Hhash' Hhash).
  pose proof Hsp as (Hks & Hes & _ & _ & _ & Hck & Hrk & Hfe).
  assert (0 ≤ hash sz ht' k < count ht') as Hix by (apply hash_range, Hrepr').
  destruct (bucket_lookup ht' m' chs' _ Hrepr' Hix) as (p' & l' & Hp' & Hl' & Hc').
  destruct (scan (heap m) (cmp_key ht) (key_size ht) l k).1 as [a|] eqn:Hs.
  - (* update in place *)
    destruct Hcase as (n & Hn & Hal & Hnum & Hin & Hcount & Hnew & Hdat & Hbrk &
                       Hfreed & Hstay).
    destruct (Hstay Hload) as [-> ->].
    rewrite Hl in Hl'. injection Hl' as <-.
    assert (is_Some (heap m' !! a)) as [n' Hn'].
    { apply node_data_is_Some. by rewrite Hnew. }
    rewrite (node_data_key _ _ _ Hn') in Hnew. injection Hnew as Hkn Hen.
    exists ht, m', chs, l, a, n'. split; [done|].
    do 6 (split; [done|]). split; [done|]. split.
    { rewrite <- Hs. f_equal. apply scan_same_keys. intros b Hb.
      destruct (decide (b = a)) as [->|Hne].
      - by rewrite Hn, Hn'; cbn; rewrite Hkn.
      - apply node_data_same_key. by apply Hdat. }
    split; [done|]. split; [done|]. split.
    { intros b nb Hb Hne Hnb. split; [done|].
      rewrite <- (Hdat b Hne). by apply node_data_key. }
    intros Habs. exfalso.
    destruct (scan_spec (heap m) (cmp_key ht) (key_size ht) l k)
      as [[Hs' _] | (l1 & c & l2 & nc & Hl12 & Hs' & Hc0 & Hkc & _)].
    { intros b Hb. apply (in_chains_allocated _ _ _ _ Hrepr).
      by exists (Z.to_nat (hash sz ht k)), l. }
    + rewrite Hs' in Hs. done.
    + rewrite (Habs c nc) in Hkc; [done | | done].
      exists (Z.to_nat (hash sz ht k)), l. split; [done|].
      rewrite Hl12. apply elem_of_app. right. left.
  - (* a new node *)
    destruct Hcase as (Hnum & Hin & Hcount & Hnin & Hnew & Hdat & Hbrk & Hfreed).
    set (a := brk m) in *.
    assert (is_Some (heap m' !! a)) as [n' Hn'].
    { apply node_data_is_Some. by rewrite Hnew. }
    rewrite (node_data_key _ _ _ Hn') in Hnew. injection Hnew as Hkn Hen.
    assert (absent ht m chs k) as Habs by (by eapply scan_none_absent).
    assert (in_chains chs' a) as (i & li & Hi & Hai) by (apply Hin; by left).
    pose proof (Hhash' i li a n' Hi Hai Hn') as Hh. rewrite Hkn in Hh.
    rewrite Hh, Nat2Z.id, Hi in Hl'. injection Hl' as <-.
    exists ht', m', chs', li, a, n'. split; [done|].
    do 6 (split; [done|]). split; [by rewrite Hh, Nat2Z.id|]. split.
    { apply (scan_unique _ _ _ _ _ a n'); try done.
      - intros b Hb. apply (in_chains_allocated _ _ _ _ Hrepr'). by exists i, li.
      - rewrite Hks, Hck, Hkn. by apply (proj1 Hcontract).
      - intros b nb Hb Hne Hnb. rewrite Hks, Hck.
        assert (in_chains chs b) as Hinb.
        { assert (in_chains chs' b) as Hb' by (by exists i, li).
          apply Hin in Hb' as [?|?]; done. }
        pose proof (Hdat b Hne) as Hd. rewrite (node_data_key _ _ _ Hnb) in Hd.
        unfold node_data in Hd. destruct (heap m !! b) as [nb0|] eqn:Hb0; [|done].
        cbn in Hd. injection Hd as -> _. by apply (Habs b nb0). }
    split; [done|]. split; [done|]. split.
    { intros b nb Hb Hne Hnb. apply Hin in Hb as [?|Hb]; [done|]. split; [done|].
      rewrite <- (Hdat b Hne). by apply node_data_key. }
    intros _. done.
Qed.

(** ** The example tables *)

Lemma mem0_bound : heap_bound mem0.
Proof. intros a [n Hn]. cbn in Hn. by rewrite lookup_empty in Hn. Qed.

Lemma table0_init :
  ht_divchn_init 8 blk1 2 1 0 3 3 None None true mem0 = Some (table0, mem0).
Proof. vm_compute. reflexivity. Qed.

Lemma table0_wf : wf 8 table0 mem0 (replicate 1543 []).
Proof.
  destruct (init_wf 8 blk1 2 1 0 3 3 None None true mem0 ltac:(lia) mem0_bound)
    as (ht & Hrun & Hwf).
  rewrite table0_init in Hrun. injection Hrun as <-.
  apply Hwf. by apply key_contract_default.
Qed.

Lemma table1_insert :
  ht_divchn_insert 8 table0 [x01; x02] [x03] mem0 = Some (table1, mem1).
Proof. vm_compute. reflexivity. Qed.

Lemma table1_wf : ∃ chs, wf 8 table1 mem1 chs.
Proof.
  destruct (insert_wf 8 table0 mem0 _ [x01; x02] [x03] ltac:(lia) table0_wf)
    as (ht' & m' & chs' & Hrun & Hwf & _); [reflexivity | reflexivity | |].
  { vm_compute. reflexivity. }
  rewrite table1_insert in Hrun. injection Hrun as <- <-. by exists chs'.
Qed.

(** ** Insertion of a key that is present *)

Lemma node_data_lookup h a k e :
  node_data h a = Some (k, e) → ∃ n, h !! a = Some n ∧ key n = k ∧ elt n = e.
Proof.
  unfold node_data. destruct (h !! a) as [n|]; [|done].
  cbn. intros [= <- <-]. by exists n.
Qed.

Lemma insert_present sz ht m chs k e l a n :
  2 ≤ sz → tbl_repr ht m chs → ladder_ok sz ht → load_inv sz ht →
  data_sized ht m chs →
  Z.of_nat (length k) = key_size ht → Z.of_nat (length e) = elt_size ht →
  chs !! Z.to_nat (hash sz ht k) = Some l →
  (scan (heap m) (cmp_key ht) (key_size ht) l k).1 = Some a →
  heap m !! a = Some n →
  ∃ m', ht_divchn_insert sz ht k e m = Some (ht, m') ∧
    tbl_repr ht m' chs ∧ data_sized ht m' chs ∧
    (hash_inv sz ht m chs → hash_inv sz ht m' chs) ∧
    node_data (heap m') a = Some (key n, e) ∧
    (∀ b, b ≠ a → node_data (heap m') b = node_data (heap m) b) ∧
    brk m' = brk m ∧
    freed m' = freed m ++ (if free_elt ht then [elt n] else []) ∧
    ht_divchn_search sz ht k m' = Some (Some e, m').
Proof.
  intros Hsz Hrepr Hok Hload Hsized Hk He Hl Hs Hn.
  destruct (insert_spec sz ht m chs k e Hsz Hrepr Hok Hsized Hk He)
    as (l0 & Hl0 & ht' & m' & chs' & Hrun & Hrepr' & Hok' & Hload' & Hsized' & Hsp &
        Hhash' & Hcase).
  rewrite Hl in Hl0. injection Hl0 as <-. rewrite Hs in Hcase.
  destruct Hcase as (n0 & Hn0 & Hal & Hnum & Hin & Hcount & Hda & Hdb & Hbrk &
                     Hfreed & Hsame).
  rewrite Hn in Hn0. injection Hn0 as <-.
  destruct (Hsame Hload) as [-> ->].
  exists m'. split; [exact Hrun|]. split; [exact Hrepr'|]. split; [exact Hsized'|].
  split; [exact Hhash'|]. split; [exact Hda|]. split; [exact Hdb|].
  split; [exact Hbrk|]. split; [exact Hfreed|].
  destruct (node_data_lookup _ _ _ _ Hda) as (n' & Hn' & Hkn' & Hen').
  rewrite <- Hen'. apply (search_of_scan sz ht m' chs k l a n' Hrepr' Hl); [|exact Hn'].
  rewrite <- Hs. f_equal. apply scan_same_keys. intros b Hb.
  destruct (decide (b = a)) as [->|Hne].
  - rewrite Hn', Hn. cbn. by rewrite Hkn'.
  - apply node_data_same_key. by apply Hdb.
Qed.

(** ** The table after [ht_divchn_init] *)

Lemma init_empty sz blk ks es min_num an ld cmp rdc fe m :
  2 ≤ sz →
  ∃ ht, ht_divchn_init sz blk ks es min_num an ld cmp rdc fe m = Some (ht, m) ∧
    num_elts ht = 0 ∧ load_inv sz ht ∧ ladder_ok sz ht ∧
    key_elts ht = replicate (Z.to_nat (count ht)) dll_init ∧
    hash_inv sz ht m (replicate (Z.to_nat (count ht)) []) ∧
    (heap_bound m → tbl_repr ht m (replicate (Z.to_nat (count ht)) [])).
Proof.
  intros Hsz.
  destruct (init_spec sz blk ks es min_num an ld cmp rdc fe m Hsz)
    as (ht & Hrun & Hks & Hes & Hea & Han & Hld & Hck & Hrk & Hfe & Hnum & Hke &
        Hok & Hmx & _).
  exists ht. split; [exact Hrun|]. split; [exact Hnum|].
  split; [intros Hgt; lia|]. split; [exact Hok|]. split; [exact Hke|].
  split.
  - intros i l a n Hi Ha. apply lookup_replicate in Hi as [-> _].
    by apply elem_of_nil in Ha.
  - intros Hbound.
    destruct (empty_chains (heap m) (Z.to_nat (count ht)))
      as (Hch0 & Hdis0 & Hin0 & Hcount0).
    pose proof (ladder_ok_count_pos sz ht Hsz Hok) as Hpos.
    split; [lia|]. split; [by rewrite Hke, length_replicate|].
    split; [by rewrite Hke|]. split; [exact Hdis0 | exact Hbound].
Qed.

(** ** The claims on the operations of the table *)

(** C3. After [ht_divchn_init], and after [ht_divchn_insert],
    [ht_divchn_remove] and [ht_divchn_delete] on a well-formed table, a
    number of elements above [max_num_elts] is only met with [count_ix] at
    [C_SIZE_MAX] (saturated) or at [C_PRIME_PARTS_COUNT] (exhausted); the
    operations return, and the table they return is well-formed again, so
    that the property holds after any sequence of them. The [ht_grow] that
    an insertion calls on a rung of the ladder returns with the number of
    elements unchanged and the property restored. *)
Theorem load_bound_after_operations sz :
  2 ≤ sz →
  (∀ blk ks es min_num an ld cmp rdc fe m,
     ∃ ht, ht_divchn_init sz blk ks es min_num an ld cmp rdc fe m = Some (ht, m) ∧
       num_elts ht = 0 ∧ load_inv sz ht) ∧
  (∀ ht m chs k e,
     wf sz ht m chs →
     Z.of_nat (length k) = key_size ht → Z.of_nat (length e) = elt_size ht →
     ∃ ht' m' chs', ht_divchn_insert sz ht k e m = Some (ht', m') ∧
       load_inv sz ht' ∧
       (num_elts ht + 1 < 2 ^ C_FULL_BIT sz → wf sz ht' m' chs')) ∧
  (∀ ht m chs k out,
     wf sz ht m chs →
     ∃ ht' out' m' chs',
       ht_divchn_remove sz ht k out m = Some ((ht', out'), m') ∧
       load_inv sz ht' ∧ wf sz ht' m' chs') ∧
  (∀ ht m chs k,
     wf sz ht m chs →
     ∃ ht' m' chs', ht_divchn_delete sz ht k m = Some (ht', m') ∧
       load_inv sz ht' ∧ wf sz ht' m' chs') ∧
  (∀ ht m chs i,
     tbl_repr ht m chs → at_rung sz ht i →
     ∃ ht' m', ht_grow sz ht m = Some (ht', m') ∧
       num_elts ht' = num_elts ht ∧ load_inv sz ht').
Proof.
  intros Hsz. split; [|split; [|split; [|split]]].
  - intros blk ks es min_num an ld cmp rdc fe m.
    destruct (init_empty sz blk ks es min_num an ld cmp rdc fe m Hsz)
      as (ht & Hrun & Hnum & Hload & _).
    by exists ht.
  - intros ht m chs k e Hwf Hk He.
    destruct (insert_spec sz ht m chs k e Hsz (wf_repr _ _ _ _ Hwf)
                (wf_ladder _ _ _ _ Hwf) (wf_sized _ _ _ _ Hwf) Hk He)
      as (l & Hl & ht' & m' & chs' & Hrun & Hrepr' & Hok' & Hload' & _).
    destruct (decide (num_elts ht + 1 < 2 ^ C_FULL_BIT sz)) as [Hroom|Hfull].
    + destruct (insert_wf sz ht m chs k e Hsz Hwf Hk He Hroom)
        as (ht2 & m2 & chs2 & Hrun2 & Hwf2 & _).
      rewrite Hrun in Hrun2. injection Hrun2 as <- <-.
      exists ht', m', chs2. split; [exact Hrun|]. split; [exact Hload'|]. done.
    + exists ht', m', chs'. split; [exact Hrun|]. split; [exact Hload'|]. done.
  - intros ht m chs k out Hwf.
    destruct (remove_wf sz ht m chs k out ltac:(lia) Hwf)
      as (ht' & out' & m' & chs' & Hrun & Hwf' & _).
    exists ht', out', m', chs'. split; [exact Hrun|].
    split; [exact (wf_load _ _ _ _ Hwf') | exact Hwf'].
  - intros ht m chs k Hwf.
    destruct (delete_wf sz ht m chs k ltac:(lia) Hwf)
      as (ht' & m' & chs' & Hrun & Hwf' & _).
    exists ht', m', chs'. split; [exact Hrun|].
    split; [exact (wf_load _ _ _ _ Hwf') | exact Hwf'].
  - intros ht m chs i Hrepr Hrung.
    destruct (grow_spec sz ht m chs i Hsz Hrepr Hrung)
      as (ht' & m' & chs' & Hrun & _ & _ & Hload' & _ & Hnum & _).
    by exists ht', m'.
Qed.

Lemma load_bound_after_operations_witness :
  2 ≤ 8 ∧
  ∃ ht' m', ht_divchn_insert 8 table1 [x08; x08] [x0a] mem1 = Some (ht', m') ∧
    load_inv 8 ht'.
Proof.
  split; [lia|].
  destruct table1_wf as [chs Hwf].
  destruct (load_bound_after_operations 8 ltac:(lia)) as (_ & Hins & _).
  destruct (Hins table1 mem1 chs [x08; x08] [x0a] Hwf eq_refl eq_refl)
    as (ht' & m' & _ & Hrun & Hload & _).
  by exists ht', m'.
Defined.

(** C7. Every node on the chain of bucket [i] has a key that [hash] sends
    to [i] under the current [count]: this holds of the table that
    [ht_divchn_init] makes, [ht_divchn_insert], [ht_divchn_remove] and
    [ht_divchn_delete] return with it kept, and so does [ht_grow], which
    keeps the nodes and their data; after an [ht_grow] that changed
    [count], every node is on the chain its key hashes to under the new
    [count], whatever held before. *)
Theorem hash_inv_after_operations sz :
  2 ≤ sz →
  (∀ blk ks es min_num an ld cmp rdc fe m,
     heap_bound m →
     ∃ ht, ht_divchn_init sz blk ks es min_num an ld cmp rdc fe m = Some (ht, m) ∧
       tbl_repr ht m (replicate (Z.to_nat (count ht)) []) ∧
       hash_inv sz ht m (replicate (Z.to_nat (count ht)) [])) ∧
  (∀ ht m chs k e,
     tbl_repr ht m chs → hash_inv sz ht m chs →
     ladder_ok sz ht → data_sized ht m chs →
     Z.of_nat (length k) = key_size ht → Z.of_nat (length e) = elt_size ht →
     ∃ ht' m' chs', ht_divchn_insert sz ht k e m = Some (ht', m') ∧
       tbl_repr ht' m' chs' ∧ hash_inv sz ht' m' chs') ∧
  (∀ ht m chs k out,
     tbl_repr ht m chs → hash_inv sz ht m chs →
     ∃ ht' out' m' chs',
       ht_divchn_remove sz ht k out m = Some ((ht', out'), m') ∧
       tbl_repr ht' m' chs' ∧ hash_inv sz ht' m' chs') ∧
  (∀ ht m chs k,
     tbl_repr ht m chs → hash_inv sz ht m chs →
     ∃ ht' m' chs', ht_divchn_delete sz ht k m = Some (ht', m') ∧
       tbl_repr ht' m' chs' ∧ hash_inv sz ht' m' chs') ∧
  (∀ ht m chs i,
     tbl_repr ht m chs → at_rung sz ht i →
     ∃ ht' m' chs', ht_grow sz ht m = Some (ht', m') ∧
       tbl_repr ht' m' chs' ∧
       (∀ b, in_chains chs' b ↔ in_chains chs b) ∧
       (∀ b, node_data (heap m') b = node_data (heap m) b) ∧
       (hash_inv sz ht m chs → hash_inv sz ht' m' chs') ∧
       (count ht' ≠ count ht → hash_inv sz ht' m' chs')).
Proof.
  intros Hsz. split; [|split; [|split; [|split]]].
  - intros blk ks es min_num an ld cmp rdc fe m Hbound.
    destruct (init_empty sz blk ks es min_num an ld cmp rdc fe m Hsz)
      as (ht & Hrun & _ & _ & _ & _ & Hhash & Hrepr).
    exists ht. split; [exact Hrun|]. split; [by apply Hrepr | exact Hhash].
  - intros ht m chs k e Hrepr Hhash Hok Hsized Hk He.
    destruct (insert_spec sz ht m chs k e Hsz Hrepr Hok Hsized Hk He)
      as (l & Hl & ht' & m' & chs' & Hrun & Hrepr' & _ & _ & _ & _ & Hhash' & _).
    exists ht', m', chs'. split; [exact Hrun|]. split; [exact Hrepr' | by apply Hhash'].
  - intros ht m chs k out Hrepr Hhash.
    destruct (remove_run sz ht m chs k out Hrepr) as (p & l & Hp & Hl & Hcase).
    destruct (scan (heap m) (cmp_key ht) (key_size ht) l k).1 as [a|].
    + destruct Hcase as (n & p' & m' & chs' & _ & _ & _ & Hrun & Hrepr' & _ & _ & _ &
                         _ & _ & _ & Hhash' & _).
      eexists _, _, m', chs'. split; [exact Hrun|].
      split; [exact Hrepr' | by apply Hhash'].
    + by exists ht, out, m, chs.
  - intros ht m chs k Hrepr Hhash.
    destruct (delete_run sz ht m chs k Hrepr) as (p & l & Hp & Hl & Hcase).
    destruct (scan (heap m) (cmp_key ht) (key_size ht) l k).1 as [a|].
    + destruct Hcase as (n & p' & m' & chs' & _ & _ & _ & Hrun & Hrepr' & _ & _ & _ &
                         _ & _ & _ & Hhash' & _).
      eexists _, m', chs'. split; [exact Hrun|].
      split; [exact Hrepr' | by apply Hhash'].
    + by exists ht, m, chs.
  - intros ht m chs i Hrepr Hrung.
    destruct (grow_spec sz ht m chs i Hsz Hrepr Hrung)
      as (ht' & m' & chs' & Hrun & Hrepr' & _ & _ & _ & _ & Hin & _ & _ & _ & Hdat &
          Hkeep & Hnew).
    exists ht', m', chs'. split; [exact Hrun|]. split; [exact Hrepr'|].
    split; [exact Hin|]. split; [exact Hdat|]. split; [exact Hkeep | exact Hnew].
Qed.

Lemma hash_inv_after_operations_witness :
  2 ≤ 8 ∧
  ∃ ht' m' chs', ht_divchn_insert 8 table1 [x08; x08] [x0a] mem1 = Some (ht', m') ∧
    tbl_repr ht' m' chs' ∧ hash_inv 8 ht' m' chs'.
Proof.
  split; [lia|].
  destruct table1_wf as [chs Hwf].
  destruct (hash_inv_after_operations 8 ltac:(lia)) as (_ & Hins & _).
  exact (Hins table1 mem1 chs [x08; x08] [x0a] (wf_repr _ _ _ _ Hwf)
           (wf_hash _ _ _ _ Hwf) (wf_ladder _ _ _ _ Hwf) (wf_sized _ _ _ _ Hwf)
           eq_refl eq_refl).
Defined.

(** C6. When no node of the table has a key equal to [k], [ht_divchn_remove]
    and [ht_divchn_delete] return the table as it was, in the memory as it
    was (the bucket array, the nodes and their links, [count] and
    [num_elts] are the same, nothing is freed), and [ht_divchn_remove]
    leaves the block [out] of the caller as it was. *)
Theorem remove_delete_absent_noop sz ht m chs k out :
  tbl_repr ht m chs → absent ht m chs k →
  ht_divchn_search sz ht k m = Some (None, m) ∧
  ht_divchn_remove sz ht k out m = Some ((ht, out), m) ∧
  ht_divchn_delete sz ht k m = Some (ht, m).
Proof.
  intros Hrepr Habs.
  destruct (search_run sz ht m chs k Hrepr) as (l & Hl & Hsearch).
  destruct (remove_run sz ht m chs k out Hrepr) as (p & l1 & Hp & Hl1 & Hrem).
  destruct (delete_run sz ht m chs k Hrepr) as (p2 & l2 & Hp2 & Hl2 & Hdel).
  rewrite Hl in Hl1, Hl2. injection Hl1 as <-. injection Hl2 as <-.
  pose proof (absent_scan ht m chs k _ l Hrepr Habs Hl) as Hs.
  rewrite Hs in Hsearch, Hrem, Hdel. done.
Qed.

Lemma table1_absent chs : absent table1 mem1 chs [x08; x08].
Proof.
  intros a n _ Hn. cbn in Hn. apply lookup_singleton_Some in Hn as [_ <-].
  reflexivity.
Qed.

Lemma remove_delete_absent_noop_witness :
  ht_divchn_search 8 table1 [x08; x08] mem1 = Some (None, mem1) ∧
  ht_divchn_remove 8 table1 [x08; x08] [xff] mem1 = Some ((table1, [xff]), mem1) ∧
  ht_divchn_delete 8 table1 [x08; x08] mem1 = Some (table1, mem1).
Proof.
  destruct table1_wf as [chs Hwf].
  exact (remove_delete_absent_noop 8 table1 mem1 chs [x08; x08] [xff]
           (wf_repr _ _ _ _ Hwf) (table1_absent chs)).
Defined.

(** ** Updates and round trips *)

Lemma search_found_scan sz ht m chs k e0 r :
  tbl_repr ht m chs → ht_divchn_search sz ht k m = Some (Some e0, r) →
  ∃ l a n, chs !! Z.to_nat (hash sz ht k) = Some l ∧
    (scan (heap m) (cmp_key ht) (key_size ht) l k).1 = Some a ∧
    a ∈ l ∧ heap m !! a = Some n ∧ elt n = e0.
Proof.
  intros Hrepr Hsearch.
  destruct (search_run sz ht m chs k Hrepr) as (l & Hl & Hrun).
  rewrite Hrun in Hsearch.
  destruct (scan_spec (heap m) (cmp_key ht) (key_size ht) l k)
    as [[Hs _] | (l1 & c & l2 & nc & -> & Hs & Hc & _)].
  { intros a Ha. apply (in_chains_allocated _ _ _ _ Hrepr).
    by exists (Z.to_nat (hash sz ht k)), l. }
  - by rewrite Hs in Hsearch.
  - rewrite Hs in Hsearch. cbn in Hsearch. rewrite Hc in Hsearch.
    cbn in Hsearch. injection Hsearch as He _.
    exists (l1 ++ c :: l2), c, nc. split; [exact Hl|]. split; [by rewrite Hs|].
    split; [|done]. apply elem_of_app. right. by left.
Qed.

Lemma search_absent sz ht m chs k :
  tbl_repr ht m chs → absent ht m chs k →
  ht_divchn_search sz ht k m = Some (None, m).
Proof.
  intros Hrepr Habs.
  destruct (search_run sz ht m chs k Hrepr) as (l & Hl & Hsearch).
  by rewrite (absent_scan ht m chs k _ l Hrepr Habs Hl) in Hsearch.
Qed.

Lemma wrap_succ_pred sz n :
  0 ≤ sz → 0 ≤ n < 2 ^ C_FULL_BIT sz → wrap sz (wrap sz (n + 1) - 1) = n.
Proof.
  intros Hsz Hn. unfold wrap. rewrite Zminus_mod_idemp_l.
  replace (n + 1 - 1) with n by lia. apply Z.mod_small. unfold C_FULL_BIT in *. lia.
Qed.

(** C4. On a table that holds the key [k] with the element [e0],
    [ht_divchn_insert] of [(k, e)] returns the table itself: [num_elts],
    [count] and the bucket array are the same and no node is allocated.
    The callback [free_elt], when one was supplied, is called once, on the
    stored element [e0]; the node that held the key then holds [e] under
    the same key, every other node holds what it held, and the search of
    [k] gives [e]. Hence, on any well-formed table, after one insertion of
    [(k, e)] a second one returns the same table, with [e] handed once to
    the callback, and the search of [k] gives [e] after the first and after
    the second. *)
Theorem insert_present_updates_in_place sz ht m chs k e :
  2 ≤ sz → wf sz ht m chs →
  Z.of_nat (length k) = key_size ht → Z.of_nat (length e) = elt_size ht →
  (∀ e0, ht_divchn_search sz ht k m = Some (Some e0, m) →
     ∃ a n m', in_chains chs a ∧ heap m !! a = Some n ∧ elt n = e0 ∧
       ht_divchn_insert sz ht k e m = Some (ht, m') ∧
       freed m' = freed m ++ (if free_elt ht then [e0] else []) ∧
       node_data (heap m') a = Some (key n, e) ∧
       (∀ b, b ≠ a → node_data (heap m') b = node_data (heap m) b) ∧
       brk m' = brk m ∧ wf sz ht m' chs ∧
       ht_divchn_search sz ht k m' = Some (Some e, m')) ∧
  (∃ ht1 m1 m2,
     ht_divchn_insert sz ht k e m = Some (ht1, m1) ∧
     ht_divchn_search sz ht1 k m1 = Some (Some e, m1) ∧
     ht_divchn_insert sz ht1 k e m1 = Some (ht1, m2) ∧
     ht_divchn_search sz ht1 k m2 = Some (Some e, m2) ∧
     freed m2 = freed m1 ++ (if free_elt ht then [e] else [])).
Proof.
  intros Hsz Hwf Hk He. split.
  - intros e0 Hsearch.
    destruct Hwf as [Hrepr Hhash Hok Hload Hcard Hsized Hcontract].
    destruct (search_found_scan sz ht m chs k e0 m Hrepr Hsearch)
      as (l & a & n & Hl & Hs & Hal & Hn & Hen).
    destruct (insert_present sz ht m chs k e l a n Hsz Hrepr Hok Hload Hsized Hk He
                Hl Hs Hn)
      as (m' & Hrun & Hrepr' & Hsized' & Hhash' & Hda & Hdb & Hbrk & Hfreed & Hfound).
    exists a, n, m'. split; [by exists (Z.to_nat (hash sz ht k)), l|].
    split; [exact Hn|]. split; [exact Hen|]. split; [exact Hrun|].
    split; [by rewrite <- Hen|]. split; [exact Hda|]. split; [exact Hdb|].
    split; [exact Hbrk|]. split; [|exact Hfound].
    split; [exact Hrepr' | by apply Hhash' | exact Hok | exact Hload | exact Hcard |
            exact Hsized' | exact Hcontract].
  - destruct (insert_then_found sz ht m chs k e Hsz Hwf Hk He)
      as (ht1 & m1 & chs1 & l1 & a1 & n1 & Hrun1 & Hrepr1 & Hhash1 & Hok1 & Hload1 &
          Hsized1 & Hsp & Hl1 & Hs1 & Hn1 & Hen1 & _).
    destruct Hsp as (Hks & Hes & _ & _ & _ & _ & _ & Hfe).
    destruct (insert_present sz ht1 m1 chs1 k e l1 a1 n1 Hsz Hrepr1 Hok1 Hload1
                Hsized1 ltac:(by rewrite Hks) ltac:(by rewrite Hes) Hl1 Hs1 Hn1)
      as (m2 & Hrun2 & _ & _ & _ & _ & _ & _ & Hfreed2 & Hfound2).
    exists ht1, m1, m2. split; [exact Hrun1|]. split.
    { rewrite <- Hen1. by apply (search_of_scan sz ht1 m1 chs1 k l1 a1 n1). }
    split; [exact Hrun2|]. split; [exact Hfound2|].
    by rewrite Hfreed2, Hfe, Hen1.
Qed.

Lemma insert_present_updates_in_place_witness :
  ∃ m', ht_divchn_insert 8 table1 [x01; x02] [x09] mem1 = Some (table1, m') ∧
    freed m' = [[x03]] ∧
    ht_divchn_search 8 table1 [x01; x02] m' = Some (Some [x09], m').
Proof.
  destruct table1_wf as [chs Hwf].
  destruct (insert_present_updates_in_place 8 table1 mem1 chs [x01; x02] [x09]
              ltac:(lia) Hwf eq_refl eq_refl) as [Hupd _].
  destruct (Hupd [x03] eq_refl)
    as (a & n & m' & _ & _ & _ & Hrun & Hfreed & _ & _ & _ & _ & Hfound).
  by exists m'.
Defined.

(** C5. On a well-formed table with no key equal to [k],
    [ht_divchn_insert] of [(k, e)] followed by [ht_divchn_remove] of [k]
    into a block [out] of the size of an element leaves [e] in [out];
    afterwards the search of [k] returns [NULL] and [num_elts] is what it
    was before the insertion. Nothing is handed to [free_elt], neither by
    the insertion nor by the removal. *)
Theorem insert_remove_round_trip sz ht m chs k e out :
  2 ≤ sz → wf sz ht m chs →
  Z.of_nat (length k) = key_size ht → Z.of_nat (length e) = elt_size ht →
  length out = length e →
  absent ht m chs k →
  ∃ ht1 m1 ht2 m2,
    ht_divchn_insert sz ht k e m = Some (ht1, m1) ∧
    ht_divchn_remove sz ht1 k out m1 = Some ((ht2, e), m2) ∧
    ht_divchn_search sz ht2 k m2 = Some (None, m2) ∧
    num_elts ht2 = num_elts ht ∧
    freed m1 = freed m ∧ freed m2 = freed m1.
Proof.
  intros Hsz Hwf Hk He Hout Habs.
  pose proof (wf_num_elts _ _ _ _ Hwf) as Hrange.
  destruct (insert_then_found sz ht m chs k e Hsz Hwf Hk He)
    as (ht1 & m1 & chs1 & l1 & a1 & n1 & Hrun1 & Hrepr1 & Hhash1 & Hok1 & Hload1 &
        Hsized1 & Hsp & Hl1 & Hs1 & Hn1 & Hen1 & Hold & Hnew).
  destruct (Hnew Habs) as (Ha1 & Hkn1 & Hnum1 & Hfreed1 & Hin1).
  destruct Hsp as (Hks & Hes & _ & _ & _ & Hck & _ & _).
  destruct (remove_run sz ht1 m1 chs1 k out Hrepr1) as (p & l & Hp & Hl & Hcase).
  rewrite Hl1 in Hl. injection Hl as <-. rewrite Hs1 in Hcase.
  destruct Hcase as (n & p' & m2 & chs2 & Hn & _ & _ & Hrun2 & Hrepr2 & _ & Hfreed2 &
                     _ & Hdat2 & Hin2 & _).
  rewrite Hn1 in Hn. injection Hn as <-.
  rewrite (memcpy_full out (elt n1) (elt_size ht1)) in Hrun2;
    [| by rewrite Hen1, Hes | by rewrite Hen1].
  rewrite Hen1 in Hrun2.
  eexists ht1, m1, _, m2. split; [exact Hrun1|]. split; [exact Hrun2|].
  split; [|split; [|done]].
  - apply (search_absent sz _ m2 chs2); [exact Hrepr2|].
    intros b nb Hb Hnb. cbn. rewrite Hck, Hks.
    apply Hin2 in Hb as [Hb Hne].
    pose proof (Hdat2 b Hne) as Hd. rewrite (node_data_key _ _ _ Hnb) in Hd.
    symmetry in Hd. apply node_data_lookup in Hd as (nb1 & Hnb1 & Hk1 & _).
    destruct (Hold b nb1 Hb Hne Hnb1) as [Hb0 Hd0].
    apply node_data_lookup in Hd0 as (nb0 & Hnb0 & Hk0 & _).
    rewrite <- Hk1, <- Hk0. by apply (Habs b nb0).
  - cbn. rewrite Hnum1. apply wrap_succ_pred; lia.
Qed.

Lemma insert_remove_round_trip_witness :
  ∃ ht1 m1 ht2 m2,
    ht_divchn_insert 8 table1 [x08; x08] [x0a] mem1 = Some (ht1, m1) ∧
    ht_divchn_remove 8 ht1 [x08; x08] [xff] m1 = Some ((ht2, [x0a]), m2) ∧
    ht_divchn_search 8 ht2 [x08; x08] m2 = Some (None, m2) ∧
    num_elts ht2 = 1 ∧ freed m2 = [].
Proof.
  destruct table1_wf as [chs Hwf].
  destruct (insert_remove_round_trip 8 table1 mem1 chs [x08; x08] [x0a] [xff]
              ltac:(lia) Hwf eq_refl eq_refl eq_refl (table1_absent chs))
    as (ht1 & m1 & ht2 & m2 & Hi & Hr & Hs & Hnum & Hf1 & Hf2).
  exists ht1, m1, ht2, m2. split; [exact Hi|]. split; [exact Hr|].
  split; [exact Hs|]. split; [exact Hnum|]. by rewrite Hf2, Hf1.
Defined.

(** C8. On a 64-bit host, [ht_divchn_init] with [min_num = 2000] and the
    bound 3 / 2^3, on a block that still holds the bound 1 / 2^0, returns
    an empty table of 3119 buckets with [max_num_elts = 3119]: the bound of
    the second prime was computed by [incr_count] from the fields
    [alpha_n] and [log_alpha_d] of the block as handed in, which
    [ht_divchn_init] assigns after the loop only. Under the bound passed,
    3119 buckets take 1169 keys, fewer than [min_num]; the third prime,
    6211, is the first to take 2000, and is the count reached on a block
    that already holds the bound 3 / 2^3. *)
Theorem init_count_stale_alpha :
  ht_divchn_init 8 blk1 2 1 2000 3 3 None None true mem0 =
    Some (Ht 2 1 1 0 1 3119 3119 0 3 3 (replicate 3119 None) None None true,
          mem0) ∧
  mul_alpha_sz_max 8 3119 3 3 = 1169 ∧
  mul_alpha_sz_max 8 6211 3 3 = 2329 ∧
  count <$> (fst <$> ht_divchn_init 8 table0 2 1 2000 3 3 None None true mem0) =
    Some 6211.
Proof. vm_compute. repeat split; reflexivity. Qed.

(** ** [dll_append] and [dll_append_new] *)

Lemma chain_rotate_head h a l :
  chain h (Some a) (a :: l) →
  ∃ n, h !! a = Some n ∧ next n = head (l ++ [a]) ∧
       chain h (head (l ++ [a])) (l ++ [a]).
Proof.
  intros [_ Hr]. pose proof Hr as [_ (n & Ha & _ & Hnx & _)].
  exists n. split; [done|].
  assert (head (l ++ [a]) = Some (default a (head l))) as Hhd by (by destruct l).
  split; [by rewrite Hnx, Hhd|]. split; [done|].
  by apply (ring_rotate h [a] l).
Qed.

Lemma append_spec m p l a n :
  chain (heap m) p l → heap m !! a = Some n → a ∉ l →
  ∃ m', dll_append p (Some a) m = Some (head (l ++ [a]), m') ∧
    chain (heap m') (head (l ++ [a])) (l ++ [a]) ∧
    brk m' = brk m ∧ freed m' = freed m ∧
    (∀ b, b ∉ a :: l → heap m' !! b = heap m !! b) ∧
    (∀ b, node_data (heap m') b = node_data (heap m) b).
Proof.
  intros Hc Ha Hal.
  destruct (prepend_spec m p l a n Hc Ha Hal)
    as (m' & Hrun & Hc' & Hbrk & Hfreed & Hframe & Hdata).
  destruct (chain_rotate_head _ _ _ Hc') as (n' & Ha' & Hnx & Hc'').
  exists m'. split.
  { unfold dll_append. rewrite (bind_some _ _ _ _ _ Hrun).
    rewrite (bind_some _ _ _ _ _ (load_some _ _ _ Ha')). by rewrite Hnx. }
  done.
Qed.

Lemma append_new_spec m p l k e ks es :
  chain (heap m) p l → heap_bound m →
  ∃ m', dll_append_new p k e ks es m = Some (head (l ++ [brk m]), m') ∧
    chain (heap m') (head (l ++ [brk m])) (l ++ [brk m]) ∧
    brk m' = Pos.succ (brk m) ∧ freed m' = freed m ∧
    (brk m ∉ l) ∧
    node_data (heap m') (brk m) =
      Some (memcpy (replicate (Z.to_nat ks) x00) k ks,
            memcpy (replicate (Z.to_nat es) x00) e es) ∧
    (∀ b, b ≠ brk m → node_data (heap m') b = node_data (heap m) b).
Proof.
  intros Hc Hbound.
  destruct (prepend_new_spec m p l k e ks es Hc Hbound)
    as (m' & Hrun & Hc' & Hbrk & Hfreed & Hfresh & _ & Hnew & _ & Hdata).
  destruct (chain_rotate_head _ _ _ Hc') as (n' & Ha' & Hnx & Hc'').
  exists m'. split.
  { unfold dll_append_new. rewrite (bind_some _ _ _ _ _ Hrun).
    rewrite (bind_some _ _ _ _ _ (load_some _ _ _ Ha')). by rewrite Hnx. }
  done.
Qed.

(** ** [dll_search_elt] *)

Lemma search_elt_loop_spec h cmp hd e r :
  ∀ fuel pv,
  hd ∉ r → dseg h pv r hd → (length r ≤ fuel)%nat →
  dll_search_elt_loop fuel h cmp (Some hd) (Some (default hd (head r))) e =
  Some (scan_elt h cmp r e).
Proof.
  induction r as [|b r IH]; intros fuel pv Hhd Hd Hf.
  - cbn [head default scan_elt].
    destruct fuel; cbn [dll_search_elt_loop]; by goal_decide Heq.
  - destruct Hd as (n & Hb & Hpv & Hnx & Hd).
    apply not_elem_of_cons in Hhd as [Hne Hhd].
    destruct fuel as [|fuel]; [simpl in Hf; lia|].
    cbn [head default dll_search_elt_loop scan_elt]. unfold id.
    goal_decide Heq; [by injection Heq as ->|].
    rewrite Hb. goal_decide Hz; [reflexivity|].
    rewrite Hnx. apply (IH fuel b Hhd Hd). simpl in Hf. lia.
Qed.

Lemma search_elt_spec m cmp p l e :
  chain (heap m) p l →
  dll_search_elt p e cmp m = Some (scan_elt (heap m) cmp l e, m).
Proof.
  intros [-> [Hnd Hr]]. destruct l as [|a r]; [done|].
  cbn [head dll_search_elt scan_elt].
  destruct Hr as (n & Ha & Hpv & Hnx & Hd). rewrite Ha.
  goal_decide Hz; [done|].
  apply NoDup_cons in Hnd as [Har Hnd].
  rewrite Hnx, (search_elt_loop_spec (heap m) cmp a e r (size (heap m)) a Har Hd);
    [done|].
  apply nodup_length_le_size; [done|]. intros b Hb. by eapply dseg_in.
Qed.

Lemma scan_elt_spec h cmp l e :
  (∀ a, a ∈ l → is_Some (h !! a)) →
  (scan_elt h cmp l e = None ∧
   ∀ a n, a ∈ l → h !! a = Some n → cmp (elt n) e ≠ 0) ∨
  (∃ l1 a l2 n, l = l1 ++ a :: l2 ∧ scan_elt h cmp l e = Some a ∧
     h !! a = Some n ∧ cmp (elt n) e = 0 ∧
     ∀ b nb, b ∈ l1 → h !! b = Some nb → cmp (elt nb) e ≠ 0).
Proof.
  induction l as [|a l IH]; intros Hin.
  { left. split; [done|]. intros a n Ha. by apply elem_of_nil in Ha. }
  destruct (Hin a ltac:(left)) as [n Ha]. cbn [scan_elt]. rewrite Ha.
  goal_decide Hz.
  { right. exists [], a, l, n. repeat split; try done.
    intros b nb Hb. by apply elem_of_nil in Hb. }
  destruct IH as [[Hs Hno] | (l1 & b & l2 & nb & -> & Hs & Hb & Hkb & Hno)].
  { intros b Hb. apply Hin. by right. }
  - left. split; [done|]. intros b nb Hb Hnb.
    apply elem_of_cons in Hb as [->|Hb]; [congruence | by eapply Hno].
  - right. exists (a :: l1), b, l2, nb. repeat split; try done.
    intros c nc Hc Hnc.
    apply elem_of_cons in Hc as [->|Hc]; [congruence | by eapply Hno].
Qed.

(** ** [dll_free] *)

Lemma elts_of_frame h h' l :
  (∀ b, b ∈ l → h' !! b = h !! b) → elts_of h' l = elts_of h l.
Proof.
  induction l as [|a l IH]; intros Hh; [done|].
  unfold elts_of in *. cbn [omap list_omap]. rewrite (Hh a) by left.
  rewrite IH; [done|]. intros b Hb. apply Hh. by right.
Qed.

Lemma elts_of_cons h a n l :
  h !! a = Some n → elts_of h (a :: l) = elt n :: elts_of h l.
Proof. intros Ha. unfold elts_of. cbn [omap list_omap]. by rewrite Ha. Qed.

Lemma free_loop_spec fe hd r :
  ∀ fuel m pv,
  hd ∉ r → NoDup r → dseg (heap m) pv r hd → (length r ≤ fuel)%nat →
  ∃ m', dll_free_loop fuel (Some hd) (Some (default hd (head r))) fe m =
          Some (tt, m') ∧
    brk m' = brk m ∧
    freed m' = freed m ++ (if fe then elts_of (heap m) r else []) ∧
    (∀ b, b ∈ r → heap m' !! b = None) ∧
    (∀ b, b ∉ r → heap m' !! b = heap m !! b).
Proof.
  induction r as [|b r IH]; intros fuel m pv Hhd Hnd Hd Hf.
  - exists m. cbn [head default]. split.
    { destruct fuel; cbn [dll_free_loop]; by goal_decide Heq. }
    split; [done|]. split; [destruct fe; by rewrite app_nil_r|].
    split; [|done]. intros b Hb. by apply elem_of_nil in Hb.
  - destruct Hd as (n & Hb & Hpv & Hnx & Hd).
    apply not_elem_of_cons in Hhd as [Hne Hhd].
    apply NoDup_cons in Hnd as [Hbr Hnd].
    destruct fuel as [|fuel]; [simpl in Hf; lia|].
    set (m1 := Mem (heap m) (brk m) (freed m ++ if fe then [elt n] else [])).
    set (m2 := Mem (delete b (heap m1)) (brk m1) (freed m1)).
    destruct (IH fuel m2 b Hhd Hnd) as (m' & Hrun & Hbrk & Hfreed & Hgone & Hkeep).
    { apply (dseg_frame (heap m)); [done|]. intros c Hc. cbn.
      apply lookup_delete_ne. by intros ->. }
    { simpl in Hf. lia. }
    exists m'. split.
    { cbn [head default dll_free_loop]. unfold id.
      goal_decide Heq; [by injection Heq as ->|].
      rewrite (bind_some _ _ _ _ _ (load_some _ _ _ Hb)).
      rewrite (bind_some _ _ _ _ _ (call_free_elt_some m b n fe Hb)).
      rewrite (bind_some _ _ _ _ _ (free_node_some m1 b (mk_is_Some _ _ Hb))).
      by rewrite Hnx. }
    split; [exact Hbrk|]. split.
    { rewrite Hfreed. cbn [freed m2 m1]. rewrite <- app_assoc. f_equal.
      destruct fe; [|done]. rewrite (elts_of_cons _ _ _ _ Hb). cbn [app]. f_equal.
      apply elts_of_frame. intros c Hc. cbn. apply lookup_delete_ne. by intros ->. }
    split.
    + intros c Hc. apply elem_of_cons in Hc as [->|Hc]; [|by apply Hgone].
      rewrite (Hkeep b Hbr). cbn. apply lookup_delete_eq.
    + intros c Hc. apply not_elem_of_cons in Hc as [Hcb Hc].
      rewrite (Hkeep c Hc). cbn. by apply lookup_delete_ne.
Qed.

Lemma free_spec m p l fe :
  chain (heap m) p l →
  ∃ m', dll_free p fe m = Some (None, m') ∧
    brk m' = brk m ∧
    freed m' = freed m ++ (if fe then elts_of (heap m) l else []) ∧
    (∀ b, b ∈ l → heap m' !! b = None) ∧
    (∀ b, b ∉ l → heap m' !! b = heap m !! b).
Proof.
  intros [-> [Hnd Hr]]. destruct l as [|a r].
  { exists m. split; [done|]. split; [done|].
    split; [destruct fe; by rewrite app_nil_r|].
    split; [|done]. intros b Hb. by apply elem_of_nil in Hb. }
  destruct Hr as (n & Ha & Hpv & Hnx & Hd).
  apply NoDup_cons in Hnd as [Har Hnd].
  set (m1 := Mem (heap m) (brk m) (freed m ++ if fe then [elt n] else [])).
  set (m2 := Mem (delete a (heap m1)) (brk m1) (freed m1)).
  destruct (free_loop_spec fe a r (size (heap m)) m2 a Har Hnd)
    as (m' & Hrun & Hbrk & Hfreed & Hgone & Hkeep).
  { apply (dseg_frame (heap m)); [done|]. intros c Hc. cbn.
    apply lookup_delete_ne. by intros ->. }
  { apply nodup_length_le_size; [done|]. intros b Hb. by eapply dseg_in. }
  exists m'. split.
  { cbn [head dll_free]. unfold get_mem at 1. unfold bind at 1.
    rewrite (bind_some _ _ _ _ _ (load_some _ _ _ Ha)).
    rewrite (bind_some _ _ _ _ _ (call_free_elt_some m a n fe Ha)).
    rewrite (bind_some _ _ _ _ _ (free_node_some m1 a (mk_is_Some _ _ Ha))).
    rewrite Hnx. by rewrite (bind_some _ _ _ _ _ Hrun). }
  split; [exact Hbrk|]. split.
  { rewrite Hfreed. cbn [freed m2 m1]. rewrite <- app_assoc. f_equal.
    destruct fe; [|done]. rewrite (elts_of_cons _ _ _ _ Ha). cbn [app]. f_equal.
    apply elts_of_frame. intros c Hc. cbn. apply lookup_delete_ne. by intros ->. }
  split.
  + intros c Hc. apply elem_of_cons in Hc as [->|Hc]; [|by apply Hgone].
    rewrite (Hkeep a Har). cbn. apply lookup_delete_eq.
  + intros c Hc. apply not_elem_of_cons in Hc as [Hca Hc].
    rewrite (Hkeep c Hc). cbn. by apply lookup_delete_ne.
Qed.

(** ** [ht_divchn_free] *)

Lemma elts_of_app h l1 l2 : elts_of h (l1 ++ l2) = elts_of h l1 ++ elts_of h l2.
Proof. unfold elts_of. apply omap_app. Qed.

Lemma elem_of_concat (ls : list (list addr)) b :
  b ∈ concat ls ↔ ∃ l, b ∈ l ∧ l ∈ ls.
Proof.
  induction ls as [|l0 ls IH]; cbn [concat].
  - split; [intros H; by apply elem_of_nil in H|].
    intros (l & _ & H). by apply elem_of_nil in H.
  - rewrite elem_of_app, IH. split.
    + intros [H | (l & Hb & Hl)]; [exists l0; split; [done | left] |
                                   exists l; split; [done | by right]].
    + intros (l & Hb & Hl). apply elem_of_cons in Hl as [->|Hl]; [by left|].
      right. by exists l.
Qed.

Lemma free_chains_spec n :
  ∀ i ht m (chs : list (list addr)),
  (n + i = length (key_elts ht))%nat → length chs = length (key_elts ht) →
  (∀ j p l, (i ≤ j)%nat → key_elts ht !! j = Some p → chs !! j = Some l →
            chain (heap m) p l) →
  disjoint_chains chs →
  ∃ ht' m', free_chains n (Z.of_nat i) ht m = Some (ht', m') ∧
    ht' = set_key_elts ht (key_elts ht') ∧
    brk m' = brk m ∧
    freed m' = freed m ++
      (if free_elt ht then elts_of (heap m) (concat (drop i chs)) else []) ∧
    (∀ b j l, (i ≤ j)%nat → chs !! j = Some l → b ∈ l → heap m' !! b = None) ∧
    (∀ b, (∀ j l, (i ≤ j)%nat → chs !! j = Some l → b ∉ l) →
          heap m' !! b = heap m !! b).
Proof.
  induction n as [|n IH]; intros i ht m chs Hlen Hchs Hch Hdis.
  - exists ht, m. split; [done|]. split; [by destruct ht|]. split; [done|].
    rewrite drop_ge by lia. split; [destruct (free_elt ht); by rewrite app_nil_r|].
    split; [|done]. intros b j l Hj Hl.
    apply lookup_lt_Some in Hl. lia.
  - destruct (lookup_lt_is_Some_2 (key_elts ht) i ltac:(lia)) as [p Hp].
    destruct (lookup_lt_is_Some_2 chs i ltac:(lia)) as [l Hl].
    pose proof (Hch i p l ltac:(lia) Hp Hl) as Hc.
    destruct (free_spec m p l (free_elt ht) Hc)
      as (m1 & Hrun1 & Hbrk1 & Hfreed1 & Hgone1 & Hkeep1).
    destruct (IH (S i) (set_bucket ht (Z.of_nat i) None) m1 chs)
      as (ht' & m' & Hrun & Hht & Hbrk & Hfreed & Hgone & Hkeep).
    { cbn. rewrite length_insert. lia. }
    { cbn. by rewrite length_insert. }
    { intros j q lj Hj Hq Hlj. cbn in Hq. rewrite Nat2Z.id in Hq.
      rewrite list_lookup_insert_ne in Hq by lia.
      destruct (Hch j q lj ltac:(lia) Hq Hlj) as [Hhd Hring].
      split; [done|]. apply (ring_frame (heap m)); [done|].
      intros b Hb. apply Hkeep1. intros Hbl.
      pose proof (Hdis i j l lj b Hl Hlj Hbl Hb). lia. }
    { exact Hdis. }
    exists ht', m'. split.
    { cbn [free_chains].
      rewrite (bind_some _ _ _ _ _ (bucket_some ht (Z.of_nat i) p m
                 ltac:(by rewrite Nat2Z.id))).
      rewrite (bind_some _ _ _ _ _ Hrun1).
      by replace (Z.of_nat i + 1) with (Z.of_nat (S i)) by lia. }
    split; [by rewrite Hht|]. split; [congruence|]. split.
    { rewrite Hfreed, Hfreed1. cbn [free_elt set_bucket set_key_elts].
      rewrite <- app_assoc. f_equal. destruct (free_elt ht); [|done].
      rewrite (drop_S _ _ _ Hl). cbn [concat]. rewrite elts_of_app. f_equal.
      apply elts_of_frame. intros b Hb. apply Hkeep1. intros Hbl.
      apply elem_of_concat in Hb as (lj & Hb & Hlj).
      apply list_elem_of_lookup in Hlj as [j Hlj].
      rewrite lookup_drop in Hlj.
      pose proof (Hdis i _ l lj b Hl Hlj Hbl Hb). lia. }
    split.
    + intros b j lj Hj Hlj Hb.
      destruct (decide (j = i)) as [->|Hne].
      * rewrite Hl in Hlj. injection Hlj as <-.
        rewrite Hkeep; [by apply Hgone1|].
        intros j lj Hj' Hlj Hb'. pose proof (Hdis i j l lj b Hl Hlj Hb Hb'). lia.
      * apply (Hgone b j lj); [lia | done | done].
    + intros b Hb. rewrite Hkeep.
      * apply Hkeep1. by apply (Hb i l).
      * intros j lj Hj. apply Hb. lia.
Qed.

Lemma elts_of_length h l :
  (∀ b, b ∈ l → is_Some (h !! b)) → length (elts_of h l) = length l.
Proof.
  induction l as [|a l IH]; intros Hin; [done|].
  destruct (Hin a ltac:(left)) as [n Ha].
  rewrite (elts_of_cons _ _ _ _ Ha). cbn [length]. f_equal.
  apply IH. intros b Hb. apply Hin. by right.
Qed.

(** X14. [ht_divchn_free] frees every node of the table and leaves no
    bucket array; [free_elt], when supplied, is called once per node, on
    the elements bucket after bucket and, within a bucket, in [next] order
    from the head: as many calls as the table has nodes. Nodes that are
    not in the table are left as they are, and the other fields of the
    table block keep their values. *)
Theorem ht_divchn_free_frees_all ht m chs :
  tbl_repr ht m chs →
  ∃ m', ht_divchn_free ht m = Some (set_key_elts ht [], m') ∧
    (∀ b, in_chains chs b → heap m' !! b = None) ∧
    (∀ b, ¬ in_chains chs b → heap m' !! b = heap m !! b) ∧
    freed m' = freed m ++
      (if free_elt ht then elts_of (heap m) (concat chs) else []) ∧
    length (elts_of (heap m) (concat chs)) = node_count chs ∧
    brk m' = brk m.
Proof.
  intros Hrepr. pose proof Hrepr as (Hpos & Hlen & Hch & Hdis & Hbound).
  destruct (free_chains_spec (Z.to_nat (count ht)) 0%nat ht m chs)
    as (ht' & m' & Hrun & Hht & Hbrk & Hfreed & Hgone & Hkeep).
  { lia. }
  { by rewrite (Forall2_length _ _ _ Hch). }
  { intros j p l _ Hp Hl. exact (Forall2_lookup_lr _ _ _ _ _ _ Hch Hp Hl). }
  { exact Hdis. }
  exists m'. split.
  { unfold ht_divchn_free. change 0 with (Z.of_nat 0).
    rewrite (bind_some _ _ _ _ _ Hrun). rewrite Hht. reflexivity. }
  split.
  { intros b (j & l & Hl & Hb). apply (Hgone b j l); [lia | done | done]. }
  split.
  { intros b Hb. apply Hkeep. intros j l _ Hl Hbl. apply Hb. by exists j, l. }
  split; [exact Hfreed|]. split; [|exact Hbrk].
  apply elts_of_length. intros b Hb.
  apply elem_of_concat in Hb as (l & Hb & Hl).
  apply list_elem_of_lookup in Hl as [j Hl].
  apply (in_chains_allocated _ _ _ _ Hrepr). by exists j, l.
Qed.

Lemma ht_divchn_free_frees_all_witness :
  ∃ m', ht_divchn_free table1 mem1 = Some (set_key_elts table1 [], m') ∧
    heap m' !! 1%positive = None ∧ brk m' = 2%positive.
Proof.
  destruct table1_wf as [chs Hwf].
  destruct (ht_divchn_free_frees_all table1 mem1 chs (wf_repr _ _ _ _ Hwf))
    as (m' & Hrun & _ & _ & _ & _ & Hbrk).
  exists m'. split; [exact Hrun|]. split; [|exact Hbrk].
  vm_compute in Hrun. by injection Hrun as <-.
Defined.

(** ** The operations of dll.c on rings *)

Lemma ring3x_chain :
  chain (heap ring3x) (Some 3%positive) [3%positive; 2%positive; 1%positive].
Proof.
  split; [reflexivity|]. split.
  - solve_nodup.
  - cbn. repeat (eexists; split; [reflexivity|]; split; [reflexivity|]; split; [reflexivity|]).
    exact I.
Qed.

Lemma ring3x_spare : 4%positive ∉ [3%positive; 2%positive; 1%positive].
Proof.
  intros H. repeat (apply elem_of_cons in H as [H|H]; [discriminate H|]).
  by apply elem_of_nil in H.
Qed.

Lemma ring3_bound : heap_bound ring3.
Proof.
  intros a [n Ha]. cbn in Ha.
  repeat (apply lookup_insert_Some in Ha as [[<- _]|[_ Ha]]; [reflexivity|]).
  by rewrite lookup_empty in Ha.
Qed.

(** X1. [dll_prepend] of an allocated node that is not on the ring: the
    node becomes the head, the ring is the node followed by the former
    ring in its order, every node keeps its key and element, nothing is
    allocated or freed, and a search from the new head for a key the node
    holds returns the node, whatever else is on the ring. *)
Theorem dll_prepend_node_first m p l a n :
  chain (heap m) p l → heap m !! a = Some n → a ∉ l →
  ∃ m', dll_prepend p (Some a) m = Some (Some a, m') ∧
    chain (heap m') (Some a) (a :: l) ∧
    brk m' = brk m ∧ freed m' = freed m ∧
    (∀ b, node_data (heap m') b = node_data (heap m) b) ∧
    (∀ b, b ∉ a :: l → heap m' !! b = heap m !! b) ∧
    (∀ ks k, memcmp (key n) k ks = 0 →
       dll_search_key None ks (Some a) (Some k) m' = Some (Some a, m')).
Proof.
  intros Hc Ha Hal.
  destruct (prepend_spec m p l a n Hc Ha Hal)
    as (m' & Hrun & Hc' & Hbrk & Hfreed & Hframe & Hdata).
  exists m'. split; [exact Hrun|]. split; [exact Hc'|]. split; [exact Hbrk|].
  split; [exact Hfreed|]. split; [exact Hdata|]. split; [exact Hframe|].
  intros ks k Hk. rewrite (search_key_spec m' None ks _ _ k Hc').
  pose proof (Hdata a) as Hd. rewrite (node_data_key _ _ _ Ha) in Hd.
  apply node_data_lookup in Hd as (n' & Hn' & Hkn' & _).
  cbn [scan]. rewrite Hn'. unfold key_equal. rewrite Hkn'.
  by rewrite bool_decide_eq_true_2.
Qed.

Lemma dll_prepend_node_first_witness :
  ∃ m', dll_prepend (Some 3%positive) (Some 4%positive) ring3x =
          Some (Some 4%positive, m') ∧
    chain (heap m') (Some 4%positive)
      [4%positive; 3%positive; 2%positive; 1%positive] ∧
    dll_search_key None 2 (Some 4%positive) (Some [x08; x06]) m' =
      Some (Some 4%positive, m').
Proof.
  destruct (dll_prepend_node_first ring3x (Some 3%positive)
              [3%positive; 2%positive; 1%positive] 4%positive
              (Node [x08; x06] [x0e] None None) ring3x_chain eq_refl ring3x_spare)
    as (m' & Hrun & Hc & _ & _ & _ & _ & Hs).
  exists m'. split; [exact Hrun|]. split; [exact Hc|]. by apply Hs.
Defined.

(** X2. [dll_append] of an allocated node that is not on the ring: the
    ring is the former ring in its order followed by the node, and the
    head is where it was (the node itself when the list was empty); every
    node keeps its key and element and nothing is allocated or freed. A
    search from the head still returns the node the former ring gave for
    a key, when it gave one. *)
Theorem dll_append_node_last m p l a n :
  chain (heap m) p l → heap m !! a = Some n → a ∉ l →
  ∃ m', dll_append p (Some a) m = Some (head (l ++ [a]), m') ∧
    (l ≠ [] → head (l ++ [a]) = p) ∧ (l = [] → head (l ++ [a]) = Some a) ∧
    chain (heap m') (head (l ++ [a])) (l ++ [a]) ∧
    brk m' = brk m ∧ freed m' = freed m ∧
    (∀ b, node_data (heap m') b = node_data (heap m) b) ∧
    (∀ ks k r, dll_search_key None ks p (Some k) m = Some (Some r, m) →
       dll_search_key None ks (head (l ++ [a])) (Some k) m' = Some (Some r, m')).
Proof.
  intros Hc Ha Hal.
  destruct (append_spec m p l a n Hc Ha Hal)
    as (m' & Hrun & Hc' & Hbrk & Hfreed & Hframe & Hdata).
  exists m'. split; [exact Hrun|].
  split. { intros Hl. destruct Hc as [-> _]. by destruct l. }
  split. { by intros ->. }
  split; [exact Hc'|]. split; [exact Hbrk|]. split; [exact Hfreed|].
  split; [exact Hdata|].
  intros ks k r. rewrite (search_key_spec m None ks _ _ k Hc).
  rewrite (search_key_spec m' None ks _ _ k Hc'). intros [= Hs]. f_equal. f_equal.
  assert (scan (heap m') None ks (l ++ [a]) k = scan (heap m) None ks (l ++ [a]) k)
    as ->.
  { apply scan_same_keys. intros b _. apply node_data_same_key, Hdata. }
  clear -Hs. induction l as [|b l IH]; [done|].
  cbn [app scan] in *. destruct (heap m !! b) as [nb|]; [|done].
  destruct (key_equal None ks (key nb) k); [done|].
  destruct (scan (heap m) None ks l k) as [r0 v0].
  destruct (scan (heap m) None ks (l ++ [a]) k) as [r1 v1].
  cbn [fst] in *. by apply IH.
Qed.

Lemma dll_append_node_last_witness :
  ∃ m', dll_append (Some 3%positive) (Some 4%positive) ring3x =
          Some (Some 3%positive, m') ∧
    chain (heap m') (Some 3%positive)
      [3%positive; 2%positive; 1%positive; 4%positive] ∧
    dll_search_key None 2 (Some 3%positive) (Some [x08; x06]) m' =
      Some (Some 2%positive, m').
Proof.
  destruct (dll_append_node_last ring3x (Some 3%positive)
              [3%positive; 2%positive; 1%positive] 4%positive
              (Node [x08; x06] [x0e] None None) ring3x_chain eq_refl ring3x_spare)
    as (m' & Hrun & _ & _ & Hc & _ & _ & _ & Hs).
  exists m'. split; [exact Hrun|]. split; [exact Hc|]. by apply Hs.
Defined.

Lemma memcpy_zeroed k ks :
  Z.of_nat (length k) = ks → memcpy (replicate (Z.to_nat ks) x00) k ks = k.
Proof.
  intros Hk. apply memcpy_full; [done|]. rewrite length_replicate. lia.
Qed.

(** X3. [dll_prepend_new] with a key of [key_size] bytes and an element
    of [elt_size] bytes: the node is allocated at the next fresh address
    and becomes the head; it holds copies of the key and of the element;
    the ring is the new node followed by the former ring; every node
    allocated before keeps its address, its key and its element; nothing
    is handed to [free_elt]. *)
Theorem dll_prepend_new_allocates m p l k e ks es :
  chain (heap m) p l → heap_bound m →
  Z.of_nat (length k) = ks → Z.of_nat (length e) = es →
  ∃ m', dll_prepend_new p k e ks es m = Some (Some (brk m), m') ∧
    heap m !! (brk m) = None ∧
    node_data (heap m') (brk m) = Some (k, e) ∧
    chain (heap m') (Some (brk m)) (brk m :: l) ∧
    (∀ b, b ≠ brk m → node_data (heap m') b = node_data (heap m) b) ∧
    brk m' = Pos.succ (brk m) ∧ heap_bound m' ∧ freed m' = freed m.
Proof.
  intros Hc Hbound Hk He.
  destruct (prepend_new_spec m p l k e ks es Hc Hbound)
    as (m' & Hrun & Hc' & Hbrk & Hfreed & Hfresh & Hnone & Hnew & Hframe & Hdata).
  rewrite (memcpy_zeroed k ks Hk), (memcpy_zeroed e es He) in Hnew.
  exists m'. split; [exact Hrun|]. split; [exact Hnone|]. split; [exact Hnew|].
  split; [exact Hc'|]. split; [exact Hdata|]. split; [exact Hbrk|].
  split; [|exact Hfreed].
  intros b Hb. rewrite Hbrk. destruct (decide (b = brk m)) as [->|Hne]; [lia|].
  apply node_data_is_Some in Hb. rewrite (Hdata b Hne) in Hb.
  apply node_data_is_Some in Hb. pose proof (Hbound b Hb). lia.
Qed.

Lemma dll_prepend_new_allocates_witness :
  ∃ m', dll_prepend_new (Some 3%positive) [x07; x07] [x0b] 2 1 ring3 =
          Some (Some 4%positive, m') ∧
    node_data (heap m') 4%positive = Some ([x07; x07], [x0b]) ∧
    chain (heap m') (Some 4%positive)
      [4%positive; 3%positive; 2%positive; 1%positive].
Proof.
  destruct (dll_prepend_new_allocates ring3 (Some 3%positive)
              [3%positive; 2%positive; 1%positive] [x07; x07] [x0b] 2 1
              ring3_chain ring3_bound eq_refl eq_refl)
    as (m' & Hrun & _ & Hd & Hc & _).
  by exists m'.
Defined.

(** X4. [dll_append_new] with a key of [key_size] bytes and an element of
    [elt_size] bytes: the node is allocated at the next fresh address and
    holds copies of the key and of the element; the ring is the former
    ring followed by the new node, and the head pointer is where it was
    (at the new node when the list was empty); the nodes allocated before
    keep their keys and elements. *)
Theorem dll_append_new_allocates m p l k e ks es :
  chain (heap m) p l → heap_bound m →
  Z.of_nat (length k) = ks → Z.of_nat (length e) = es →
  ∃ m', dll_append_new p k e ks es m = Some (head (l ++ [brk m]), m') ∧
    (l ≠ [] → head (l ++ [brk m]) = p) ∧
    (l = [] → head (l ++ [brk m]) = Some (brk m)) ∧
    node_data (heap m') (brk m) = Some (k, e) ∧
    chain (heap m') (head (l ++ [brk m])) (l ++ [brk m]) ∧
    (∀ b, b ≠ brk m → node_data (heap m') b = node_data (heap m) b) ∧
    brk m' = Pos.succ (brk m) ∧ freed m' = freed m.
Proof.
  intros Hc Hbound Hk He.
  destruct (append_new_spec m p l k e ks es Hc Hbound)
    as (m' & Hrun & Hc' & Hbrk & Hfreed & Hfresh & Hnew & Hdata).
  rewrite (memcpy_zeroed k ks Hk), (memcpy_zeroed e es He) in Hnew.
  exists m'. split; [exact Hrun|].
  split. { intros Hl. destruct Hc as [-> _]. by destruct l. }
  split. { by intros ->. }
  done.
Qed.

Lemma dll_append_new_allocates_witness :
  ∃ m', dll_append_new (Some 3%positive) [x07; x07] [x0b] 2 1 ring3 =
          Some (Some 3%positive, m') ∧
    chain (heap m') (Some 3%positive)
      [3%positive; 2%positive; 1%positive; 4%positive].
Proof.
  destruct (dll_append_new_allocates ring3 (Some 3%positive)
              [3%positive; 2%positive; 1%positive] [x07; x07] [x0b] 2 1
              ring3_chain ring3_bound eq_refl eq_refl)
    as (m' & Hrun & _ & _ & _ & Hc & _).
  by exists m'.
Defined.

(** X5. [dll_search_elt] returns [NULL] on the empty list and never
    changes the memory. On a ring rooted at the head it returns the first
    node, in [next] order from the head, on whose element [cmp_elt]
    returns zero against [e], or [NULL] when [cmp_elt] is non-zero on
    every node. *)
Theorem dll_search_elt_first_match m p l e cmp :
  dll_search_elt None e cmp m = Some (None, m) ∧
  (∀ r m', dll_search_elt p e cmp m = Some (r, m') → m' = m) ∧
  (chain (heap m) p l →
   ∃ r, dll_search_elt p e cmp m = Some (r, m) ∧
     ((r = None ∧ ∀ a n, a ∈ l → heap m !! a = Some n → cmp (elt n) e ≠ 0) ∨
      (∃ l1 a l2 n, l = l1 ++ a :: l2 ∧ r = Some a ∧
         heap m !! a = Some n ∧ cmp (elt n) e = 0 ∧
         ∀ b nb, b ∈ l1 → heap m !! b = Some nb → cmp (elt nb) e ≠ 0))).
Proof.
  split; [reflexivity|]. split.
  { intros r m'. unfold dll_search_elt. destruct p as [a|]; [|by intros [= _ <-]].
    destruct (heap m !! a) as [n|]; [|done].
    destruct (decide _); [by intros [= _ <-]|].
    destruct (dll_search_elt_loop _ _ _ _ _ _); [|done]. by intros [= _ <-]. }
  intros Hc. exists (scan_elt (heap m) cmp l e).
  split; [by apply search_elt_spec|].
  destruct (scan_elt_spec (heap m) cmp l e)
    as [[Hs Hno] | (l1 & a & l2 & n & Hl & Hs & Ha & Hz & Hno)].
  { intros a Ha. destruct Hc as [_ Hr]. by eapply ring_in. }
  - left. by split.
  - right. by exists l1, a, l2, n.
Qed.

Lemma dll_search_elt_first_match_witness :
  dll_search_elt (Some 3%positive) [x0d] (λ a b, memcmp a b 1) ring3 =
    Some (Some 2%positive, ring3).
Proof.
  destruct (dll_search_elt_first_match ring3 (Some 3%positive)
              [3%positive; 2%positive; 1%positive] [x0d] (λ a b, memcmp a b 1))
    as (_ & _ & H).
  destruct (H ring3_chain) as (r & Hrun & _).
  rewrite Hrun. vm_compute in Hrun. by injection Hrun as <-.
Defined.

(** X6. [dll_remove] does nothing when the head pointer or the node
    pointer is null. For a node of the ring it returns with the ring made
    of the other nodes in their order; the head pointer is kept unless it
    pointed to the node, in which case it moves to the next node, or to
    [NULL] when the node was the only one. The node is not freed: it stays
    allocated, and every node keeps its key and element. *)
Theorem dll_remove_unlinks m p l1 a l2 :
  dll_remove None (Some a) m = Some (None, m) ∧
  dll_remove p None m = Some (p, m) ∧
  (chain (heap m) p (l1 ++ a :: l2) →
   ∃ m', dll_remove p (Some a) m = Some (head (l1 ++ l2), m') ∧
     (l1 ≠ [] → head (l1 ++ l2) = p) ∧
     (l1 = [] → p = Some a ∧ head (l1 ++ l2) = head l2) ∧
     chain (heap m') (head (l1 ++ l2)) (l1 ++ l2) ∧
     is_Some (heap m' !! a) ∧
     (∀ b, node_data (heap m') b = node_data (heap m) b) ∧
     brk m' = brk m ∧ freed m' = freed m).
Proof.
  split; [reflexivity|]. split; [by destruct p|]. intros Hc.
  destruct (remove_spec m p l1 a l2 Hc)
    as (m' & Hrun & Hc' & Hbrk & Hfreed & Hframe & Hdata).
  exists m'. split; [exact Hrun|].
  split. { intros Hl. destruct Hc as [-> _]. by destruct l1. }
  split. { intros ->. by destruct Hc as [-> _]. }
  split; [exact Hc'|]. split; [|done].
  apply (same_data_same_dom _ _ Hdata). destruct Hc as [_ Hr].
  apply (ring_in _ _ _ Hr). apply elem_of_app. right. by left.
Qed.

Lemma dll_remove_unlinks_witness :
  ∃ m', dll_remove (Some 3%positive) (Some 2%positive) ring3 =
          Some (Some 3%positive, m') ∧
    chain (heap m') (Some 3%positive) [3%positive; 1%positive] ∧
    is_Some (heap m' !! 2%positive).
Proof.
  destruct (dll_remove_unlinks ring3 (Some 3%positive) [3%positive] 2%positive
              [1%positive]) as (_ & _ & H).
  destruct (H ring3_chain) as (m' & Hrun & _ & _ & Hc & Ha & _).
  by exists m'.
Defined.

(** X7. [dll_delete] does nothing when the head pointer or the node
    pointer is null. For a node of the ring, [free_elt], when supplied,
    is called once, on the element of the node, and the node is freed;
    the ring is made of the other nodes in their order, with the head
    pointer kept unless it pointed to the node; the other nodes keep
    their keys and elements. Without a callback nothing is handed
    over. *)
Theorem dll_delete_frees_node m p l1 a l2 fe :
  dll_delete None (Some a) fe m = Some (None, m) ∧
  dll_delete p None fe m = Some (p, m) ∧
  (chain (heap m) p (l1 ++ a :: l2) →
   ∃ m' n, heap m !! a = Some n ∧
     dll_delete p (Some a) fe m = Some (head (l1 ++ l2), m') ∧
     (l1 ≠ [] → head (l1 ++ l2) = p) ∧
     chain (heap m') (head (l1 ++ l2)) (l1 ++ l2) ∧
     heap m' !! a = None ∧
     freed m' = freed m ++ (if fe then [elt n] else []) ∧
     (∀ b, b ≠ a → node_data (heap m') b = node_data (heap m) b) ∧
     brk m' = brk m).
Proof.
  split; [reflexivity|]. split; [by destruct p|]. intros Hc.
  destruct (delete_spec m p l1 a l2 fe Hc)
    as (m' & n & Ha & Hrun & Hc' & Hbrk & Hfreed & Hgone & Hframe & Hdata).
  exists m', n. split; [exact Ha|]. split; [exact Hrun|].
  split. { intros Hl. destruct Hc as [-> _]. by destruct l1. }
  done.
Qed.

Lemma dll_delete_frees_node_witness :
  ∃ m', dll_delete (Some 3%positive) (Some 3%positive) true ring3 =
          Some (Some 2%positive, m') ∧
    chain (heap m') (Some 2%positive) [2%positive; 1%positive] ∧
    heap m' !! 3%positive = None ∧ freed m' = [[x0c]].
Proof.
  destruct (dll_delete_frees_node ring3 (Some 3%positive) [] 3%positive
              [2%positive; 1%positive] true) as (_ & _ & H).
  destruct (H ring3_chain) as (m' & n & Hn & Hrun & _ & Hc & Hgone & Hfreed & _).
  exists m'. split; [exact Hrun|]. split; [exact Hc|]. split; [exact Hgone|].
  rewrite Hfreed. vm_compute in Hn. by injection Hn as <-.
Defined.

(** X8. [dll_free] on a ring frees every node of it and returns [NULL]
    for the head pointer; [free_elt], when supplied, is called once per
    node, on the elements in [next] order from the head; nodes that are
    not on the ring are left as they are. On the empty list it does
    nothing. *)
Theorem dll_free_frees_ring m p l fe :
  dll_free None fe m = Some (None, m) ∧
  (chain (heap m) p l →
   ∃ m', dll_free p fe m = Some (None, m') ∧
     (∀ b, b ∈ l → heap m' !! b = None) ∧
     (∀ b, b ∉ l → heap m' !! b = heap m !! b) ∧
     freed m' = freed m ++ (if fe then elts_of (heap m) l else []) ∧
     length (elts_of (heap m) l) = length l ∧
     brk m' = brk m).
Proof.
  split; [reflexivity|]. intros Hc.
  destruct (free_spec m p l fe Hc) as (m' & Hrun & Hbrk & Hfreed & Hgone & Hkeep).
  exists m'. split; [exact Hrun|]. split; [exact Hgone|]. split; [exact Hkeep|].
  split; [exact Hfreed|]. split; [|exact Hbrk].
  destruct Hc as [_ Hr].
  assert (∀ b, b ∈ l → is_Some (heap m !! b)) as Hin
    by (intros b Hb; by eapply ring_in).
  clear -Hin. induction l as [|a l IH]; [done|].
  destruct (Hin a ltac:(left)) as [n Ha].
  rewrite (elts_of_cons _ _ _ _ Ha). cbn [length]. f_equal.
  apply IH. intros b Hb. apply Hin. by right.
Qed.

Lemma dll_free_frees_ring_witness :
  ∃ m', dll_free (Some 3%positive) true ring3x = Some (None, m') ∧
    freed m' = [[x0c]; [x0d]; [x0a]] ∧
    heap m' !! 2%positive = None ∧ is_Some (heap m' !! 4%positive).
Proof.
  destruct (dll_free_frees_ring ring3x (Some 3%positive)
              [3%positive; 2%positive; 1%positive] true) as (_ & H).
  destruct (H ring3x_chain) as (m' & Hrun & Hgone & Hkeep & Hfreed & _).
  exists m'. split; [exact Hrun|]. split; [exact Hfreed|].
  split.
  - apply Hgone. right. left.
  - eexists. etrans; [exact (Hkeep _ ring3x_spare) | reflexivity].
Defined.

(** X9. [dll_prepend] of a node followed by [dll_remove] of the same node
    gives back the head pointer and the ring as they were, with the keys
    and elements of all nodes unchanged and the node still allocated. *)
Theorem dll_prepend_remove_round_trip m p l a :
  chain (heap m) p l → is_Some (heap m !! a) → a ∉ l →
  ∃ m1 m2, dll_prepend p (Some a) m = Some (Some a, m1) ∧
    dll_remove (Some a) (Some a) m1 = Some (p, m2) ∧
    chain (heap m2) p l ∧
    (∀ b, node_data (heap m2) b = node_data (heap m) b) ∧
    brk m2 = brk m ∧ freed m2 = freed m.
Proof.
  intros Hc [n Ha] Hal.
  destruct (prepend_spec m p l a n Hc Ha Hal)
    as (m1 & Hrun1 & Hc1 & Hbrk1 & Hfreed1 & _ & Hdata1).
  destruct (remove_spec m1 (Some a) [] a l Hc1)
    as (m2 & Hrun2 & Hc2 & Hbrk2 & Hfreed2 & _ & Hdata2).
  cbn [app] in *. destruct Hc as [-> Hr].
  exists m1, m2. split; [exact Hrun1|]. split; [exact Hrun2|].
  split; [exact Hc2|]. split; [|split; congruence].
  intros b. by rewrite Hdata2, Hdata1.
Qed.

Lemma dll_prepend_remove_round_trip_witness :
  ∃ m1 m2, dll_prepend (Some 3%positive) (Some 4%positive) ring3x =
             Some (Some 4%positive, m1) ∧
    dll_remove (Some 4%positive) (Some 4%positive) m1 =
      Some (Some 3%positive, m2) ∧
    chain (heap m2) (Some 3%positive) [3%positive; 2%positive; 1%positive].
Proof.
  destruct (dll_prepend_remove_round_trip ring3x (Some 3%positive)
              [3%positive; 2%positive; 1%positive] 4%positive
              ring3x_chain ltac:(by eexists) ring3x_spare)
    as (m1 & m2 & H1 & H2 & Hc & _).
  by exists m1, m2.
Defined.

(** ** The primes of the ladder and the word size *)

Lemma ladder_tops :
  Forall2 (λ p d, let cnt := arr C_PARTS_PER_PRIME p.2 in
                  let x := arr C_PRIME_PARTS (p.1 + (cnt - 1)) in
                  1 ≤ x ∧ x * 2 ^ ((cnt - 1) * 16) ≤ d ∧
                  d < (x + 1) * 2 ^ ((cnt - 1) * 16))
          ladder documented_primes.
Proof.
  let l := eval vm_compute in ladder in change ladder with l.
  unfold documented_primes.
  repeat (constructor; [vm_compute; repeat split; congruence|]).
  constructor.
Qed.

Lemma documented_step i d d' :
  documented_primes !! i = Some d → documented_primes !! S i = Some d' → d < d'.
Proof.
  unfold documented_primes.
  do 54 (destruct i as [|i]; [cbn; intros [= <-] [= <-]; reflexivity|]).
  by cbn.
Qed.

Lemma documented_increasing i j d d' :
  (i < j)%nat → documented_primes !! i = Some d →
  documented_primes !! j = Some d' → d < d'.
Proof.
  intros Hij Hi. revert d'. induction j as [|j IH]; intros d' Hj; [lia|].
  destruct (lookup_lt_is_Some_2 documented_primes j) as [dj Hdj].
  { apply lookup_lt_Some in Hj. lia. }
  pose proof (documented_step j dj d' Hdj Hj).
  destruct (decide (i = j)) as [->|Hne]; [congruence|].
  pose proof (IH ltac:(lia) dj Hdj). lia.
Qed.

Lemma count_bits_exact sz x :
  2 ≤ sz → 1 ≤ x < 2 ^ 16 →
  let c := count_bits (Z.to_nat (C_FULL_BIT sz)) x 0 in
  1 ≤ c ≤ 16 ∧ 2 ^ (c - 1) ≤ x < 2 ^ c.
Proof.
  intros Hsz Hx c.
  destruct (count_bits_16 sz x Hsz ltac:(lia)) as [Hc Hlt].
  pose proof (count_bits_low (Z.to_nat (C_FULL_BIT sz)) x 0 ltac:(lia)) as Hlow.
  fold c in Hc, Hlt, Hlow. cbn zeta in Hlow.
  destruct Hlow as [H0 | Hlow].
  - rewrite H0 in Hlt. change (2 ^ 0) with 1 in Hlt. lia.
  - rewrite Z.sub_0_r in Hlow.
    assert (1 ≤ c).
    { destruct (decide (c = 0)) as [E|]; [|lia].
      rewrite E in Hlt. change (2 ^ 0) with 1 in Hlt. lia. }
    split; [lia|]. split; [exact Hlow | exact Hlt].
Qed.

Lemma is_overflow_spec sz j p d :
  2 ≤ sz → ladder !! j = Some p → documented_primes !! j = Some d →
  is_overflow sz p.1 (arr C_PARTS_PER_PRIME p.2) =
  bool_decide (2 ^ C_FULL_BIT sz ≤ d).
Proof.
  intros Hsz Hp Hd.
  pose proof (ladder_bounds _ _ Hp) as (Hs & _ & Hc).
  pose proof (Forall2_lookup_lr _ _ _ _ _ _ ladder_tops Hp Hd) as (Hx1 & Hlo & Hhi).
  cbn zeta in *. set (cnt := arr C_PARTS_PER_PRIME p.2) in *.
  unfold is_overflow.
  rewrite !(wrap_small16 sz (cnt - 1)) by (try done; lia).
  rewrite (wrap_small16 sz ((cnt - 1) * C_BUILD_SHIFT))
    by (try done; unfold C_BUILD_SHIFT; lia).
  rewrite (wrap_small16 sz (p.1 + (cnt - 1))) by (try done; lia).
  set (x := arr C_PRIME_PARTS (p.1 + (cnt - 1))) in *.
  pose proof (parts_bound (p.1 + (cnt - 1))) as Htop. fold x in Htop.
  destruct (count_bits_exact sz x Hsz ltac:(lia)) as (Hc16 & Hge & Hlt).
  set (c := count_bits _ _ 0) in *.
  rewrite wrap_small16 by (try done; unfold C_BUILD_SHIFT; lia).
  unfold C_BUILD_SHIFT.
  pose proof (full_bit_pos sz Hsz) as Hfb.
  apply bool_decide_ext. split.
  - intros Hgt.
    assert (2 ^ C_FULL_BIT sz ≤ 2 ^ (c - 1 + (cnt - 1) * 16)) as H1
      by (apply Z.pow_le_mono_r; lia).
    rewrite Z.pow_add_r in H1 by lia.
    assert (0 < 2 ^ ((cnt - 1) * 16)) by (apply Z.pow_pos_nonneg; lia).
    nia.
  - intros Hle. apply Z.lt_gt. apply Z.lt_nge. intros Hfit.
    assert (2 ^ (c + (cnt - 1) * 16) ≤ 2 ^ C_FULL_BIT sz) as H1
      by (apply Z.pow_le_mono_r; lia).
    rewrite Z.pow_add_r in H1 by lia.
    assert (0 < 2 ^ ((cnt - 1) * 16)) by (apply Z.pow_pos_nonneg; lia).
    nia.
Qed.

Lemma ladder_documented j p :
  ladder !! j = Some p → ∃ d, documented_primes !! j = Some d.
Proof.
  intros Hp. apply lookup_lt_is_Some_2. apply lookup_lt_Some in Hp.
  by rewrite ladder_length in Hp.
Qed.

Lemma at_rung_documented sz ht j :
  2 ≤ sz → at_rung sz ht j →
  documented_primes !! j = Some (count ht) ∧ count ht < 2 ^ C_FULL_BIT sz.
Proof.
  intros Hsz (Hp & Hov & Hc).
  destruct (ladder_documented _ _ Hp) as [d Hd].
  pose proof (ladder_bounds _ _ Hp) as (Hs & _ & Hcnt).
  pose proof (Forall2_lookup_lr _ _ _ _ _ _ ladder_values Hp Hd) as (_ & _ & Hor & _).
  cbn [fst snd] in *.
  rewrite build_prime_or in Hc; [|done|lia|done|done].
  rewrite Hc, Hor. split; [done|].
  pose proof (is_overflow_spec sz j _ d Hsz Hp Hd) as Hspec. cbn [fst snd] in Hspec.
  rewrite Hspec in Hov. apply bool_decide_eq_false in Hov. lia.
Qed.

(** ** [incr_count] and the next prime *)

Lemma incr_count_next sz ht i :
  2 ≤ sz → at_rung sz ht i →
  ∃ ht' r, incr_count sz ht = (ht', r) ∧ ladder_moved ht ht' ∧
    if r then at_rung sz ht' (S i) ∧
              max_num_elts ht' =
                mul_alpha_sz_max sz (count ht') (alpha_n ht) (log_alpha_d ht) ∧
              count ht < count ht'
    else ladder_end sz ht' ∧ count ht' = count ht ∧
         max_num_elts ht' = max_num_elts ht ∧
         ∀ d, documented_primes !! S i = Some d → 2 ^ C_FULL_BIT sz ≤ d.
Proof.
  intros Hsz Hr. pose proof Hr as (Hp & Hov & Hc).
  pose proof (ladder_bounds _ _ Hp) as (Hb1 & Hb2 & Hb3). cbn [fst snd] in *.
  pose proof (ladder_succ _ _ Hp) as Hs.
  destruct (at_rung_documented sz ht i Hsz Hr) as [Hdoc _].
  unfold incr_count.
  destruct ht as [ks es ea g c cnt mx ne an ld ke ck rk fe]. cbn [fst snd] in *.
  unfold set_ladder. cbn [group_ix count_ix key_size elt_size elt_alignment count
    max_num_elts num_elts alpha_n log_alpha_d key_elts cmp_key rdc_key free_elt] in *.
  rewrite (wrap_small16 sz (c + arr C_PARTS_PER_PRIME g)) by (done || lia).
  rewrite (wrap_small16 sz (g + 1)) by (done || lia).
  unfold ladder_step in Hs. cbn [fst snd] in Hs.
  set (c' := c + arr C_PARTS_PER_PRIME g) in *.
  assert (∃ g', g' = (if decide (c' = arr C_PARTS_ACC_COUNTS g) then g + 1 else g) ∧
            (if decide (c' = arr C_PARTS_ACC_COUNTS g)
             then Ht ks es ea (g + 1) c' cnt mx ne an ld ke ck rk fe
             else Ht ks es ea g c' cnt mx ne an ld ke ck rk fe)
            = Ht ks es ea g' c' cnt mx ne an ld ke ck rk fe) as (g' & Hg' & ->).
  { destruct (decide (c' = arr C_PARTS_ACC_COUNTS g)); eauto. }
  rewrite <- Hg' in Hs. clear Hg'.
  cbn [group_ix count_ix key_size elt_size elt_alignment count
    max_num_elts num_elts alpha_n log_alpha_d key_elts cmp_key rdc_key free_elt set_ladder set_count].
  destruct (decide (c' = C_PRIME_PARTS_COUNT)) as [Hend | Hnend].
  - eexists _, false. split; [reflexivity|]. split; [reflexivity|].
    split; [by right|]. split; [reflexivity|]. split; [reflexivity|].
    intros d Hd. destruct (decide (i = 53%nat)) as [->|Hne].
    + apply lookup_lt_Some in Hd. cbn in Hd. lia.
    + destruct Hs as [_ Hs]. contradiction.
  - destruct (decide (i = 53%nat)) as [->|Hne]; [contradiction|].
    destruct Hs as [Hs _].
    destruct (is_overflow sz c' (arr C_PARTS_PER_PRIME g')) eqn:Hov'.
    + eexists _, false. split; [reflexivity|]. split; [reflexivity|].
      split; [left; reflexivity|]. split; [reflexivity|]. split; [reflexivity|].
      intros d Hd.
      pose proof (is_overflow_spec sz (S i) _ d Hsz Hs Hd) as Hspec.
      cbn [fst snd] in Hspec. rewrite Hov' in Hspec. symmetry in Hspec.
      by apply bool_decide_eq_true in Hspec.
    + assert (at_rung sz (Ht ks es ea g' c' (build_prime sz c' (arr C_PARTS_PER_PRIME g'))
                (mul_alpha_sz_max sz (build_prime sz c' (arr C_PARTS_PER_PRIME g')) an ld)
                ne an ld ke ck rk fe) (S i)) as Hr'.
      { split; [exact Hs|]. split; [exact Hov' | reflexivity]. }
      eexists _, true. split; [reflexivity|]. split; [reflexivity|].
      split; [exact Hr'|]. split; [reflexivity|].
      destruct (at_rung_documented sz _ (S i) Hsz Hr') as [Hdoc' _].
      cbn [count] in Hdoc' |- *.
      apply (documented_increasing i (S i)); [lia | exact Hdoc | exact Hdoc'].
Qed.


Lemma documented_above sz j k d' :
  0 ≤ sz → (j < k)%nat →
  (∀ d, documented_primes !! S j = Some d → 2 ^ C_FULL_BIT sz ≤ d) →
  documented_primes !! k = Some d' → 2 ^ C_FULL_BIT sz ≤ d'.
Proof.
  intros Hsz Hj Hnext Hd'.
  destruct (lookup_lt_is_Some_2 documented_primes (S j)) as [d1 Hd1].
  { apply lookup_lt_Some in Hd'. lia. }
  pose proof (Hnext d1 Hd1).
  destruct (decide (k = S j)) as [->|Hne]; [congruence|].
  pose proof (documented_increasing (S j) k d1 d' ltac:(lia) Hd1 Hd'). lia.
Qed.


(** X10. At a position of the ladder, [is_overflow] answers no exactly
    when the documented prime of that position is below
    [2 ^ C_FULL_BIT]; [build_prime] then returns that prime. The primes
    grow along the ladder, so once a position overflows every later one
    does. *)
Theorem is_overflow_exact sz j p d :
  2 ≤ sz → ladder !! j = Some p → documented_primes !! j = Some d →
  let cnt := arr C_PARTS_PER_PRIME p.2 in
  (is_overflow sz p.1 cnt = false ↔ d < 2 ^ C_FULL_BIT sz) ∧
  (is_overflow sz p.1 cnt = false → build_prime sz p.1 cnt = d) ∧
  (is_overflow sz p.1 cnt = true →
   ∀ k q, (j ≤ k)%nat → ladder !! k = Some q →
          is_overflow sz q.1 (arr C_PARTS_PER_PRIME q.2) = true).
Proof.
  intros Hsz Hp Hd cnt. unfold cnt.
  rewrite (is_overflow_spec sz j p d Hsz Hp Hd).
  split; [|split].
  - rewrite bool_decide_eq_false. lia.
  - intros Hov. rewrite <- (is_overflow_spec sz j p d Hsz Hp Hd) in Hov.
    pose proof (ladder_bounds _ _ Hp) as (Hs & _ & Hcnt).
    pose proof (Forall2_lookup_lr _ _ _ _ _ _ ladder_values Hp Hd)
      as (_ & _ & Hor & _).
    rewrite build_prime_or; [done | done | lia | done | done].
  - intros Hov k q Hk Hq. apply bool_decide_eq_true in Hov.
    destruct (ladder_documented _ _ Hq) as [dk Hdk].
    rewrite (is_overflow_spec sz k q dk Hsz Hq Hdk). apply bool_decide_eq_true.
    destruct (decide (k = j)) as [->|Hne]; [congruence|].
    pose proof (documented_increasing j k d dk ltac:(lia) Hd Hdk). lia.
Qed.

Lemma is_overflow_exact_witness :
  (is_overflow 4 36 2 = false ↔ 3221225479 < 2 ^ C_FULL_BIT 4) ∧
  (is_overflow 4 36 2 = false → build_prime 4 36 2 = 3221225479).
Proof.
  destruct (is_overflow_exact 4 21 (36, 1) 3221225479 ltac:(lia) eq_refl eq_refl)
    as (H1 & H2 & _).
  split; [exact H1 | exact H2].
Defined.

(** X11. [incr_count] on a table that stands on a prime of the ladder
    changes [group_ix], [count_ix], [count] and [max_num_elts] only. It
    returns 1 exactly when the next prime of the ladder exists and is
    below [2 ^ C_FULL_BIT]: [count] is then that prime, larger than the
    former one, and [max_num_elts] is recomputed from [alpha_n] and
    [log_alpha_d] of the table. Otherwise it returns 0 with [count] and
    [max_num_elts] as they were and [count_ix] at [C_SIZE_MAX] or
    [C_PRIME_PARTS_COUNT], and no later prime of the ladder fits the
    word. *)
Theorem incr_count_advances sz ht i :
  2 ≤ sz → at_rung sz ht i →
  ∃ ht' r, incr_count sz ht = (ht', r) ∧
    same_params ht ht' ∧ num_elts ht' = num_elts ht ∧
    key_elts ht' = key_elts ht ∧
    if r then
      at_rung sz ht' (S i) ∧ documented_primes !! S i = Some (count ht') ∧
      count ht < count ht' < 2 ^ C_FULL_BIT sz ∧
      max_num_elts ht' =
        mul_alpha_sz_max sz (count ht') (alpha_n ht) (log_alpha_d ht)
    else
      count ht' = count ht ∧ max_num_elts ht' = max_num_elts ht ∧
      ladder_end sz ht' ∧
      ∀ k d, (i < k)%nat → documented_primes !! k = Some d →
             2 ^ C_FULL_BIT sz ≤ d.
Proof.
  intros Hsz Hr.
  destruct (incr_count_next sz ht i Hsz Hr) as (ht' & r & Hic & Hmv & Hres).
  exists ht', r. split; [exact Hic|].
  split; [by apply same_params_of_moved|].
  destruct (ladder_moved_fields _ _ Hmv) as (_ & _ & _ & Hne & _ & _ & Hke & _).
  split; [exact Hne|]. split; [exact Hke|].
  destruct r.
  - destruct Hres as (Hr' & Hmx & Hlt).
    destruct (at_rung_documented sz ht' (S i) Hsz Hr') as [Hdoc Hfit].
    split; [exact Hr'|]. split; [exact Hdoc|]. split; [lia | exact Hmx].
  - destruct Hres as (Hend & Hc & Hmx & Hnext).
    split; [exact Hc|]. split; [exact Hmx|]. split; [exact Hend|].
    intros k d Hk Hd. apply (documented_above sz i k d); [lia | done | done | done].
Qed.

Lemma incr_count_advances_witness :
  ∃ ht' r, incr_count 8 table0 = (ht', r) ∧ same_params table0 ht' ∧
    num_elts ht' = num_elts table0.
Proof.
  destruct (incr_count_advances 8 table0 0 ltac:(lia))
    as (ht' & r & Hic & Hsp & Hne & _).
  { split; [reflexivity|]. split; reflexivity. }
  by exists ht', r.
Defined.





(** ** The table as a finite map *)

Lemma key_equal_default ks a b :
  Z.of_nat (length a) = ks → Z.of_nat (length b) = ks →
  key_equal None ks a b = true ↔ a = b.
Proof.
  intros Ha Hb. unfold key_equal, memcmp. rewrite bool_decide_eq_true. split.
  - intros Hz. apply (memcmp_loop_eq (Z.to_nat ks)); [lia | lia | done].
  - intros ->. apply memcmp_loop_refl.
Qed.

Lemma node_key_equal sz ht m chs a n k :
  wf_map sz ht m chs → in_chains chs a → heap m !! a = Some n →
  Z.of_nat (length k) = key_size ht →
  key_equal (cmp_key ht) (key_size ht) (key n) k = true ↔ key n = k.
Proof.
  intros (Hwf & Hcmp & _) Ha Hn Hk. rewrite Hcmp.
  apply key_equal_default; [|done].
  by destruct (wf_sized _ _ _ _ Hwf a n Ha Hn).
Qed.

Lemma absent_not_holds sz ht m chs k :
  wf_map sz ht m chs → Z.of_nat (length k) = key_size ht →
  absent ht m chs k ↔ ∀ e, ¬ holds m chs k e.
Proof.
  intros Hwf Hk. split.
  - intros Habs e (a & n & Ha & Hn & Hkn & _).
    pose proof (Habs a n Ha Hn) as Hf.
    apply (node_key_equal sz ht m chs a n k Hwf Ha Hn Hk) in Hkn. congruence.
  - intros Hno a n Ha Hn.
    destruct (key_equal _ _ _ _) eqn:E; [|done].
    apply (node_key_equal sz ht m chs a n k Hwf Ha Hn Hk) in E.
    destruct (Hno (elt n)). by exists a, n.
Qed.

Lemma holds_functional m chs k e e' :
  keys_unique m chs → holds m chs k e → holds m chs k e' → e = e'.
Proof.
  intros Hu (a & n & Ha & Hn & Hkn & <-) (b & nb & Hb & Hnb & Hkb & <-).
  assert (a = b) as -> by (apply (Hu a b n nb); congruence).
  congruence.
Qed.

Lemma search_holds sz ht m chs k e :
  wf_map sz ht m chs → Z.of_nat (length k) = key_size ht →
  ht_divchn_search sz ht k m = Some (Some e, m) ↔ holds m chs k e.
Proof.
  intros Hwfm Hk. pose proof Hwfm as (Hwf & Hcmp & Hu).
  pose proof (wf_repr _ _ _ _ Hwf) as Hrepr. split.
  - intros Hsearch.
    destruct (search_found_scan sz ht m chs k e m Hrepr Hsearch)
      as (l & a & n & Hl & Hs & Hal & Hn & Hen).
    assert (in_chains chs a) as Ha by (by exists (Z.to_nat (hash sz ht k)), l).
    exists a, n. split; [done|]. split; [done|]. split; [|done].
    apply (node_key_equal sz ht m chs a n k Hwfm Ha Hn Hk).
    destruct (scan_spec (heap m) (cmp_key ht) (key_size ht) l k)
      as [[Hs' _] | (l1 & c & l2 & nc & _ & Hs' & Hc & Hkc & _)].
    { intros b Hb. apply (in_chains_allocated _ _ _ _ Hrepr).
      by exists (Z.to_nat (hash sz ht k)), l. }
    + rewrite Hs' in Hs. done.
    + rewrite Hs' in Hs. cbn in Hs. injection Hs as ->. congruence.
  - intros (a & n & Ha & Hn & Hkn & Hen). pose proof Ha as (i & l & Hl & Hal).
    pose proof (wf_hash _ _ _ _ Hwf i l a n Hl Hal Hn) as Hh. rewrite Hkn in Hh.
    rewrite <- Hen. apply (search_of_scan sz ht m chs k l a n Hrepr).
    { by rewrite Hh, Nat2Z.id. }
    2: exact Hn.
    apply (scan_unique _ _ _ _ _ a n).
    + intros b Hb. apply (in_chains_allocated _ _ _ _ Hrepr). by exists i, l.
    + exact Hal.
    + exact Hn.
    + by apply (node_key_equal sz ht m chs a n k Hwfm Ha Hn Hk).
    + intros b nb Hb Hne Hnb.
      assert (in_chains chs b) as Hb' by (by exists i, l).
      destruct (key_equal _ _ _ _) eqn:E; [|done].
      apply (node_key_equal sz ht m chs b nb k Hwfm Hb' Hnb Hk) in E.
      destruct Hne. apply (Hu b a nb n); congruence.
Qed.

Lemma search_none_holds sz ht m chs k :
  wf_map sz ht m chs → Z.of_nat (length k) = key_size ht →
  ht_divchn_search sz ht k m = Some (None, m) ↔ ∀ e, ¬ holds m chs k e.
Proof.
  intros Hwfm Hk. pose proof Hwfm as (Hwf & Hcmp & Hu).
  pose proof (wf_repr _ _ _ _ Hwf) as Hrepr.
  rewrite <- (absent_not_holds sz ht m chs k Hwfm Hk). split.
  - intros Hsearch.
    destruct (search_run sz ht m chs k Hrepr) as (l & Hl & _).
    apply (scan_none_absent sz ht m chs k l); try done; try apply Hwf.
    by apply (search_none_scan sz ht m chs k l m).
  - by apply search_absent.
Qed.

(** One node [a] is put in, or rewritten, with the key [k], which no
    other node holds. *)
Lemma put_node_map m m' (chs chs' : list (list addr)) a k e :
  (∀ b, in_chains chs' b ↔ b = a ∨ in_chains chs b) →
  node_data (heap m') a = Some (k, e) →
  (∀ b, b ≠ a → node_data (heap m') b = node_data (heap m) b) →
  (∀ b nb, in_chains chs b → b ≠ a → heap m !! b = Some nb → key nb ≠ k) →
  (∀ n, in_chains chs a → heap m !! a = Some n → key n = k) →
  keys_unique m chs →
  keys_unique m' chs' ∧
  ∀ k' e', holds m' chs' k' e' ↔
           (k' = k ∧ e' = e) ∨ (k' ≠ k ∧ holds m chs k' e').
Proof.
  intros Hin Hnew Hdat Hother Hold Hu.
  assert (∀ b nb', in_chains chs' b → b ≠ a → heap m' !! b = Some nb' →
            in_chains chs b ∧
            ∃ nb, heap m !! b = Some nb ∧ key nb = key nb' ∧ elt nb = elt nb')
    as Hback.
  { intros b nb' Hb Hne Hnb'. apply Hin in Hb as [?|Hb]; [done|]. split; [done|].
    pose proof (Hdat b Hne) as Hd. rewrite (node_data_key _ _ _ Hnb') in Hd.
    symmetry in Hd. by apply node_data_lookup in Hd. }
  split.
  - intros b c nb nc Hb Hc Hnb Hnc Hkey.
    destruct (decide (b = a)) as [->|Hba]; destruct (decide (c = a)) as [->|Hca];
      [done | | |].
    + exfalso. rewrite (node_data_key _ _ _ Hnb) in Hnew. injection Hnew as Hk _.
      destruct (Hback c nc Hc Hca Hnc) as (Hc0 & nc0 & Hnc0 & Hkc & _).
      apply (Hother c nc0 Hc0 Hca Hnc0). congruence.
    + exfalso. rewrite (node_data_key _ _ _ Hnc) in Hnew. injection Hnew as Hk _.
      destruct (Hback b nb Hb Hba Hnb) as (Hb0 & nb0 & Hnb0 & Hkb & _).
      apply (Hother b nb0 Hb0 Hba Hnb0). congruence.
    + destruct (Hback b nb Hb Hba Hnb) as (Hb0 & nb0 & Hnb0 & Hkb & _).
      destruct (Hback c nc Hc Hca Hnc) as (Hc0 & nc0 & Hnc0 & Hkc & _).
      apply (Hu b c nb0 nc0); congruence.
  - intros k' e'. split.
    + intros (b & nb & Hb & Hnb & Hkb & Heb).
      destruct (decide (b = a)) as [->|Hba].
      * left. rewrite (node_data_key _ _ _ Hnb) in Hnew. injection Hnew as Hk He.
        split; congruence.
      * right. destruct (Hback b nb Hb Hba Hnb) as (Hb0 & nb0 & Hnb0 & Hkb0 & Heb0).
        split.
        { intros ->. apply (Hother b nb0 Hb0 Hba Hnb0). congruence. }
        exists b, nb0. split; [done|]. split; [done|]. split; congruence.
    + intros [[-> ->] | [Hne (b & nb & Hb & Hnb & Hkb & Heb)]].
      * apply node_data_lookup in Hnew as (n' & Hn' & Hkn' & Hen').
        exists a, n'. split; [apply Hin; by left | done].
      * assert (b ≠ a) as Hba.
        { intros ->. apply Hne. rewrite <- Hkb. by apply Hold. }
        pose proof (Hdat b Hba) as Hd. rewrite (node_data_key _ _ _ Hnb) in Hd.
        apply node_data_lookup in Hd as (nb' & Hnb' & Hkb' & Heb').
        exists b, nb'. split; [apply Hin; by right|]. split; [done|].
        split; congruence.
Qed.

(** The node [a], which holds the key [k], is taken out. *)
Lemma drop_node_map m m' (chs chs' : list (list addr)) a n :
  (∀ b, in_chains chs' b ↔ in_chains chs b ∧ b ≠ a) →
  (∀ b, b ≠ a → node_data (heap m') b = node_data (heap m) b) →
  in_chains chs a → heap m !! a = Some n →
  keys_unique m chs →
  keys_unique m' chs' ∧
  ∀ k' e', holds m' chs' k' e' ↔ k' ≠ key n ∧ holds m chs k' e'.
Proof.
  intros Hin Hdat Ha Hn Hu.
  assert (∀ b nb', in_chains chs' b → heap m' !! b = Some nb' →
            in_chains chs b ∧ b ≠ a ∧
            ∃ nb, heap m !! b = Some nb ∧ key nb = key nb' ∧ elt nb = elt nb')
    as Hback.
  { intros b nb' Hb Hnb'. apply Hin in Hb as [Hb Hne]. split; [done|].
    split; [done|].
    pose proof (Hdat b Hne) as Hd. rewrite (node_data_key _ _ _ Hnb') in Hd.
    symmetry in Hd. by apply node_data_lookup in Hd. }
  split.
  - intros b c nb nc Hb Hc Hnb Hnc Hkey.
    destruct (Hback b nb Hb Hnb) as (Hb0 & _ & nb0 & Hnb0 & Hkb & _).
    destruct (Hback c nc Hc Hnc) as (Hc0 & _ & nc0 & Hnc0 & Hkc & _).
    apply (Hu b c nb0 nc0); congruence.
  - intros k' e'. split.
    + intros (b & nb & Hb & Hnb & Hkb & Heb).
      destruct (Hback b nb Hb Hnb) as (Hb0 & Hne & nb0 & Hnb0 & Hkb0 & Heb0).
      split.
      { intros ->. apply Hne. apply (Hu b a nb0 n); congruence. }
      exists b, nb0. split; [done|]. split; [done|]. split; congruence.
    + intros [Hne (b & nb & Hb & Hnb & Hkb & Heb)].
      assert (b ≠ a) as Hba by (intros ->; congruence).
      pose proof (Hdat b Hba) as Hd. rewrite (node_data_key _ _ _ Hnb) in Hd.
      apply node_data_lookup in Hd as (nb' & Hnb' & Hkb' & Heb').
      exists b, nb'. split; [by apply Hin|]. split; [done|]. split; congruence.
Qed.

Lemma scan_found_key sz ht m chs k l a n :
  wf_map sz ht m chs → Z.of_nat (length k) = key_size ht →
  chs !! Z.to_nat (hash sz ht k) = Some l →
  (scan (heap m) (cmp_key ht) (key_size ht) l k).1 = Some a →
  heap m !! a = Some n →
  in_chains chs a ∧ key n = k.
Proof.
  intros Hwfm Hk Hl Hs Hn. pose proof Hwfm as (Hwf & _).
  destruct (scan_spec (heap m) (cmp_key ht) (key_size ht) l k)
    as [[Hs' _] | (l1 & c & l2 & nc & Hl12 & Hs' & Hc & Hkc & _)].
  { intros b Hb. apply (in_chains_allocated _ _ _ _ (wf_repr _ _ _ _ Hwf)).
    by exists (Z.to_nat (hash sz ht k)), l. }
  { rewrite Hs' in Hs. done. }
  rewrite Hs' in Hs. cbn in Hs. injection Hs as ->.
  rewrite Hn in Hc. injection Hc as <-.
  assert (in_chains chs a) as Ha.
  { exists (Z.to_nat (hash sz ht k)), l. split; [done|]. rewrite Hl12.
    apply elem_of_app. right. by left. }
  split; [done|]. by apply (node_key_equal sz ht m chs a n k Hwfm Ha Hn Hk).
Qed.

Lemma insert_map sz ht m chs k e :
  2 ≤ sz → wf_map sz ht m chs →
  Z.of_nat (length k) = key_size ht → Z.of_nat (length e) = elt_size ht →
  num_elts ht + 1 < 2 ^ C_FULL_BIT sz →
  ∃ ht' m' chs', ht_divchn_insert sz ht k e m = Some (ht', m') ∧
    wf_map sz ht' m' chs' ∧ same_params ht ht' ∧
    (∀ k' e', holds m' chs' k' e' ↔
              (k' = k ∧ e' = e) ∨ (k' ≠ k ∧ holds m chs k' e')) ∧
    ((∀ e0, ¬ holds m chs k e0) →
       num_elts ht' = num_elts ht + 1 ∧ freed m' = freed m) ∧
    (∀ e0, holds m chs k e0 →
       num_elts ht' = num_elts ht ∧
       freed m' = freed m ++ (if free_elt ht then [e0] else [])).
Proof.
  intros Hsz Hwfm Hk He Hroom. pose proof Hwfm as (Hwf & Hcmp & Hu).
  pose proof Hwf as [Hrepr Hhash Hok Hload [Hcard Hlt] Hsized Hcontract].
  destruct (insert_spec sz ht m chs k e Hsz Hrepr Hok Hsized Hk He)
    as (l & Hl & ht' & m' & chs' & Hrun & Hrepr' & Hok' & Hload' & Hsized' & Hsp &
        Hhash' & Hcase).
  exists ht', m', chs'. split; [exact Hrun|].
  pose proof Hsp as (_ & _ & _ & _ & _ & Hck & _ & _).
  destruct (scan (heap m) (cmp_key ht) (key_size ht) l k).1 as [a|] eqn:Hs.
  - destruct Hcase as (n & Hn & Hal & Hnum & Hin & Hcount & Hnew & Hdat & Hbrk &
                       Hfreed & Hstay).
    destruct (scan_found_key sz ht m chs k l a n Hwfm Hk Hl Hs Hn) as [Ha Hkn].
    rewrite Hkn in Hnew.
    destruct (put_node_map m m' chs chs' a k e) as [Hu' Hmap].
    { intros b. rewrite Hin. split; [by right|]. by intros [->|?]. }
    { exact Hnew. }
    { exact Hdat. }
    { intros b nb Hb Hne Hnb Hkb. apply Hne. apply (Hu b a nb n); congruence. }
    { intros n0 _ Hn0. congruence. }
    { exact Hu. }
    split.
    { split; [|split; [congruence | exact Hu']].
      split; [exact Hrepr' | by apply Hhash' | exact Hok' | exact Hload' |
              | exact Hsized' | by eapply key_contract_params].
      unfold card_inv. split; rewrite Hnum; [by rewrite Hcount | done]. }
    split; [exact Hsp|]. split; [exact Hmap|]. split.
    + intros Hno. destruct (Hno (elt n)). by exists a, n.
    + intros e0 Hh. split; [exact Hnum|].
      rewrite (holds_functional m chs k e0 (elt n) Hu Hh); [exact Hfreed|].
      by exists a, n.
  - destruct Hcase as (Hnum & Hin & Hcount & Hnin & Hnew & Hdat & Hbrk & Hfreed).
    assert (absent ht m chs k) as Habs by (by eapply scan_none_absent).
    pose proof (proj1 (absent_not_holds sz ht m chs k Hwfm Hk) Habs) as Hno.
    destruct (put_node_map m m' chs chs' (brk m) k e) as [Hu' Hmap].
    { exact Hin. }
    { exact Hnew. }
    { exact Hdat. }
    { intros b nb Hb Hne Hnb Hkb. apply (Hno (elt nb)). by exists b, nb. }
    { intros n0 Hb. contradiction. }
    { exact Hu. }
    rewrite wrap_small in Hnum by lia.
    split.
    { split; [|split; [congruence | exact Hu']].
      split; [exact Hrepr' | by apply Hhash' | exact Hok' | exact Hload' |
              | exact Hsized' | by eapply key_contract_params].
      unfold card_inv. split; rewrite Hnum; [rewrite Hcount; lia | done]. }
    split; [exact Hsp|]. split; [exact Hmap|]. split.
    + intros _. by split.
    + intros e0 Hh. by destruct (Hno e0).
Qed.

Lemma take_out_map sz ht m chs k p' m' chs' a n :
  0 ≤ sz → wf_map sz ht m chs → Z.of_nat (length k) = key_size ht →
  in_chains chs a → heap m !! a = Some n → key n = k →
  let ht' := set_num_elts (set_bucket ht (hash sz ht k) p')
               (wrap sz (num_elts ht - 1)) in
  tbl_repr ht' m' chs' →
  (∀ b, b ≠ a → node_data (heap m') b = node_data (heap m) b) →
  (∀ b, in_chains chs' b ↔ in_chains chs b ∧ b ≠ a) →
  (node_count chs' + 1 = node_count chs)%nat →
  (hash_inv sz ht m chs → hash_inv sz ht' m' chs') →
  (data_sized ht m chs → data_sized ht' m' chs') →
  wf_map sz ht' m' chs' ∧ same_params ht ht' ∧
  num_elts ht' = num_elts ht - 1 ∧
  (∀ k' e', holds m' chs' k' e' ↔ k' ≠ k ∧ holds m chs k' e').
Proof.
  intros Hsz (Hwf & Hcmp & Hu) Hk Ha Hn Hkn ht' Hrepr' Hdat Hin Hcount Hhash'
    Hsized'.
  destruct (removed_wf sz ht m chs k p' m' chs' Hsz Hwf Hcount Hrepr' Hhash' Hsized')
    as [Hwf' Hnum].
  destruct (drop_node_map m m' chs chs' a n Hin Hdat Ha Hn Hu) as [Hu' Hmap].
  rewrite Hkn in Hmap.
  split; [split; [exact Hwf' | split; [exact Hcmp | exact Hu']]|].
  split; [by repeat split|]. split; [exact Hnum | exact Hmap].
Qed.

Lemma remove_map sz ht m chs k out :
  0 ≤ sz → wf_map sz ht m chs → Z.of_nat (length k) = key_size ht →
  ∃ ht' out' m' chs',
    ht_divchn_remove sz ht k out m = Some ((ht', out'), m') ∧
    wf_map sz ht' m' chs' ∧ same_params ht ht' ∧
    (∀ k' e', holds m' chs' k' e' ↔ k' ≠ k ∧ holds m chs k' e') ∧
    freed m' = freed m ∧ brk m' = brk m ∧
    ((∀ e0, ¬ holds m chs k e0) → ht' = ht ∧ out' = out ∧ m' = m) ∧
    (∀ e0, holds m chs k e0 →
       out' = memcpy out e0 (elt_size ht) ∧ num_elts ht' = num_elts ht - 1).
Proof.
  intros Hsz Hwfm Hk. pose proof Hwfm as (Hwf & Hcmp & Hu).
  destruct (remove_run sz ht m chs k out (wf_repr _ _ _ _ Hwf))
    as (p & l & Hp & Hl & Hcase).
  destruct (scan (heap m) (cmp_key ht) (key_size ht) l k).1 as [a|] eqn:Hs.
  - destruct Hcase as (n & p' & m' & chs' & Hn & Hal & Hkeq & Hrun & Hrepr' & Hbrk &
                       Hfreed & Hgone & Hdat & Hin & Hcount & Hhash' & Hsized').
    destruct (scan_found_key sz ht m chs k l a n Hwfm Hk Hl Hs Hn) as [Ha Hkn].
    destruct (take_out_map sz ht m chs k p' m' chs' a n Hsz Hwfm Hk Ha Hn Hkn
                Hrepr' Hdat Hin Hcount Hhash' Hsized')
      as (Hwfm' & Hsp & Hnum & Hmap).
    eexists _, _, m', chs'. split; [exact Hrun|]. split; [exact Hwfm'|].
    split; [exact Hsp|]. split; [exact Hmap|]. split; [exact Hfreed|].
    split; [exact Hbrk|]. split.
    + intros Hno. destruct (Hno (elt n)). by exists a, n.
    + intros e0 Hh. split; [|exact Hnum].
      rewrite (holds_functional m chs k e0 (elt n) Hu Hh); [done|].
      by exists a, n.
  - assert (absent ht m chs k) as Habs.
    { apply (scan_none_absent sz ht m chs k l); try done; apply Hwf. }
    pose proof (proj1 (absent_not_holds sz ht m chs k Hwfm Hk) Habs) as Hno.
    exists ht, out, m, chs. split; [exact Hcase|]. split; [exact Hwfm|].
    split; [apply same_params_refl|]. split.
    { intros k' e'. split; [|by intros [_ ?]]. intros Hh. split; [|done].
      intros ->. by destruct (Hno e'). }
    split; [done|]. split; [done|]. split; [done|].
    intros e0 Hh. by destruct (Hno e0).
Qed.

Lemma delete_map sz ht m chs k :
  0 ≤ sz → wf_map sz ht m chs → Z.of_nat (length k) = key_size ht →
  ∃ ht' m' chs',
    ht_divchn_delete sz ht k m = Some (ht', m') ∧
    wf_map sz ht' m' chs' ∧ same_params ht ht' ∧
    (∀ k' e', holds m' chs' k' e' ↔ k' ≠ k ∧ holds m chs k' e') ∧
    brk m' = brk m ∧
    ((∀ e0, ¬ holds m chs k e0) → ht' = ht ∧ m' = m) ∧
    (∀ e0, holds m chs k e0 →
       freed m' = freed m ++ (if free_elt ht then [e0] else []) ∧
       num_elts ht' = num_elts ht - 1).
Proof.
  intros Hsz Hwfm Hk. pose proof Hwfm as (Hwf & Hcmp & Hu).
  destruct (delete_run sz ht m chs k (wf_repr _ _ _ _ Hwf))
    as (p & l & Hp & Hl & Hcase).
  destruct (scan (heap m) (cmp_key ht) (key_size ht) l k).1 as [a|] eqn:Hs.
  - destruct Hcase as (n & p' & m' & chs' & Hn & Hal & Hkeq & Hrun & Hrepr' & Hbrk &
                       Hfreed & Hgone & Hdat & Hin & Hcount & Hhash' & Hsized').
    destruct (scan_found_key sz ht m chs k l a n Hwfm Hk Hl Hs Hn) as [Ha Hkn].
    destruct (take_out_map sz ht m chs k p' m' chs' a n Hsz Hwfm Hk Ha Hn Hkn
                Hrepr' Hdat Hin Hcount Hhash' Hsized')
      as (Hwfm' & Hsp & Hnum & Hmap).
    eexists _, m', chs'. split; [exact Hrun|]. split; [exact Hwfm'|].
    split; [exact Hsp|]. split; [exact Hmap|]. split; [exact Hbrk|]. split.
    + intros Hno. destruct (Hno (elt n)). by exists a, n.
    + intros e0 Hh. split; [|exact Hnum].
      rewrite (holds_functional m chs k e0 (elt n) Hu Hh); [done|].
      by exists a, n.
  - assert (absent ht m chs k) as Habs.
    { apply (scan_none_absent sz ht m chs k l); try done; apply Hwf. }
    pose proof (proj1 (absent_not_holds sz ht m chs k Hwfm Hk) Habs) as Hno.
    exists ht, m, chs. split; [exact Hcase|]. split; [exact Hwfm|].
    split; [apply same_params_refl|]. split.
    { intros k' e'. split; [|by intros [_ ?]]. intros Hh. split; [|done].
      intros ->. by destruct (Hno e'). }
    split; [done|]. split; [done|].
    intros e0 Hh. by destruct (Hno e0).
Qed.

Lemma init_map sz blk ks es min_num an ld rdc fe m :
  2 ≤ sz → heap_bound m → 0 ≤ ks →
  ∃ ht, ht_divchn_init sz blk ks es min_num an ld None rdc fe m = Some (ht, m) ∧
    wf_map sz ht m (replicate (Z.to_nat (count ht)) []) ∧
    key_size ht = ks ∧ elt_size ht = es ∧ free_elt ht = fe ∧ rdc_key ht = rdc ∧
    alpha_n ht = an ∧ log_alpha_d ht = ld ∧ num_elts ht = 0 ∧
    ∀ k e, ¬ holds m (replicate (Z.to_nat (count ht)) []) k e.
Proof.
  intros Hsz Hbound Hks.
  destruct (init_spec sz blk ks es min_num an ld None rdc fe m Hsz)
    as (ht & Hrun & Hks' & Hes & Hea & Han & Hld & Hck & Hrk & Hfe & Hnum & _).
  destruct (init_wf sz blk ks es min_num an ld None rdc fe m Hsz Hbound)
    as (ht2 & Hrun2 & Hwf).
  rewrite Hrun in Hrun2. injection Hrun2 as <-.
  destruct (empty_chains (heap m) (Z.to_nat (count ht))) as (_ & _ & Hin0 & _).
  exists ht. split; [exact Hrun|]. split.
  { split; [apply Hwf, key_contract_default; [done | lia]|].
    split; [done|]. intros a b na nb Ha. by apply Hin0 in Ha. }
  do 7 (split; [done|]).
  intros k e (a & n & Ha & _). by apply Hin0 in Ha.
Qed.

Lemma table0_wf_map : wf_map 8 table0 mem0 (replicate 1543 []).
Proof.
  destruct (init_map 8 blk1 2 1 0 3 3 None true mem0 ltac:(lia) mem0_bound
              ltac:(lia)) as (ht & Hrun & Hwf & _).
  rewrite table0_init in Hrun. by injection Hrun as <-.
Qed.

Lemma table1_wf_map :
  ∃ chs, wf_map 8 table1 mem1 chs ∧ holds mem1 chs [x01; x02] [x03].
Proof.
  destruct (insert_map 8 table0 mem0 _ [x01; x02] [x03] ltac:(lia) table0_wf_map)
    as (ht' & m' & chs' & Hrun & Hwf & _ & Hmap & _); [reflexivity | reflexivity | |].
  { vm_compute. reflexivity. }
  rewrite table1_insert in Hrun. injection Hrun as <- <-.
  exists chs'. split; [exact Hwf|]. apply Hmap. by left.
Qed.

Lemma search_transfer sz ht m chs ht' m' chs' k r :
  wf_map sz ht m chs → wf_map sz ht' m' chs' →
  Z.of_nat (length k) = key_size ht → key_size ht' = key_size ht →
  (∀ e, holds m' chs' k e ↔ holds m chs k e) →
  ht_divchn_search sz ht k m = Some (r, m) →
  ht_divchn_search sz ht' k m' = Some (r, m').
Proof.
  intros Hwf Hwf' Hk Hks Hsame Hsearch. destruct r as [e|].
  - apply (search_holds sz ht' m' chs' k e Hwf'); [congruence|].
    apply Hsame. by apply (search_holds sz ht m chs k e Hwf Hk).
  - apply (search_none_holds sz ht' m' chs' k Hwf'); [congruence|].
    intros e He. apply Hsame in He.
    by apply (search_none_holds sz ht m chs k Hwf Hk) in He.
Qed.

(** X15. On a well-formed table with [memcmp] as the comparison and
    pairwise different keys, [ht_divchn_search] of a key of [key_size]
    bytes returns without changing the memory; it returns the element of
    the node that holds the key, wherever in the table that node is, and
    [NULL] exactly when no node of the table holds the key. *)
Theorem ht_divchn_search_complete sz ht m chs k :
  wf_map sz ht m chs → Z.of_nat (length k) = key_size ht →
  ∃ r, ht_divchn_search sz ht k m = Some (r, m) ∧
    (∀ e, r = Some e ↔ holds m chs k e) ∧
    (r = None ↔ ∀ e, ¬ holds m chs k e).
Proof.
  intros Hwfm Hk. pose proof Hwfm as (Hwf & _).
  destruct (search_run sz ht m chs k (wf_repr _ _ _ _ Hwf)) as (l & _ & Hrun).
  set (r := match _ with Some a => _ | None => None end) in Hrun.
  exists r. split; [exact Hrun|]. split.
  - intros e. rewrite <- (search_holds sz ht m chs k e Hwfm Hk). rewrite Hrun.
    split; [by intros -> | by intros [= ->]].
  - rewrite <- (search_none_holds sz ht m chs k Hwfm Hk). rewrite Hrun.
    split; [by intros -> | by intros [= ->]].
Qed.

Lemma ht_divchn_search_complete_witness :
  ∃ r, ht_divchn_search 8 table1 [x01; x02] mem1 = Some (r, mem1) ∧
    r = Some [x03].
Proof.
  destruct table1_wf_map as (chs & Hwf & Hh).
  destruct (ht_divchn_search_complete 8 table1 mem1 chs [x01; x02] Hwf eq_refl)
    as (r & Hrun & Hsome & _).
  exists r. split; [exact Hrun|]. by apply Hsome.
Defined.

(** X16. [ht_divchn_insert] as a map update. On a well-formed table with
    [memcmp] as the comparison and pairwise different keys, after the
    insertion of [(k, e)] the search of [k] gives [e] and the search of
    every other key of [key_size] bytes gives what it gave before, also
    when the insertion made the table grow; the keys stay pairwise
    different. [num_elts] goes up by one, with nothing handed to
    [free_elt], when the key was not in the table, and it is unchanged
    when it was. *)
Theorem ht_divchn_insert_map sz ht m chs k e :
  2 ≤ sz → wf_map sz ht m chs →
  Z.of_nat (length k) = key_size ht → Z.of_nat (length e) = elt_size ht →
  num_elts ht + 1 < 2 ^ C_FULL_BIT sz →
  ∃ ht' m' chs', ht_divchn_insert sz ht k e m = Some (ht', m') ∧
    wf_map sz ht' m' chs' ∧
    ht_divchn_search sz ht' k m' = Some (Some e, m') ∧
    (∀ k' r, Z.of_nat (length k') = key_size ht → k' ≠ k →
       ht_divchn_search sz ht k' m = Some (r, m) →
       ht_divchn_search sz ht' k' m' = Some (r, m')) ∧
    (ht_divchn_search sz ht k m = Some (None, m) →
       num_elts ht' = num_elts ht + 1 ∧ freed m' = freed m) ∧
    (∀ e0, ht_divchn_search sz ht k m = Some (Some e0, m) →
       num_elts ht' = num_elts ht ∧
       freed m' = freed m ++ (if free_elt ht then [e0] else [])).
Proof.
  intros Hsz Hwfm Hk He Hroom.
  destruct (insert_map sz ht m chs k e Hsz Hwfm Hk He Hroom)
    as (ht' & m' & chs' & Hrun & Hwfm' & Hsp & Hmap & Hnew & Hupd).
  pose proof Hsp as (Hks & _).
  exists ht', m', chs'. split; [exact Hrun|]. split; [exact Hwfm'|]. split.
  { apply (search_holds sz ht' m' chs' k e Hwfm'); [congruence|].
    apply Hmap. by left. }
  split.
  { intros k' r Hk' Hne. apply (search_transfer sz ht m chs ht' m' chs'); try done.
    intros e'. rewrite Hmap. split; [|by right].
    intros [[-> _] | [_ Hh]]; done. }
  split.
  - intros Hs. apply Hnew. by apply (search_none_holds sz ht m chs k Hwfm Hk).
  - intros e0 Hs. apply Hupd. by apply (search_holds sz ht m chs k e0 Hwfm Hk).
Qed.

Lemma ht_divchn_insert_map_witness :
  ∃ ht' m', ht_divchn_insert 8 table1 [x08; x08] [x0a] mem1 = Some (ht', m') ∧
    ht_divchn_search 8 ht' [x08; x08] m' = Some (Some [x0a], m') ∧
    ht_divchn_search 8 ht' [x01; x02] m' = Some (Some [x03], m').
Proof.
  destruct table1_wf_map as (chs & Hwf & Hh).
  destruct (ht_divchn_insert_map 8 table1 mem1 chs [x08; x08] [x0a] ltac:(lia)
              Hwf eq_refl eq_refl)
    as (ht' & m' & chs' & Hrun & _ & Hnew & Hold & _).
  { vm_compute. reflexivity. }
  exists ht', m'. split; [exact Hrun|]. split; [exact Hnew|].
  apply Hold; [reflexivity | discriminate | reflexivity].
Defined.

(** X17. [ht_divchn_remove] as a map update. On a well-formed table with
    [memcmp] as the comparison and pairwise different keys, after the
    removal of [k] the search of [k] returns [NULL] and the search of
    every other key of [key_size] bytes gives what it gave before.
    Nothing is handed to [free_elt]. When the key was in the table with
    the element [e0], the first [elt_size] bytes of the block [out] are
    [e0] and [num_elts] goes down by one. *)
Theorem ht_divchn_remove_map sz ht m chs k out :
  0 ≤ sz → wf_map sz ht m chs → Z.of_nat (length k) = key_size ht →
  ∃ ht' out' m' chs',
    ht_divchn_remove sz ht k out m = Some ((ht', out'), m') ∧
    wf_map sz ht' m' chs' ∧
    ht_divchn_search sz ht' k m' = Some (None, m') ∧
    (∀ k' r, Z.of_nat (length k') = key_size ht → k' ≠ k →
       ht_divchn_search sz ht k' m = Some (r, m) →
       ht_divchn_search sz ht' k' m' = Some (r, m')) ∧
    freed m' = freed m ∧
    (∀ e0, ht_divchn_search sz ht k m = Some (Some e0, m) →
       out' = memcpy out e0 (elt_size ht) ∧ num_elts ht' = num_elts ht - 1).
Proof.
  intros Hsz Hwfm Hk.
  destruct (remove_map sz ht m chs k out Hsz Hwfm Hk)
    as (ht' & out' & m' & chs' & Hrun & Hwfm' & Hsp & Hmap & Hfreed & _ & _ & Htake).
  pose proof Hsp as (Hks & _).
  exists ht', out', m', chs'. split; [exact Hrun|]. split; [exact Hwfm'|]. split.
  { apply (search_none_holds sz ht' m' chs' k Hwfm'); [congruence|].
    intros e He. apply Hmap in He as [Hne _]. done. }
  split.
  { intros k' r Hk' Hne. apply (search_transfer sz ht m chs ht' m' chs'); try done.
    intros e'. rewrite Hmap. split; [by intros [_ ?] | done]. }
  split; [exact Hfreed|].
  intros e0 Hs. apply Htake. by apply (search_holds sz ht m chs k e0 Hwfm Hk).
Qed.

Lemma ht_divchn_remove_map_witness :
  ∃ ht' m', ht_divchn_remove 8 table1 [x01; x02] [xff] mem1 =
              Some ((ht', [x03]), m') ∧
    ht_divchn_search 8 ht' [x01; x02] m' = Some (None, m') ∧ freed m' = [].
Proof.
  destruct table1_wf_map as (chs & Hwf & Hh).
  destruct (ht_divchn_remove_map 8 table1 mem1 chs [x01; x02] [xff] ltac:(lia)
              Hwf eq_refl)
    as (ht' & out' & m' & chs' & Hrun & _ & Hnone & _ & Hfreed & Hout).
  destruct (Hout [x03] eq_refl) as [-> _].
  by exists ht', m'.
Defined.

(** X18. [ht_divchn_delete] as a map update. On a well-formed table with
    [memcmp] as the comparison and pairwise different keys, after the
    deletion of [k] the search of [k] returns [NULL] and the search of
    every other key of [key_size] bytes gives what it gave before. When
    the key was in the table with the element [e0], [free_elt], if
    supplied, is called once, on [e0], and [num_elts] goes down by
    one. *)
Theorem ht_divchn_delete_map sz ht m chs k :
  0 ≤ sz → wf_map sz ht m chs → Z.of_nat (length k) = key_size ht →
  ∃ ht' m' chs',
    ht_divchn_delete sz ht k m = Some (ht', m') ∧
    wf_map sz ht' m' chs' ∧
    ht_divchn_search sz ht' k m' = Some (None, m') ∧
    (∀ k' r, Z.of_nat (length k') = key_size ht → k' ≠ k →
       ht_divchn_search sz ht k' m = Some (r, m) →
       ht_divchn_search sz ht' k' m' = Some (r, m')) ∧
    (∀ e0, ht_divchn_search sz ht k m = Some (Some e0, m) →
       freed m' = freed m ++ (if free_elt ht then [e0] else []) ∧
       num_elts ht' = num_elts ht - 1).
Proof.
  intros Hsz Hwfm Hk.
  destruct (delete_map sz ht m chs k Hsz Hwfm Hk)
    as (ht' & m' & chs' & Hrun & Hwfm' & Hsp & Hmap & _ & _ & Htake).
  pose proof Hsp as (Hks & _).
  exists ht', m', chs'. split; [exact Hrun|]. split; [exact Hwfm'|]. split.
  { apply (search_none_holds sz ht' m' chs' k Hwfm'); [congruence|].
    intros e He. apply Hmap in He as [Hne _]. done. }
  split.
  { intros k' r Hk' Hne. apply (search_transfer sz ht m chs ht' m' chs'); try done.
    intros e'. rewrite Hmap. split; [by intros [_ ?] | done]. }
  intros e0 Hs. apply Htake. by apply (search_holds sz ht m chs k e0 Hwfm Hk).
Qed.

Lemma ht_divchn_delete_map_witness :
  ∃ ht' m', ht_divchn_delete 8 table1 [x01; x02] mem1 = Some (ht', m') ∧
    ht_divchn_search 8 ht' [x01; x02] m' = Some (None, m') ∧
    freed m' = [[x03]].
Proof.
  destruct table1_wf_map as (chs & Hwf & Hh).
  destruct (ht_divchn_delete_map 8 table1 mem1 chs [x01; x02] ltac:(lia)
              Hwf eq_refl)
    as (ht' & m' & chs' & Hrun & _ & Hnone & _ & Hfree).
  destruct (Hfree [x03] eq_refl) as [Hf _].
  by exists ht', m'.
Defined.

(** ** Sequences of operations *)






(** ** The bound of the load factor along the ladder *)

(** X20. [mul_alpha_sz_max] is the floor of [n * alpha_n / 2^log_alpha_d]
    cut off at [C_SIZE_MAX]: it lies between 0 and [C_SIZE_MAX], as the
    comments at its calls say, and it does not decrease when [n] grows,
    so that along the ladder a larger prime never has a smaller bound. *)
Theorem mul_alpha_sz_max_monotone sz n n' a d :
  0 ≤ sz → 0 ≤ n ≤ n' → n' < 2 ^ C_FULL_BIT sz →
  0 ≤ a < 2 ^ C_FULL_BIT sz → 0 ≤ d < C_FULL_BIT sz →
  mul_alpha_sz_max sz n a d = Z.min (n * a / 2 ^ d) (C_SIZE_MAX sz) ∧
  0 ≤ mul_alpha_sz_max sz n a d ≤ C_SIZE_MAX sz ∧
  mul_alpha_sz_max sz n a d ≤ mul_alpha_sz_max sz n' a d.
Proof.
  intros Hsz Hn Hn' Ha Hd.
  assert (∀ x, 0 ≤ x < 2 ^ C_FULL_BIT sz →
            mul_alpha_sz_max sz x a d = Z.min (x * a / 2 ^ d) (C_SIZE_MAX sz) ∧
            0 ≤ x * a / 2 ^ d) as Hmin.
  { intros x Hx.
    destruct (mul_alpha_sz_max_cases sz x a d Hsz Hx Ha Hd) as [Hiff ->].
    assert (0 ≤ x * a / 2 ^ d) by (apply Z.div_pos; [nia | apply Z.pow_pos_nonneg; lia]).
    split; [|done]. rewrite (size_max_eq sz Hsz).
    destruct (decide _) as [Hz|Hnz].
    - apply Hiff in Hz. lia.
    - assert (¬ x * a / 2 ^ d < 2 ^ C_FULL_BIT sz) by (by rewrite <- Hiff). lia. }
  destruct (Hmin n ltac:(lia)) as [-> Hf]. destruct (Hmin n' ltac:(lia)) as [-> Hf'].
  pose proof (size_max_eq sz Hsz) as Hmax.
  assert (0 < 2 ^ C_FULL_BIT sz) by (apply Z.pow_pos_nonneg; unfold C_FULL_BIT, CHAR_BIT; lia).
  split; [done|]. split; [lia|].
  assert (n * a / 2 ^ d ≤ n' * a / 2 ^ d).
  { apply Z.div_le_mono; [apply Z.pow_pos_nonneg; lia | nia]. }
  lia.
Qed.

Lemma mul_alpha_sz_max_monotone_witness :
  mul_alpha_sz_max 8 1543 3 3 = Z.min (1543 * 3 / 2 ^ 3) (C_SIZE_MAX 8) ∧
  mul_alpha_sz_max 8 1543 3 3 ≤ mul_alpha_sz_max 8 3119 3 3.
Proof.
  destruct (mul_alpha_sz_max_monotone 8 1543 3119 3 3) as (H1 & _ & H2);
    [lia | lia | by vm_compute | by vm_compute | by vm_compute |].
  split; [exact H1 | exact H2].
Defined.

(** ** Nodes keep their addresses *)




(** ** One key inserted again and again *)

Lemma insert_absent_run sz ht m chs k e :
  tbl_repr ht m chs → absent ht m chs k →
  wrap sz (num_elts ht + 1) ≤ max_num_elts ht →
  ∃ m1, ht_divchn_insert sz ht k e m =
    Some (set_num_elts (set_bucket ht (hash sz ht k) (Some (brk m)))
            (wrap sz (num_elts ht + 1)), m1).
Proof.
  intros Hrepr Habs Hload.
  pose proof Hrepr as (Hcnt & Hlen & Hch & Hdis & Hbound).
  assert (0 ≤ hash sz ht k < count ht) as Hix by (by apply hash_range).
  destruct (bucket_lookup ht m chs _ Hrepr Hix) as (p & l & Hp & Hl & Hc).
  pose proof (absent_scan ht m chs k _ l Hrepr Habs Hl) as Hs.
  destruct (prepend_new_spec m p l k e (key_size ht) (elt_size ht) Hc Hbound)
    as (m1 & Hrun1 & _).
  exists m1. unfold ht_divchn_insert.
  erewrite bind_some; [|by apply bucket_some].
  erewrite bind_some; [|by apply search_key_spec].
  rewrite Hs. cbn [fst].
  erewrite bind_some; [|erewrite bind_some; [reflexivity | exact Hrun1]].
  destruct (decide _) as [(Hgt & _) | _]; [|reflexivity].
  cbn in Hgt. lia.
Qed.

Lemma repeat_update sz ht chs k l a :
  2 ≤ sz → ladder_ok sz ht → load_inv sz ht →
  Z.of_nat (length k) = key_size ht →
  chs !! Z.to_nat (hash sz ht k) = Some l →
  ∀ es m n,
  Forall (λ e, Z.of_nat (length e) = elt_size ht) es →
  tbl_repr ht m chs → data_sized ht m chs →
  (scan (heap m) (cmp_key ht) (key_size ht) l k).1 = Some a →
  heap m !! a = Some n →
  ∃ m' n', run_ops sz ht (OpInsert k <$> es) m = Some (ht, m') ∧
    tbl_repr ht m' chs ∧ data_sized ht m' chs ∧
    (scan (heap m') (cmp_key ht) (key_size ht) l k).1 = Some a ∧
    heap m' !! a = Some n' ∧ key n' = key n ∧
    elt n' = default (elt n) (last es) ∧
    (∀ b, b ≠ a → node_data (heap m') b = node_data (heap m) b) ∧
    brk m' = brk m ∧
    freed m' = freed m ++ (if free_elt ht then removelast (elt n :: es) else []).
Proof.
  intros Hsz Hok Hload Hk Hl es.
  induction es as [|e es IH]; intros m n Hes Hrepr Hsized Hs Hn.
  { exists m, n. split; [done|]. do 7 (split; [done|]). split; [done|].
    cbn. destruct (free_elt ht); by rewrite app_nil_r. }
  apply Forall_cons in Hes as [He Hes].
  destruct (insert_present sz ht m chs k e l a n Hsz Hrepr Hok Hload Hsized Hk He
              Hl Hs Hn)
    as (m1 & Hrun1 & Hrepr1 & Hsized1 & _ & Hda & Hdb & Hbrk1 & Hfreed1 & _).
  destruct (node_data_lookup _ _ _ _ Hda) as (n1 & Hn1 & Hkn1 & Hen1).
  assert ((scan (heap m1) (cmp_key ht) (key_size ht) l k).1 = Some a) as Hs1.
  { rewrite <- Hs. f_equal. apply scan_same_keys. intros b Hb.
    destruct (decide (b = a)) as [->|Hne].
    - rewrite Hn1, Hn. cbn. by rewrite Hkn1.
    - apply node_data_same_key. by apply Hdb. }
  destruct (IH m1 n1 Hes Hrepr1 Hsized1 Hs1 Hn1)
    as (m' & n' & Hrun & Hrepr' & Hsized' & Hs' & Hn' & Hkn' & Hen' & Hdb' &
        Hbrk' & Hfreed').
  exists m', n'. split.
  { cbn [fmap list_fmap run_ops run_op]. by rewrite (bind_some _ _ _ _ _ Hrun1). }
  split; [done|]. split; [done|]. split; [done|]. split; [done|].
  split; [congruence|]. split.
  { rewrite Hen', Hen1. rewrite last_cons. by destruct (last es). }
  split; [intros b Hne; by rewrite Hdb', Hdb|]. split; [congruence|].
  rewrite Hfreed', Hfreed1, Hen1, <- app_assoc. f_equal.
  destruct (free_elt ht); [|done]. reflexivity.
Qed.

Lemma removelast_last_default {A} (e0 : A) es :
  removelast (e0 :: es) ++ [default e0 (last es)] = e0 :: es.
Proof.
  revert e0. induction es as [|e es IH]; intros e0; [done|].
  change (removelast (e0 :: e :: es)) with (e0 :: removelast (e :: es)).
  rewrite last_cons. cbn [app]. f_equal.
  rewrite <- (IH e) at 2. by destruct (last es).
Qed.

(** X22. One key inserted again and again, as the corner cases test of
    the repository does. On a well-formed table without the key [k] and
    with room for one more element under the bound, the insertions of
    [(k, e0)], [(k, e1)], ... leave [count], [count_ix] and [group_ix] as
    they were, allocate one node, and raise [num_elts] by one; the search
    of [k] then gives the element inserted last, and [free_elt], when
    supplied, has been called on every element but the last, in the
    order of insertion. A deletion of [k] then brings [num_elts] back,
    hands the last element to [free_elt], keeps [count], and leaves the
    search of [k] at [NULL]. *)
Theorem same_key_inserted_repeatedly sz ht m chs k e0 es :
  2 ≤ sz → wf sz ht m chs → Z.of_nat (length k) = key_size ht →
  Forall (λ e, Z.of_nat (length e) = elt_size ht) (e0 :: es) →
  absent ht m chs k →
  num_elts ht + 1 ≤ max_num_elts ht → num_elts ht + 1 < 2 ^ C_FULL_BIT sz →
  ∃ ht1 m1,
    run_ops sz ht (OpInsert k <$> e0 :: es) m = Some (ht1, m1) ∧
    count ht1 = count ht ∧ count_ix ht1 = count_ix ht ∧
    group_ix ht1 = group_ix ht ∧
    num_elts ht1 = num_elts ht + 1 ∧ brk m1 = Pos.succ (brk m) ∧
    ht_divchn_search sz ht1 k m1 = Some (Some (default e0 (last es)), m1) ∧
    freed m1 = freed m ++ (if free_elt ht then removelast (e0 :: es) else []) ∧
    ∃ ht2 m2,
      ht_divchn_delete sz ht1 k m1 = Some (ht2, m2) ∧
      count ht2 = count ht ∧ num_elts ht2 = num_elts ht ∧
      ht_divchn_search sz ht2 k m2 = Some (None, m2) ∧
      freed m2 = freed m ++ (if free_elt ht then e0 :: es else []).
Proof.
  intros Hsz Hwf Hk Hes Habs Hload Hroom.
  apply Forall_cons in Hes as [He0 Hes].
  pose proof (wf_num_elts _ _ _ _ Hwf) as Hrange.
  destruct (insert_absent_run sz ht m chs k e0 (wf_repr _ _ _ _ Hwf) Habs)
    as (m0' & Hrun0').
  { rewrite wrap_small by lia. exact Hload. }
  destruct (insert_then_found sz ht m chs k e0 Hsz Hwf Hk He0)
    as (ht0 & m0 & chs0 & l0 & a & n0 & Hrun0 & Hrepr0 & Hhash0 & Hok0 & Hload0 &
        Hsized0 & Hsp0 & Hl0 & Hs0 & Hn0 & Hen0 & Hold0 & Hnew0).
  destruct (Hnew0 Habs) as (Ha & Hkn0 & Hnum0 & Hfreed0 & Hin0).
  rewrite Hrun0' in Hrun0. injection Hrun0 as Hht0 ->.
  rewrite wrap_small in Hnum0 by lia.
  assert (count ht0 = count ht ∧ count_ix ht0 = count_ix ht ∧
          group_ix ht0 = group_ix ht) as (Hc0 & Hci0 & Hgi0).
  { rewrite <- Hht0. by repeat split. }
  pose proof Hsp0 as (Hks & Hes' & _ & _ & _ & Hck & _ & Hfe).
  destruct (repeat_update sz ht0 chs0 k l0 a Hsz Hok0 Hload0 ltac:(congruence) Hl0
              es m0 n0) as (m1 & n1 & Hrun1 & Hrepr1 & Hsized1 & Hs1 & Hn1 & Hkn1 &
                            Hen1 & Hdat1 & Hbrk1 & Hfreed1); try done.
  { eapply Forall_impl; [exact Hes|]. intros e He. cbn in He. congruence. }
  assert (brk m0 = Pos.succ (brk m)) as Hbrk0.
  { destruct (insert_spec sz ht m chs k e0 Hsz (wf_repr _ _ _ _ Hwf)
                (wf_ladder _ _ _ _ Hwf) (wf_sized _ _ _ _ Hwf) Hk He0)
      as (l & Hl & ht' & m' & chs' & Hrun & _ & _ & _ & _ & _ & _ & Hcase).
    rewrite (absent_scan ht m chs k _ l (wf_repr _ _ _ _ Hwf) Habs Hl) in Hcase.
    destruct Hcase as (_ & _ & _ & _ & _ & _ & Hb & _).
    rewrite Hrun0' in Hrun. by injection Hrun as _ <-. }
  exists ht0, m1. split.
  { cbn [fmap list_fmap run_ops run_op]. rewrite <- Hht0 at 1.
    rewrite (bind_some _ _ _ _ _ Hrun0'). rewrite Hht0. exact Hrun1. }
  split; [exact Hc0|]. split; [exact Hci0|]. split; [exact Hgi0|].
  split; [exact Hnum0|]. split; [congruence|]. split.
  { rewrite <- Hen0, <- Hen1.
    by apply (search_of_scan sz ht0 m1 chs0 k l0 a n1). }
  split.
  { rewrite Hfreed1, Hfreed0, Hfe, Hen0. reflexivity. }
  destruct (delete_run sz ht0 m1 chs0 k Hrepr1) as (p & l & Hp & Hl & Hcase).
  rewrite Hl0 in Hl. injection Hl as <-. rewrite Hs1 in Hcase.
  destruct Hcase as (n & p' & m2 & chs2 & Hn & _ & _ & Hrun2 & Hrepr2 & _ & Hfreed2 &
                     _ & Hdat2 & Hin2 & _).
  rewrite Hn1 in Hn. injection Hn as <-.
  eexists _, m2. split; [exact Hrun2|]. split; [exact Hc0|]. split.
  { cbn. rewrite Hnum0. replace (num_elts ht + 1 - 1) with (num_elts ht) by lia.
    apply wrap_small. lia. }
  split.
  { apply (search_absent sz _ m2 chs2); [exact Hrepr2|].
    intros b nb Hb Hnb. cbn. rewrite Hck, Hks.
    apply Hin2 in Hb as [Hb Hne].
    pose proof (Hdat2 b Hne) as Hd. rewrite (node_data_key _ _ _ Hnb) in Hd.
    rewrite (Hdat1 b Hne) in Hd.
    symmetry in Hd. apply node_data_lookup in Hd as (nb1 & Hnb1 & Hk1 & _).
    destruct (Hold0 b nb1 Hb Hne Hnb1) as [Hb0 Hd0].
    apply node_data_lookup in Hd0 as (nb0 & Hnb0 & Hk0 & _).
    rewrite <- Hk1, <- Hk0. by apply (Habs b nb0). }
  rewrite Hfreed2, Hfreed1, Hfreed0, Hfe, Hen1, Hen0, <- app_assoc. f_equal.
  destruct (free_elt ht); [|done]. apply removelast_last_default.
Qed.

Lemma table0_absent k : absent table0 mem0 (replicate 1543 []) k.
Proof.
  intros a n Ha. destruct (empty_chains (heap mem0) 1543) as (_ & _ & Hin & _).
  by apply Hin in Ha.
Qed.

Lemma same_key_inserted_repeatedly_witness :
  ∃ ht1 m1,
    run_ops 8 table0 (OpInsert [x01; x02] <$> [[x03]; [x04]; [x05]]) mem0 =
      Some (ht1, m1) ∧
    count ht1 = 1543 ∧ num_elts ht1 = 1 ∧
    ht_divchn_search 8 ht1 [x01; x02] m1 = Some (Some [x05], m1) ∧
    freed m1 = [[x03]; [x04]].
Proof.
  destruct (same_key_inserted_repeatedly 8 table0 mem0 (replicate 1543 [])
              [x01; x02] [x03] [[x04]; [x05]] ltac:(lia) table0_wf eq_refl)
    as (ht1 & m1 & Hrun & Hc & _ & _ & Hnum & _ & Hsearch & Hfreed & _).
  { repeat (apply Forall_cons; split; [reflexivity|]). apply Forall_nil_2. }
  { apply table0_absent. }
  { by vm_compute. }
  { by vm_compute. }
  by exists ht1, m1.
Defined.

(** ** The head pointer as a position *)

Lemma rotate_elem (l1 : list addr) a l2 b :
  b ∈ a :: l2 ++ l1 ↔ b ∈ l1 ++ a :: l2.
Proof. rewrite elem_of_cons, !elem_of_app, elem_of_cons. tauto. Qed.

(** X23. The head pointer may point to any node of the list. When it is
    moved to another node [a] of the ring, the list read from it is the
    ring from [a] on, wrapped around; [dll_search_key] from there returns
    the first node with the key in that order, and it finds a node
    exactly when the search from the former head does. *)
Theorem dll_search_key_any_head m ks p l1 a l2 kb :
  chain (heap m) p (l1 ++ a :: l2) →
  chain (heap m) (Some a) (a :: l2 ++ l1) ∧
  ∃ r r',
    dll_search_key None ks p (Some kb) m = Some (r, m) ∧
    dll_search_key None ks (Some a) (Some kb) m = Some (r', m) ∧
    (r = None ↔ r' = None) ∧
    (∀ b, r' = Some b →
       ∃ v1 v2 nb, a :: l2 ++ l1 = v1 ++ b :: v2 ∧
         heap m !! b = Some nb ∧ memcmp (key nb) kb ks = 0 ∧
         ∀ c nc, c ∈ v1 → heap m !! c = Some nc → memcmp (key nc) kb ks ≠ 0).
Proof.
  intros Hc.
  assert (chain (heap m) (Some a) (a :: l2 ++ l1)) as Hc'.
  { split; [done|]. destruct Hc as [_ Hr].
    by apply (ring_rotate (heap m) l1 (a :: l2)). }
  split; [exact Hc'|].
  assert (∀ l, ring (heap m) l → ∀ b, b ∈ l → is_Some (heap m !! b)) as Hin
    by (intros l Hr b Hb; by eapply ring_in).
  eexists _, _. split; [by apply search_key_spec|].
  split; [by apply search_key_spec|].
  destruct (scan_spec (heap m) None ks (l1 ++ a :: l2) kb (Hin _ (proj2 Hc)))
    as [[Hs Hno] | (u1 & b & u2 & nb & Hl & Hs & Hb & Hkb & _)];
  destruct (scan_spec (heap m) None ks (a :: l2 ++ l1) kb (Hin _ (proj2 Hc')))
    as [[Hs' Hno'] | (v1 & b' & v2 & nb' & Hl' & Hs' & Hb' & Hkb' & Hno')];
  rewrite Hs, Hs'; cbn [fst].
  - split; [done|]. intros b [=].
  - exfalso. rewrite (Hno b' nb') in Hkb'; [done | | done].
    apply rotate_elem. rewrite Hl'. apply elem_of_app. right. by left.
  - exfalso. rewrite (Hno' b nb) in Hkb; [done | | done].
    apply rotate_elem. rewrite Hl. apply elem_of_app. right. by left.
  - split; [done|]. intros c [= <-]. exists v1, v2, nb'.
    split; [done|]. split; [done|].
    unfold key_equal in *. apply bool_decide_eq_true in Hkb'. split; [done|].
    intros c nc Hcv Hnc. pose proof (Hno' c nc Hcv Hnc) as Hf.
    by apply bool_decide_eq_false in Hf.
Qed.

Lemma dll_search_key_any_head_witness :
  chain (heap ring3) (Some 2%positive) [2%positive; 1%positive; 3%positive] ∧
  ∃ r r',
    dll_search_key None 2 (Some 3%positive) (Some [x01; x00]) ring3 =
      Some (r, ring3) ∧
    dll_search_key None 2 (Some 2%positive) (Some [x01; x00]) ring3 =
      Some (r', ring3) ∧
    (r = None ↔ r' = None).
Proof.
  destruct (dll_search_key_any_head ring3 2 (Some 3%positive) [3%positive]
              2%positive [1%positive] [x01; x00] ring3_chain)
    as (Hc & r & r' & H1 & H2 & H3 & _).
  split; [exact Hc|]. by exists r, r'.
Defined.
